(** * librealsense image pipeline: a shallow embedding of [src/image.cpp]
      and [src/algo/thermal-loop/l500-thermal-loop.h]

    The development follows the layout of the sources.

    - [Cxx] fixes how the C++ scalar types are read: fixed-width unsigned
      integers are integers reduced modulo a power of two, [int] is an
      integer (signed overflow has no defined behaviour in C++, so the
      embedding gives a meaning to the overflow-free executions only),
      [>>] on an [int] is the arithmetic shift, a failed [assert] aborts
      the call.
    - [Image] embeds the size oracle, the pixel codecs, the alignment
      kernel with its two transfer policies and the rectification table.
    - [ThermalLoop] embeds the thermal calibration table and its
      [operator==]. *)

From Stdlib Require Import ZArith Bool Lia Ascii Strings.Byte SpecFloat QArith Qround.
From stdpp Require Import list list_numbers functions sorting.

Local Open Scope Z_scope.

(** ** C++ scalar types and assertions *)

Module Cxx.

(** Conversion to an unsigned type of [w] bits keeps the low [w] bits. *)
Definition to_unsigned (w : Z) (z : Z) : Z := z mod 2 ^ w.

Definition uint8_t : Z → Z := to_unsigned 8.
Definition uint16_t : Z → Z := to_unsigned 16.
(** [size_t] on the 64-bit targets of the library. *)
Definition size_t : Z → Z := to_unsigned 64.

(** An [int] is a [Z]. The arithmetic of C++ on [int] has no defined
    result outside [[- INT_MAX - 1, INT_MAX]]; an [int] expression is
    written with the operations of [Z], and is the value the program
    computes as long as it stays inside that range, as the sizes and the
    pixel indices of images of at most [INT_MAX] pixels do. *)
Definition INT_MAX : Z := 2 ^ 31 - 1.

(** The value of a four-character literal such as ['YUY2']: the characters
    are packed most significant first. *)
Definition multichar (a b c d : ascii) : Z :=
  let n (x : ascii) := Z.of_N (N_of_ascii x) in
  Z.lor (Z.shiftl (n a) 24) (Z.lor (Z.shiftl (n b) 16) (Z.lor (Z.shiftl (n c) 8) (n d))).

(** The [assert]s of the two sources. [assert] is the macro of [<cassert>]:
    a failed assertion aborts the program, and nothing is given back to
    the caller; in a translation unit compiled with [NDEBUG] the macro
    expands to [((void)0)] and the statements after it run. The embedding
    of a function is its build with assertions; where a statement is
    about what a caller gets back, the function is embedded a second time
    as it is compiled with [NDEBUG], under its name followed by
    [_NDEBUG]. *)
Inductive assertion : Set :=
| assert_width_multiple      (* assert(width % f.macropixel_width == 0) *)
| assert_unsupported_format  (* assert(false && "unsupported format") *)
| assert_even_width          (* assert(width % 2 == 0), RS_FORMAT_YUYV *)
| assert_mode                (* the entry assertion of a codec on its mode *)
| assert_false.              (* assert(false) in the default branch of a switch *)

Inductive outcome (A : Type) : Type :=
| Returns (a : A)
| Aborts (why : assertion).
Global Arguments Returns {A} a.
Global Arguments Aborts {A} why.

Definition returned {A} (o : outcome A) : Prop := ∃ a, o = Returns a.

End Cxx.
Import Cxx.

(** ** image.cpp *)

Module Image.

(** Modelled from the spec: the enumeration [rs_format] is declared in the
    public header, which is not among the sources; the spec gives its
    closed set of eight pixel formats, the same eight that the [switch] of
    [get_image_size] lists. *)
Inductive rs_format : Set :=
| RS_FORMAT_Z16 | RS_FORMAT_YUYV | RS_FORMAT_RGB8 | RS_FORMAT_BGR8
| RS_FORMAT_RGBA8 | RS_FORMAT_BGRA8 | RS_FORMAT_Y8 | RS_FORMAT_Y16.

Global Instance rs_format_eq_dec : EqDecision rs_format.
Proof. solve_decision. Defined.

(** *** Image size computation *)

Record format : Set := {
  fourcc : Z;
  macropixel_width : Z;
  macropixel_size : Z
}.

Definition sizeof_yuy2_macropixel : Z := 4.
Definition sizeof_y12i_pixel : Z := 3.
Definition sizeof_inri_pixel : Z := 3.
Definition sizeof_uint16_t : Z := 2.
Definition sizeof_uint8_t : Z := 1.

Definition formats : list format := [
  {| fourcc := multichar "Y" "U" "Y" "2"; macropixel_width := 2; macropixel_size := sizeof_yuy2_macropixel |};
  {| fourcc := multichar "Z" "1" "6" " "; macropixel_width := 1; macropixel_size := sizeof_uint16_t |};
  {| fourcc := multichar "Y" "8" " " " "; macropixel_width := 1; macropixel_size := sizeof_uint8_t |};
  {| fourcc := multichar "Y" "1" "6" " "; macropixel_width := 1; macropixel_size := sizeof_uint16_t |};
  {| fourcc := multichar "Y" "8" "I" " "; macropixel_width := 1; macropixel_size := sizeof_uint8_t * 2 |};
  {| fourcc := multichar "Y" "1" "2" "I"; macropixel_width := 1; macropixel_size := sizeof_y12i_pixel |};
  {| fourcc := multichar "I" "N" "V" "R"; macropixel_width := 1; macropixel_size := sizeof_uint16_t |};
  {| fourcc := multichar "I" "N" "V" "Z"; macropixel_width := 1; macropixel_size := sizeof_uint16_t |};
  {| fourcc := multichar "I" "N" "V" "I"; macropixel_width := 1; macropixel_size := sizeof_uint8_t |};
  {| fourcc := multichar "I" "N" "R" "I"; macropixel_width := 1; macropixel_size := sizeof_inri_pixel |};
  {| fourcc := multichar "I" "N" "Z" "I"; macropixel_width := 2; macropixel_size := 4 |}
].

(** [get_image_size(int, int, rs_format)]. The product of the two [int]s
    is converted by the [return] to [size_t]. The [default] branch of the
    [switch] is not reached on the closed set of formats. *)
Definition get_image_size (width height : Z) (fmt : rs_format) : outcome Z :=
  match fmt with
  | RS_FORMAT_Z16 => Returns (size_t (width * height * 2))
  | RS_FORMAT_YUYV =>
      if Z.rem width 2 =? 0 then Returns (size_t (width * height * 2))
      else Aborts assert_even_width
  | RS_FORMAT_RGB8 => Returns (size_t (width * height * 3))
  | RS_FORMAT_BGR8 => Returns (size_t (width * height * 3))
  | RS_FORMAT_RGBA8 => Returns (size_t (width * height * 4))
  | RS_FORMAT_BGRA8 => Returns (size_t (width * height * 4))
  | RS_FORMAT_Y8 => Returns (size_t (width * height))
  | RS_FORMAT_Y16 => Returns (size_t (width * height * 2))
  end.

(** The loop [for(auto & f : formats)] of [get_image_size(int, int,
    uint32_t)]: the first entry whose tag matches decides; [/] and [%] on
    [int] truncate towards zero ([Z.quot], [Z.rem]); the [int] product
    [(width / f.macropixel_width) * height], which is the product in [Z]
    as long as that is at most [INT_MAX], is converted to [size_t] to be
    multiplied by [f.macropixel_size]. Falling out of the loop reaches
    [assert(false && "unsupported format")]. *)
Fixpoint get_image_size_loop (fs : list format) (width height fourcc_ : Z) : outcome Z :=
  match fs with
  | [] => Aborts assert_unsupported_format
  | f :: fs' =>
      if negb (fourcc f =? fourcc_) then get_image_size_loop fs' width height fourcc_
      else if Z.rem width (macropixel_width f) =? 0
           then Returns (size_t (size_t (Z.quot width (macropixel_width f) * height)
                                 * macropixel_size f))
           else Aborts assert_width_multiple
  end.

Definition get_image_size_fourcc (width height fourcc_ : Z) : outcome Z :=
  get_image_size_loop formats width height fourcc_.

(** The same function compiled with [NDEBUG]: the two [assert]s are gone,
    so that the [return] of the loop is reached whatever the width is, and
    falling out of the loop reaches [return 0]. *)
Fixpoint get_image_size_loop_NDEBUG (fs : list format) (width height fourcc_ : Z) : Z :=
  match fs with
  | [] => 0
  | f :: fs' =>
      if negb (fourcc f =? fourcc_) then get_image_size_loop_NDEBUG fs' width height fourcc_
      else size_t (size_t (Z.quot width (macropixel_width f) * height) * macropixel_size f)
  end.

Definition get_image_size_fourcc_NDEBUG (width height fourcc_ : Z) : Z :=
  get_image_size_loop_NDEBUG formats width height fourcc_.

(** *** Memory seen through a pointer

    A [const void *] is a map from byte offsets to bytes; a typed pointer
    is a map from element indices to elements. The [reinterpret_cast]s of
    the codecs read the packed structures below from the bytes (all of
    them are byte-packed by [#pragma pack(push, 1)]). *)

Definition memory : Type := Z → byte.

Definition u8 (b : byte) : Z := Z.of_N (Byte.to_N b).

Definition as_uint8_t (s : memory) : Z → Z := λ i, u8 (s i).

(** Little-endian 16-bit load. *)
Definition as_uint16_t (s : memory) : Z → Z :=
  λ i, Z.lor (u8 (s (2 * i))) (Z.shiftl (u8 (s (2 * i + 1))) 8).

Record yuy2_macropixel : Set := { y0 : Z; u : Z; y1 : Z; v : Z }.

Definition as_yuy2_macropixel (s : memory) : Z → yuy2_macropixel :=
  λ i, {| y0 := u8 (s (4 * i)); u := u8 (s (4 * i + 1));
          y1 := u8 (s (4 * i + 2)); v := u8 (s (4 * i + 3)) |}.

(** [struct y12i_pixel { uint8_t rl : 8, rh : 4, ll : 4, lh : 8; }]. *)
Record y12i_pixel : Set := { rl : Z; rh : Z; ll : Z; lh : Z }.

Definition l (p : y12i_pixel) : Z := Z.lor (Z.shiftl (lh p) 4) (ll p).
Definition r (p : y12i_pixel) : Z := Z.lor (Z.shiftl (rh p) 8) (rl p).

(** Bit-fields are allocated in declaration order from the least
    significant bit of the little-endian bytes: [rl] is the first byte,
    [rh] the low and [ll] the high nibble of the second, [lh] the third. *)
Definition y12i_of_bytes (b0 b1 b2 : byte) : y12i_pixel :=
  {| rl := u8 b0; rh := Z.land (u8 b1) 15; ll := Z.shiftr (u8 b1) 4; lh := u8 b2 |}.

Definition as_y12i_pixel (s : memory) : Z → y12i_pixel :=
  λ i, y12i_of_bytes (s (3 * i)) (s (3 * i + 1)) (s (3 * i + 2)).

Record inri_pixel : Set := { z16 : Z; y8 : Z }.

Definition as_inri_pixel (s : memory) : Z → inri_pixel :=
  λ i, {| z16 := Z.lor (u8 (s (3 * i))) (Z.shiftl (u8 (s (3 * i + 1))) 8);
          y8 := u8 (s (3 * i + 2)) |}.

(** Modelled from the spec: [subdevice_mode] and its stream requests are
    declared in a header that is not among the sources; the fields are the
    ones the codecs read ([mode.width], [mode.height], [mode.fourcc],
    [mode.streams[k].width], [.height], [.format]). *)
Record stream_request : Set := {
  stream_width : Z;
  stream_height : Z;
  stream_format : rs_format
}.

Record subdevice_mode : Set := {
  mode_width : Z;
  mode_height : Z;
  mode_fourcc : Z;
  streams : list stream_request
}.

(** *** Loops

    [for(int x = 0; x < stop; x += step)] with [0 < step]: the values the
    loop variable takes, in order. *)
Definition loop_values (stop step : Z) : list Z :=
  (λ k, k * step) <$> seqZ 0 ((stop + step - 1) `div` step).

Definition for_loop {S : Type} (stop step : Z) (body : Z → S → S) (s : S) : S :=
  foldl (λ s x, body x s) s (loop_values stop step).

(** *** Naive unpacking routines

    The codecs write through [*out++]: the result is the sequence of the
    elements written, in order, from the start of the destination plane.
    The state of the loops is the source position and that sequence (for
    [split_frame], the pair [ab] of the sequences of the two planes). *)

(** [memcpy(dest + dest_off, src + src_off, n)] between two buffers that
    do not overlap. *)
Definition memcpy (dest : memory) (dest_off : Z) (src : memory) (src_off : Z) (n : Z) : memory :=
  λ a, if bool_decide (dest_off ≤ a < dest_off + n) then src (src_off + (a - dest_off)) else dest a.

(** [unpack_subrect]: the two strides are computed in the order of their
    declaration, and a failed assertion of the size oracle aborts the call.
    The state of the loop is the pair of the positions [out] and [in] and
    the memory behind [dest[0]]. *)
Definition unpack_subrect (dest0 : memory) (source : memory) (mode : subdevice_mode)
    : outcome memory :=
  match streams mode with
  | [s0] =>
      match get_image_size_fourcc (mode_width mode) 1 (mode_fourcc mode) with
      | Aborts why => Aborts why
      | Returns in_stride =>
          match get_image_size (stream_width s0) 1 (stream_format s0) with
          | Aborts why => Aborts why
          | Returns out_stride =>
              Returns (snd (
                for_loop (Z.min (mode_height mode) (stream_height s0)) 1
                  (λ _ '((out, in_), mem),
                     ((out + out_stride, in_ + in_stride),
                      memcpy mem out source in_ (Z.min in_stride out_stride)))
                  ((0, 0), dest0)))
          end
      end
  | _ => Aborts assert_mode
  end.

Definition unpack_pixels {SOURCE OUT : Type} (mode : subdevice_mode) (source : Z → SOURCE)
    (fmt : rs_format) (unpack : SOURCE → OUT) : outcome (list OUT) :=
  match streams mode with
  | [s0] =>
      if bool_decide (stream_width s0 ≤ mode_width mode ∧ stream_height s0 ≤ mode_height mode
                      ∧ stream_format s0 = fmt)
      then Returns (snd (
        for_loop (stream_height s0) 1 (λ _ '(src, out),
          let '(src, out) :=
            for_loop (stream_width s0) 1 (λ _ '(src, out),
              (src + 1, out ++ [unpack (source src)])) (src, out) in
          (src + (mode_width mode - stream_width s0), out)) (0, [])))
      else Aborts assert_mode
  | _ => Aborts assert_mode
  end.

(** The lambdas of the two codecs below: [pixel | pixel << 8] on a
    [uint8_t] and [pixel << 6] on a [uint16_t], each returned as
    [uint16_t]. *)
Definition y16_from_y8 (pixel : Z) : Z := uint16_t (Z.lor pixel (Z.shiftl pixel 8)).
Definition y16_from_y16_10 (pixel : Z) : Z := uint16_t (Z.shiftl pixel 6).

Definition unpack_y16_from_y8 (s : memory) (m : subdevice_mode) : outcome (list Z) :=
  unpack_pixels m (as_uint8_t s) RS_FORMAT_Y16 y16_from_y8.

Definition unpack_y16_from_y16_10 (s : memory) (m : subdevice_mode) : outcome (list Z) :=
  unpack_pixels m (as_uint16_t s) RS_FORMAT_Y16 y16_from_y16_10.

(** *** YUY2 unpacking routines *)

Definition unpack_from_yuy2 {OUT : Type} (source : memory) (mode : subdevice_mode)
    (fmt : rs_format) (unpack : Z → Z → Z → OUT) : outcome (list OUT) :=
  let in_ := as_yuy2_macropixel source in
  match streams mode with
  | [s0] =>
      if bool_decide (mode_fourcc mode = multichar "Y" "U" "Y" "2"
                      ∧ stream_width s0 ≤ mode_width mode ∧ stream_height s0 ≤ mode_height mode
                      ∧ stream_format s0 = fmt)
      then Returns (snd (
        for_loop (stream_height s0) 1 (λ _ '(src, out),
          let '(src, out) :=
            for_loop (stream_width s0) 2 (λ _ '(src, out),
              (src + 1,
               out ++ [unpack (y0 (in_ src) - 16) (u (in_ src) - 128) (v (in_ src) - 128);
                       unpack (y1 (in_ src) - 16) (u (in_ src) - 128) (v (in_ src) - 128)]))
              (src, out) in
          (src + (mode_width mode - stream_width s0), out)) (0, [])))
      else Aborts assert_mode
  | _ => Aborts assert_mode
  end.

Definition clamp_byte (v : Z) : Z := uint8_t (if v <? 0 then 0 else if v >? 255 then 255 else v).
Definition yuv_to_r (y u v : Z) : Z := clamp_byte (Z.shiftr (128 + 298 * y + 409 * v) 8).
Definition yuv_to_g (y u v : Z) : Z := clamp_byte (Z.shiftr (128 + 298 * y - 100 * u - 208 * v) 8).
Definition yuv_to_b (y u v : Z) : Z := clamp_byte (Z.shiftr (128 + 298 * y + 516 * u) 8).

Record byte3 : Set := { b3_a : Z; b3_b : Z; b3_c : Z }.
Record byte4 : Set := { b4_a : Z; b4_b : Z; b4_c : Z; b4_d : Z }.

Definition unpack_rgb_from_yuy2 (s : memory) (m : subdevice_mode) : outcome (list byte3) :=
  unpack_from_yuy2 s m RS_FORMAT_RGB8
    (λ y u v, {| b3_a := yuv_to_r y u v; b3_b := yuv_to_g y u v; b3_c := yuv_to_b y u v |}).
Definition unpack_rgba_from_yuy2 (s : memory) (m : subdevice_mode) : outcome (list byte4) :=
  unpack_from_yuy2 s m RS_FORMAT_RGBA8
    (λ y u v, {| b4_a := yuv_to_r y u v; b4_b := yuv_to_g y u v; b4_c := yuv_to_b y u v; b4_d := 255 |}).
Definition unpack_bgr_from_yuy2 (s : memory) (m : subdevice_mode) : outcome (list byte3) :=
  unpack_from_yuy2 s m RS_FORMAT_BGR8
    (λ y u v, {| b3_a := yuv_to_b y u v; b3_b := yuv_to_g y u v; b3_c := yuv_to_r y u v |}).
Definition unpack_bgra_from_yuy2 (s : memory) (m : subdevice_mode) : outcome (list byte4) :=
  unpack_from_yuy2 s m RS_FORMAT_BGRA8
    (λ y u v, {| b4_a := yuv_to_b y u v; b4_b := yuv_to_g y u v; b4_c := yuv_to_r y u v; b4_d := 255 |}).

(** *** 2-in-1 format splitting routines *)

Definition split_frame {SOURCE A B : Type} (mode : subdevice_mode) (source : Z → SOURCE)
    (fourcc_ : Z) (format_a format_b : rs_format) (split_a : SOURCE → A) (split_b : SOURCE → B)
    : outcome (list A * list B) :=
  match streams mode with
  | [s0; s1] =>
      if bool_decide (mode_fourcc mode = fourcc_
                      ∧ stream_format s0 = format_a ∧ stream_format s1 = format_b
                      ∧ stream_width s0 = stream_width s1 ∧ stream_height s0 = stream_height s1
                      ∧ stream_width s0 ≤ mode_width mode ∧ stream_height s0 ≤ mode_height mode)
      then Returns (snd (
        for_loop (stream_height s0) 1 (λ _ '(src, ab),
          let '(src, ab) :=
            for_loop (stream_width s0) 1 (λ _ '(src, ab),
              (src + 1, (ab.1 ++ [split_a (source src)], ab.2 ++ [split_b (source src)])))
              (src, ab) in
          (src + (mode_width mode - stream_width s0), ab)) (0, ([], []))))
      else Aborts assert_mode
  | _ => Aborts assert_mode
  end.

(** The two lambdas of [unpack_y16_y16_from_y12i_10]:
    [p.l() << 6 | p.l() >> 4] and [p.r() << 6 | p.r() >> 4], each returned
    as [uint16_t]. *)
Definition y12i_split_a (p : y12i_pixel) : Z := uint16_t (Z.lor (Z.shiftl (l p) 6) (Z.shiftr (l p) 4)).
Definition y12i_split_b (p : y12i_pixel) : Z := uint16_t (Z.lor (Z.shiftl (r p) 6) (Z.shiftr (r p) 4)).

Definition unpack_y16_y16_from_y12i_10 (source : memory) (mode : subdevice_mode)
    : outcome (list Z * list Z) :=
  split_frame mode (as_y12i_pixel source) (multichar "Y" "1" "2" "I") RS_FORMAT_Y16 RS_FORMAT_Y16
    y12i_split_a y12i_split_b.

(** [struct y8i_pixel { uint8_t l, r; }], local to
    [unpack_y8_y8_from_y8i]. *)
Record y8i_pixel : Set := { y8i_l : Z; y8i_r : Z }.

Definition as_y8i_pixel (s : memory) : Z → y8i_pixel :=
  λ i, {| y8i_l := u8 (s (2 * i)); y8i_r := u8 (s (2 * i + 1)) |}.

Definition unpack_y8_y8_from_y8i (source : memory) (mode : subdevice_mode)
    : outcome (list Z * list Z) :=
  split_frame mode (as_y8i_pixel source) (multichar "Y" "8" "I" " ") RS_FORMAT_Y8 RS_FORMAT_Y8
    (λ p, y8i_l p) (λ p, y8i_r p).

Definition unpack_z16_y8_from_inri (source : memory) (mode : subdevice_mode)
    : outcome (list Z * list Z) :=
  split_frame mode (as_inri_pixel source) (multichar "I" "N" "R" "I") RS_FORMAT_Z16 RS_FORMAT_Y8
    (λ p, z16 p) (λ p, y8 p).

Definition unpack_z16_y16_from_inri (source : memory) (mode : subdevice_mode)
    : outcome (list Z * list Z) :=
  split_frame mode (as_inri_pixel source) (multichar "I" "N" "R" "I") RS_FORMAT_Z16 RS_FORMAT_Y16
    (λ p, z16 p) (λ p, uint16_t (Z.lor (y8 p) (Z.shiftl (y8 p) 8))).

(** *** Floating point and the projection library

    [float] arithmetic is not interpreted: the kernel is embedded over any
    type of [float] values with the operations it uses. *)
Class float_arith : Type := {
  float : Type;
  (** [(float)i] for an [int] (also for a [uint16_t] after promotion). *)
  float_of_int : Z → float;
  float_mul : float → float → float;
  (** The literal [1.0f]. *)
  float_one : float;
  (** Conversion to [bool] in a condition: [x != 0]. *)
  float_to_bool : float → bool;
  (** [(int)std::round(x)]. *)
  float_round_to_int : float → Z
}.

Section Alignment.
Context `{float_arith}.

(** Modelled from the spec: [rs_intrinsics] and [rs_extrinsics] are
    declared in the public header, which is not among the sources. The
    spec lists their fields: size, principal point, focal length,
    distortion model tag and five coefficients; a column-major 3x3
    rotation and a translation. *)
Record rs_intrinsics : Type := {
  width : Z;
  height : Z;
  ppx : float;
  ppy : float;
  fx : float;
  fy : float;
  model : Z;
  coeffs : list float
}.

Record rs_extrinsics : Type := {
  rotation : list float;
  translation : list float
}.

(** The three functions of [rsutil.h] that the kernel calls. The header is
    not among the sources, so they are parameters of the embedding; each
    returns what the C function stores through its first argument. *)
Class rsutil : Type := {
  rs_deproject_pixel_to_point : rs_intrinsics → float * float → float → float * float * float;
  rs_transform_point_to_point : rs_extrinsics → float * float * float → float * float * float;
  rs_project_point_to_pixel : rs_intrinsics → float * float * float → float * float
}.
Context `{rsutil}.

(** *** Image alignment *)

(** A value of [bytes<N>] is the sequence of its [N] chars. *)
Definition load_bytes (N : Z) (p : memory) (i : Z) : list byte :=
  (λ k, p (N * i + k)) <$> seqZ 0 N.

Definition store_bytes (N : Z) (p : memory) (i : Z) (val : list byte) : memory :=
  λ a, if bool_decide (N * i ≤ a < N * i + N)
       then default Byte.x00 (val !! Z.to_nat (a - N * i))
       else p a.

(** Lines 207 to 213 of [align_images]: the pixel of the other image that
    the depth pixel [(depth_x, depth_y)] of depth [depth] lands on. *)
Definition other_pixel_of (depth_intrin : rs_intrinsics) (depth_to_other : rs_extrinsics)
    (other_intrin : rs_intrinsics) (depth_x depth_y : Z) (depth : float) : Z * Z :=
  let depth_pixel := (float_of_int depth_x, float_of_int depth_y) in
  let depth_point := rs_deproject_pixel_to_point depth_intrin depth_pixel depth in
  let other_point := rs_transform_point_to_point depth_to_other depth_point in
  let other_pixel := rs_project_point_to_pixel other_intrin other_point in
  (float_round_to_int (fst other_pixel), float_round_to_int (snd other_pixel)).

(** The body of the inner loop, on the callee's state [s]. [continue]
    leaves [s] as it is. The second argument of [transfer_pixel] is the
    [int] expression [other_y * other_intrin.width + other_x]; after the
    bounds check it is below [width * height] of the other image, and is
    the sum in [Z] as long as that image has at most [INT_MAX] pixels. *)
Definition align_pixel {S : Type} (depth_intrin : rs_intrinsics) (depth_to_other : rs_extrinsics)
    (other_intrin : rs_intrinsics) (get_depth : Z → float) (transfer_pixel : Z → Z → S → S)
    (depth_x depth_y depth_pixel_index : Z) (s : S) : S :=
  let depth := get_depth depth_pixel_index in
  if float_to_bool depth then
    let '(other_x, other_y) :=
      other_pixel_of depth_intrin depth_to_other other_intrin depth_x depth_y depth in
    if (other_x <? 0) || (other_y <? 0)
       || (other_x >=? width other_intrin) || (other_y >=? height other_intrin)
    then s
    else transfer_pixel depth_pixel_index (other_y * width other_intrin + other_x) s
  else s.

(** [align_images]: the state of the loops is the counter
    [depth_pixel_index], incremented at the end of every iteration of the
    inner loop (also after [continue]), and the state [s] that
    [transfer_pixel] updates. [get_depth] reads, and does not write. *)
Definition align_images {S : Type} (depth_intrin : rs_intrinsics) (depth_to_other : rs_extrinsics)
    (other_intrin : rs_intrinsics) (get_depth : Z → float) (transfer_pixel : Z → Z → S → S)
    (s : S) : S :=
  snd (
    for_loop (height depth_intrin) 1 (λ depth_y st,
      for_loop (width depth_intrin) 1 (λ depth_x '(depth_pixel_index, s),
        (depth_pixel_index + 1,
         align_pixel depth_intrin depth_to_other other_intrin get_depth transfer_pixel
           depth_x depth_y depth_pixel_index s)) st) (0, s)).

(** The destination [depth_aligned_to_color] is read as [uint16_t *]; the
    buffers do not overlap. *)
Definition align_depth_to_color (depth_aligned_to_color : Z → Z) (depth_pixels : Z → Z)
    (depth_scale : float) (depth_intrin : rs_intrinsics) (depth_to_color : rs_extrinsics)
    (color_intrin : rs_intrinsics) : Z → Z :=
  let out_depth := depth_aligned_to_color in
  align_images depth_intrin depth_to_color color_intrin
    (λ depth_pixel_index, float_mul (float_of_int (depth_pixels depth_pixel_index)) depth_scale)
    (λ depth_pixel_index color_pixel_index out_depth,
       <[color_pixel_index := depth_pixels depth_pixel_index]> out_depth)
    out_depth.

Definition align_color_to_depth_bytes (N : Z) (color_aligned_to_depth : memory)
    (depth_pixels : Z → Z) (depth_scale : float) (depth_intrin : rs_intrinsics)
    (depth_to_color : rs_extrinsics) (color_intrin : rs_intrinsics) (color_pixels : memory)
    : memory :=
  let in_color := load_bytes N color_pixels in
  let out_color := color_aligned_to_depth in
  align_images depth_intrin depth_to_color color_intrin
    (λ depth_pixel_index, float_mul (float_of_int (depth_pixels depth_pixel_index)) depth_scale)
    (λ depth_pixel_index color_pixel_index out_color,
       store_bytes N out_color depth_pixel_index (in_color color_pixel_index))
    out_color.

Definition align_color_to_depth (color_aligned_to_depth : memory) (depth_pixels : Z → Z)
    (depth_scale : float) (depth_intrin : rs_intrinsics) (depth_to_color : rs_extrinsics)
    (color_intrin : rs_intrinsics) (color_pixels : memory) (color_format : rs_format)
    : outcome memory :=
  let go N := Returns (align_color_to_depth_bytes N color_aligned_to_depth depth_pixels
                         depth_scale depth_intrin depth_to_color color_intrin color_pixels) in
  match color_format with
  | RS_FORMAT_Y8 => go 1
  | RS_FORMAT_Y16 | RS_FORMAT_Z16 => go 2
  | RS_FORMAT_RGB8 | RS_FORMAT_BGR8 => go 3
  | RS_FORMAT_RGBA8 | RS_FORMAT_BGRA8 => go 4
  | _ => Aborts assert_false
  end.

(** The same function compiled with [NDEBUG]: the [default] branch is
    empty, and the function returns without a call of
    [align_color_to_depth_bytes]. *)
Definition align_color_to_depth_NDEBUG (color_aligned_to_depth : memory) (depth_pixels : Z → Z)
    (depth_scale : float) (depth_intrin : rs_intrinsics) (depth_to_color : rs_extrinsics)
    (color_intrin : rs_intrinsics) (color_pixels : memory) (color_format : rs_format)
    : memory :=
  let go N := align_color_to_depth_bytes N color_aligned_to_depth depth_pixels
                depth_scale depth_intrin depth_to_color color_intrin color_pixels in
  match color_format with
  | RS_FORMAT_Y8 => go 1
  | RS_FORMAT_Y16 | RS_FORMAT_Z16 => go 2
  | RS_FORMAT_RGB8 | RS_FORMAT_BGR8 => go 3
  | RS_FORMAT_RGBA8 | RS_FORMAT_BGRA8 => go 4
  | _ => color_aligned_to_depth
  end.

(** *** Image rectification *)

(** [resize] value-initialises the entries; the vector is a list, written
    by index. Writing out of range has no defined behaviour in C++ and
    leaves the list as it is here; [compute_rectification_table] never
    does (lemma [rectification_writes_in_range]). The argument of
    [resize] is the [int] product [rect_intrin.width * rect_intrin.height]
    converted to [size_t], which is the product in [Z] as long as that is
    at most [INT_MAX]; the entries are [int]s. Failure of the allocation
    is not modelled. *)
Definition compute_rectification_table (rect_intrin : rs_intrinsics)
    (rect_to_unrect : rs_extrinsics) (unrect_intrin : rs_intrinsics) : list Z :=
  let rectification_table :=
    replicate (Z.to_nat (size_t (width rect_intrin * height rect_intrin))) 0 in
  align_images rect_intrin rect_to_unrect unrect_intrin (λ _, float_one)
    (λ rect_pixel_index unrect_pixel_index rectification_table,
       <[Z.to_nat rect_pixel_index := unrect_pixel_index]> rectification_table)
    rectification_table.

(** [rectify_image_pixels] at [T = bytes<N>], its only instances. The
    state of the loop is the position of [rect_pixels] and the memory
    behind it. *)
Definition rectify_image_pixels (N : Z) (rect_pixels : memory) (rectification_table : list Z)
    (unrect_pixels : memory) : memory :=
  snd (foldl (λ '(p, rect) entry,
                (p + 1, store_bytes N rect p (load_bytes N unrect_pixels entry)))
             (0, rect_pixels) rectification_table).

Definition rectify_image (rect_pixels : memory) (rectification_table : list Z)
    (unrect_pixels : memory) (fmt : rs_format) : outcome memory :=
  let go N := Returns (rectify_image_pixels N rect_pixels rectification_table unrect_pixels) in
  match fmt with
  | RS_FORMAT_Y8 => go 1
  | RS_FORMAT_Y16 | RS_FORMAT_Z16 => go 2
  | RS_FORMAT_RGB8 | RS_FORMAT_BGR8 => go 3
  | RS_FORMAT_RGBA8 | RS_FORMAT_BGRA8 => go 4
  | _ => Aborts assert_false
  end.

(** The same function compiled with [NDEBUG]: the [default] branch is
    empty, and the function returns without a call of
    [rectify_image_pixels]. *)
Definition rectify_image_NDEBUG (rect_pixels : memory) (rectification_table : list Z)
    (unrect_pixels : memory) (fmt : rs_format) : memory :=
  let go N := rectify_image_pixels N rect_pixels rectification_table unrect_pixels in
  match fmt with
  | RS_FORMAT_Y8 => go 1
  | RS_FORMAT_Y16 | RS_FORMAT_Z16 => go 2
  | RS_FORMAT_RGB8 | RS_FORMAT_BGR8 => go 3
  | RS_FORMAT_RGBA8 | RS_FORMAT_BGRA8 => go 4
  | _ => rect_pixels
  end.

End Alignment.

End Image.


(** ** l500-thermal-loop.h *)

Module ThermalLoop.

(** A [float] is its IEEE-754 binary32 bit pattern, an integer below
    [2 ^ 32]: sign bit 31, biased exponent in bits 23 to 30, fraction in
    bits 0 to 22. Two floats are bitwise equal when the patterns are the
    same integer. [decode] gives the value the pattern denotes, in the
    Standard Library's specification of binary floating point. *)
Definition is_float (b : Z) : Prop := 0 ≤ b < 2 ^ 32.

Definition sign_bit (b : Z) : bool := Z.testbit b 31.
Definition exponent_bits (b : Z) : Z := Z.land (Z.shiftr b 23) 255.
Definition fraction_bits (b : Z) : Z := Z.land b (Z.ones 23).

Definition decode (b : Z) : spec_float :=
  if exponent_bits b =? 0 then
    match fraction_bits b with
    | Zpos m => S754_finite (sign_bit b) m (-149)
    | _ => S754_zero (sign_bit b)
    end
  else if exponent_bits b =? 255 then
    if fraction_bits b =? 0 then S754_infinity (sign_bit b) else S754_nan
  else
    match fraction_bits b + 2 ^ 23 with
    | Zpos m => S754_finite (sign_bit b) m (exponent_bits b - 150)
    | _ => S754_nan
    end.

(** The operator [!=] on two [float]s. *)
Definition float_ne (a b : Z) : bool := negb (SFeqb (decode a) (decode b)).

Record header : Set := {
  min_temp : Z;
  max_temp : Z;
  reference_temp : Z;
  valid : Z
}.

Record temp_data : Set := {
  scale : Z;
  sheer : Z;
  tx : Z;
  ty : Z
}.

Global Instance temp_data_inhabited : Inhabited temp_data :=
  populate {| scale := 0; sheer := 0; tx := 0; ty := 0 |}.

(** The members that [operator==] reads: the header, which it reaches as
    [lhs.header] (named [header_] here, [header] being the name of its
    type), and the vector [vals]. The metadata member [md] is not read by
    it. *)
Record thermal_calibration_table : Set := {
  header_ : header;
  vals : list temp_data
}.

Definition resolution : Z := 29.

(** The body of the [for] loop: the condition of its [if]. *)
Definition vals_differ (lhs rhs : thermal_calibration_table) (i : nat) : bool :=
  float_ne (scale (vals lhs !!! i)) (scale (vals rhs !!! i))
  || float_ne (sheer (vals lhs !!! i)) (sheer (vals rhs !!! i))
  || float_ne (tx (vals lhs !!! i)) (tx (vals rhs !!! i))
  || float_ne (ty (vals lhs !!! i)) (ty (vals rhs !!! i)).

(** [for( auto i = 0; i < rhs.vals.size(); i++ )] with its early
    [return false], over the values of [i] still to come. *)
Fixpoint vals_loop (lhs rhs : thermal_calibration_table) (indices : list nat) : bool :=
  match indices with
  | [] => true
  | i :: rest => if vals_differ lhs rhs i then false else vals_loop lhs rhs rest
  end.

Definition operator_eq (lhs rhs : thermal_calibration_table) : bool :=
  if negb (length (vals lhs) =? length (vals rhs))%nat then false
  else if float_ne (max_temp (header_ lhs)) (max_temp (header_ rhs))
          || float_ne (min_temp (header_ lhs)) (min_temp (header_ rhs))
          || float_ne (reference_temp (header_ lhs)) (reference_temp (header_ rhs))
          || float_ne (valid (header_ lhs)) (valid (header_ rhs))
  then false
  else vals_loop lhs rhs (seq 0 (length (vals rhs))).

End ThermalLoop.

(** ** An exact instance of the arithmetic

    Rational numbers with exact operations and a pinhole camera without
    distortion: an instance of the interfaces [float_arith] and [rsutil] on
    which the kernel can be run. The theorems below hold for every
    instance; this one supplies concrete inputs. *)

Module Exact.
Import Image.

(** Round half away from zero, as [std::round] does. *)
Definition Qround_int (q : Q) : Z :=
  if (Qnum q <? 0)%Z then (- Qfloor (Qplus (Qopp q) (1 # 2)))%Z else Qfloor (Qplus q (1 # 2)).

#[export] Instance Q_float_arith : float_arith := {|
  float := Q;
  float_of_int := inject_Z;
  float_mul := Qmult;
  float_one := 1 # 1;
  float_to_bool := λ q, negb (Qnum q =? 0)%Z;
  float_round_to_int := Qround_int
|}.

Definition nthq (l : list Q) (i : nat) : Q := default (0 # 1) (l !! i).

#[export] Instance Q_rsutil : rsutil := {|
  rs_deproject_pixel_to_point := λ intrin pixel depth,
    let x := Qdiv (Qminus (fst pixel) (ppx intrin)) (fx intrin) in
    let y := Qdiv (Qminus (snd pixel) (ppy intrin)) (fy intrin) in
    (Qmult depth x, Qmult depth y, depth);
  rs_transform_point_to_point := λ extrin p,
    let '(p0, p1, p2) := p in
    let row (i : nat) :=
      Qplus (Qplus (Qplus (Qmult (nthq (rotation extrin) i) p0)
                          (Qmult (nthq (rotation extrin) (i + 3)) p1))
                   (Qmult (nthq (rotation extrin) (i + 6)) p2))
            (nthq (translation extrin) i) in
    (row 0%nat, row 1%nat, row 2%nat);
  rs_project_point_to_pixel := λ intrin p,
    let '(p0, p1, p2) := p in
    (Qplus (Qmult (Qdiv p0 p2) (fx intrin)) (ppx intrin),
     Qplus (Qmult (Qdiv p1 p2) (fy intrin)) (ppy intrin))
|}.

(** A camera of [w] by [h] pixels with focal length [f] and the principal
    point at the origin. *)
Definition camera (w h : Z) (f : Q) : rs_intrinsics :=
  {| width := w; height := h; ppx := 0 # 1; ppy := 0 # 1; fx := f; fy := f;
     model := 0; coeffs := replicate 5 (0 # 1) |}.

(** The rigid transform that is a translation by [(tx, ty, tz)]. *)
Definition translate (tx ty tz : Q) : rs_extrinsics :=
  {| rotation := [1 # 1; 0 # 1; 0 # 1; 0 # 1; 1 # 1; 0 # 1; 0 # 1; 0 # 1; 1 # 1];
     translation := [tx; ty; tz] |}.

Definition identity : rs_extrinsics := translate (0 # 1) (0 # 1) (0 # 1).

End Exact.

(** * Vocabulary of the statements *)

Module ImageSpec.
Import Image.

(** The table of input FourCC codes as the spec gives it: tag, macropixel
    width in pixels, macropixel size in bytes. *)
Definition spec_fourcc_table : list (Z * Z * Z) := [
  (multichar "Y" "U" "Y" "2", 2, 4);
  (multichar "Z" "1" "6" " ", 1, 2);
  (multichar "Y" "8" " " " ", 1, 1);
  (multichar "Y" "1" "6" " ", 1, 2);
  (multichar "Y" "8" "I" " ", 1, 2);
  (multichar "Y" "1" "2" "I", 1, 3);
  (multichar "I" "N" "V" "R", 1, 2);
  (multichar "I" "N" "V" "Z", 1, 2);
  (multichar "I" "N" "V" "I", 1, 1);
  (multichar "I" "N" "R" "I", 1, 3);
  (multichar "I" "N" "Z" "I", 2, 4)
].

(** The spec's error kinds, and what a call gives back according to the
    spec: a value, or an error that is surfaced to the caller. *)
Inductive error : Set := UnsupportedFormat | BadGeometry | ContractViolation.

Inductive result (A : Type) : Type :=
| Ok (a : A)
| Fails (e : error).
Global Arguments Ok {A} a.
Global Arguments Fails {A} e.

(** What the caller of the source function gets back: the value returned,
    and nothing when the program was aborted by an assertion. *)
Definition given_back {A : Type} (o : outcome A) : option (result A) :=
  match o with
  | Returns a => Some (Ok a)
  | Aborts _ => None
  end.

(** [size_of(width, height, fourcc)] as the spec words it: it looks up
    the macropixel descriptor and returns
    [(width / macropixel_width) * height * macropixel_bytes]; it fails with
    UnsupportedFormat when the tag is outside the closed set and with
    BadGeometry when [width % macropixel_width ≠ 0]. *)
Definition size_of (width height fourcc_ : Z) : result Z :=
  match list_find (λ d, d.1.1 = fourcc_) spec_fourcc_table with
  | None => Fails UnsupportedFormat
  | Some (_, (_, macropixel_width, macropixel_bytes)) =>
      if bool_decide (width `mod` macropixel_width = 0)
      then Ok (width `div` macropixel_width * height * macropixel_bytes)
      else Fails BadGeometry
  end.

(** The source elements a codec reads, in order: [n] consecutive elements
    in each of [rows] rows, the rows [n + margin] elements apart. *)
Definition elements_read (rows n margin : Z) : list Z :=
  row ← seqZ 0 rows; seqZ (row * (n + margin)) n.

(** What a codec has written after it has read the elements [ks], when
    reading element [k] makes it write [emit k]. *)
Definition emit_all {O : Type} (emit : Z → O → O) (o : O) (ks : list Z) : O :=
  foldl (λ o k, emit k o) o ks.

(** The BT.601 fixed-point formulas as the spec writes them. *)
Definition clamp (x lo hi : Z) : Z := Z.max lo (Z.min x hi).

(** A frame of bytes: the bytes of [bs] from offset 0, zero after them. *)
Definition frame (bs : list byte) : memory := λ i, default Byte.x00 (bs !! Z.to_nat i).

Definition single (fourcc_ w h : Z) (fmt : rs_format) : subdevice_mode :=
  {| mode_width := w; mode_height := h; mode_fourcc := fourcc_;
     streams := [ {| stream_width := w; stream_height := h; stream_format := fmt |} ] |}.

Definition dual (fourcc_ w h : Z) (fmt_a fmt_b : rs_format) : subdevice_mode :=
  {| mode_width := w; mode_height := h; mode_fourcc := fourcc_;
     streams := [ {| stream_width := w; stream_height := h; stream_format := fmt_a |};
                  {| stream_width := w; stream_height := h; stream_format := fmt_b |} ] |}.

(** The expansion of a 10-bit sample to 16 bits as the spec writes it. *)
Definition expand_10_to_16 (v10 : Z) : Z := Z.lor (Z.shiftl v10 6) (Z.shiftr v10 4).

(** The pixel width in bytes of the formats that can be transferred pixel
    by pixel, as the spec lists them; [RS_FORMAT_YUYV] has none. *)
Definition pixel_width (fmt : rs_format) : option Z :=
  match fmt with
  | RS_FORMAT_Y8 => Some 1
  | RS_FORMAT_Y16 | RS_FORMAT_Z16 => Some 2
  | RS_FORMAT_RGB8 | RS_FORMAT_BGR8 => Some 3
  | RS_FORMAT_RGBA8 | RS_FORMAT_BGRA8 => Some 4
  | RS_FORMAT_YUYV => None
  end.

(** A pixel transfer on images of the format [fmt] as the spec words it:
    the transfer at the pixel width of the format, and UnsupportedFormat
    for [RS_FORMAT_YUYV]. *)
Definition transfer_at {A : Type} (fmt : rs_format) (transfer : Z → A) : result A :=
  match pixel_width fmt with
  | Some N => Ok (transfer N)
  | None => Fails UnsupportedFormat
  end.

(** The mode with the format of its streams replaced by [fmt]. *)
Definition with_format (fmt : rs_format) (mode : subdevice_mode) : subdevice_mode :=
  {| mode_width := mode_width mode; mode_height := mode_height mode;
     mode_fourcc := mode_fourcc mode;
     streams := (λ s, {| stream_width := stream_width s; stream_height := stream_height s;
                         stream_format := fmt |}) <$> streams mode |}.

(** A three-byte pixel with its first and last channels exchanged, and with
    an alpha channel of 255 appended. *)
Definition swap_rb (p : byte3) : byte3 := {| b3_a := b3_c p; b3_b := b3_b p; b3_c := b3_a p |}.
Definition with_alpha (p : byte3) : byte4 :=
  {| b4_a := b3_a p; b4_b := b3_b p; b4_c := b3_c p; b4_d := 255 |}.

(** The pixel format that holds the same bytes as a FourCC, for the four
    layouts that [unpack_subrect] copies unchanged. *)
Definition same_layout : list (rs_format * Z * Z) := [
  (RS_FORMAT_Z16, multichar "Z" "1" "6" " ", 2);
  (RS_FORMAT_Y8, multichar "Y" "8" " " " ", 1);
  (RS_FORMAT_Y16, multichar "Y" "1" "6" " ", 2);
  (RS_FORMAT_YUYV, multichar "Y" "U" "Y" "2", 2)
].

Section AlignmentSpec.
Context `{FA : float_arith} `{RU : !rsutil}.
Context (depth_intrin : rs_intrinsics) (depth_to_other : rs_extrinsics)
        (other_intrin : rs_intrinsics) (get_depth : Z → float).

(** The invocations of [transfer_pixel] that [align_images] makes, in
    order, each with its two arguments: the kernel run on a callback that
    appends its arguments to a log. *)
Definition transfers : list (Z * Z) :=
  align_images depth_intrin depth_to_other other_intrin get_depth
    (λ depth_pixel_index other_pixel_index log, log ++ [(depth_pixel_index, other_pixel_index)])
    [].

(** The invocations of a log that are made for the depth pixel of index [i]. *)
Definition transfers_of (i : Z) (log : list (Z * Z)) : list (Z * Z) :=
  filter (λ c, c.1 = i) log.

(** Steps 2 to 5 of the spec's alignment, for the depth pixel [(x, y)] of
    depth [z]: deproject to the depth camera frame, transform to the other
    camera frame, project to the other pixel grid, round. *)
Definition rounded_projection (x y : Z) (z : float) : Z * Z :=
  let P_d := rs_deproject_pixel_to_point depth_intrin (float_of_int x, float_of_int y) z in
  let P_o := rs_transform_point_to_point depth_to_other P_d in
  let uv := rs_project_point_to_pixel other_intrin P_o in
  (float_round_to_int (fst uv), float_round_to_int (snd uv)).

(** Where the depth pixel [(depth_x, depth_y)] lands: the index in the
    other image of its rounded projection, when its depth is not zero
    and the rounded projection is inside the other image. *)
Definition lands (depth_x depth_y : Z) : option Z :=
  let depth := get_depth (depth_y * width depth_intrin + depth_x) in
  if float_to_bool depth then
    let '(ox, oy) :=
      other_pixel_of depth_intrin depth_to_other other_intrin depth_x depth_y depth in
    if bool_decide (0 ≤ ox < width other_intrin ∧ 0 ≤ oy < height other_intrin)
    then Some (oy * width other_intrin + ox)
    else None
  else None.

(** The invocations made for one pixel. *)
Definition pixel_transfers (x y : Z) : list (Z * Z) :=
  match lands x y with
  | Some o => [(y * width depth_intrin + x, o)]
  | None => []
  end.

(** All the invocations, pixel after pixel in raster order. *)
Definition raster_transfers : list (Z * Z) :=
  y ← seqZ 0 (height depth_intrin); x ← seqZ 0 (width depth_intrin); pixel_transfers x y.

(** Raster order on the pixels: top to bottom, left to right. *)
Definition raster_lt (x y x' y' : Z) : Prop := y < y' ∨ (y = y' ∧ x < x').
End AlignmentSpec.

(** The [get_depth] of the two alignment functions: the raw depth
    converted to [float] and multiplied by the scale. *)
Definition scaled_depth `{FA : float_arith} (depth_pixels : Z → Z) (depth_scale : float)
    : Z → float :=
  λ depth_pixel_index, float_mul (float_of_int (depth_pixels depth_pixel_index)) depth_scale.

End ImageSpec.

Module ThermalSpec.
Import ThermalLoop.

(** The classes of bit patterns that the comparison treats specially. *)
Definition is_nan (b : Z) : bool := (exponent_bits b =? 255) && negb (fraction_bits b =? 0).
Definition is_zero (b : Z) : bool := (exponent_bits b =? 0) && (fraction_bits b =? 0).

(** The operator [==] on two [float]s. *)
Definition float_equal (a b : Z) : Prop := float_ne a b = false.

Definition header_equal (h h' : header) : Prop :=
  float_equal (min_temp h) (min_temp h') ∧ float_equal (max_temp h) (max_temp h')
  ∧ float_equal (reference_temp h) (reference_temp h') ∧ float_equal (valid h) (valid h').

Definition temp_data_equal (e e' : temp_data) : Prop :=
  float_equal (scale e) (scale e') ∧ float_equal (sheer e) (sheer e')
  ∧ float_equal (tx e) (tx e') ∧ float_equal (ty e) (ty e').

(** All the [float]s of a table. *)
Definition header_fields (h : header) : list Z :=
  [min_temp h; max_temp h; reference_temp h; valid h].
Definition entry_fields (e : temp_data) : list Z := [scale e; sheer e; tx e; ty e].
Definition fields (t : thermal_calibration_table) : list Z :=
  header_fields (header_ t) ++ (vals t ≫= entry_fields).

(** A [float] that is neither a NaN nor a zero. *)
Definition ordinary (b : Z) : Prop := is_float b ∧ is_nan b = false ∧ is_zero b = false.

Global Instance ordinary_dec b : Decision (ordinary b).
Proof. unfold ordinary, is_float. apply _. Defined.

(** A table of [resolution] entries with the same [float] in every field
    but [min_temp]. *)
Definition flat_table (min_temp_ other : Z) : thermal_calibration_table :=
  {| header_ := {| min_temp := min_temp_; max_temp := other; reference_temp := other;
                   valid := other |};
     vals := replicate (Z.to_nat resolution)
               {| scale := other; sheer := other; tx := other; ty := other |} |}.

Definition plus_zero : Z := 0x00000000.
Definition minus_zero : Z := 0x80000000.
Definition quiet_nan : Z := 0x7FC00000.
Definition one : Z := 0x3F800000.

End ThermalSpec.

(** * Properties *)

Module ImageFacts.
Import Image ImageSpec.

(** ** The size oracle *)

Lemma formats_table :
  (λ f, (fourcc f, macropixel_width f, macropixel_size f)) <$> formats = spec_fourcc_table.
Proof. reflexivity. Qed.

Lemma formats_NoDup : NoDup (fourcc <$> formats).
Proof. apply (bool_decide_unpack _). vm_compute. exact I. Qed.

Lemma formats_width_pos f : f ∈ formats → 0 < macropixel_width f ≤ 2 ∧ 0 < macropixel_size f ≤ 4.
Proof.
  unfold formats. rewrite !elem_of_cons, elem_of_nil.
  intros Hf. repeat (destruct Hf as [-> | Hf]; [vm_compute; intuition congruence|]).
  destruct Hf.
Qed.

Lemma get_image_size_loop_unknown fs w h tag :
  tag ∉ fourcc <$> fs → get_image_size_loop fs w h tag = Aborts assert_unsupported_format.
Proof.
  induction fs as [|f fs IH]; [reflexivity|].
  intros Hnin. rewrite fmap_cons in Hnin. apply not_elem_of_cons in Hnin as [Hne Hnin]. cbn.
  destruct (Z.eqb_spec (fourcc f) tag) as [Heq | _]; [congruence|].
  cbn. exact (IH Hnin).
Qed.

Lemma get_image_size_loop_known fs w h f :
  NoDup (fourcc <$> fs) → f ∈ fs →
  get_image_size_loop fs w h (fourcc f) =
    if Z.rem w (macropixel_width f) =? 0
    then Returns (size_t (size_t (Z.quot w (macropixel_width f) * h) * macropixel_size f))
    else Aborts assert_width_multiple.
Proof.
  induction fs as [|g fs IH]; [intros _ Hf; inversion Hf|].
  intros Hnd Hf. rewrite fmap_cons in Hnd.
  apply list.NoDup_cons in Hnd as [Hg Hnd]. apply elem_of_cons in Hf. cbn.
  destruct (Z.eqb_spec (fourcc g) (fourcc f)) as [Heq | Hne]; cbn.
  - destruct Hf as [-> | Hf]; [reflexivity|].
    exfalso. apply Hg. rewrite Heq. apply list_elem_of_fmap. eauto.
  - destruct Hf as [-> | Hf]; [congruence|]. exact (IH Hnd Hf).
Qed.

Lemma get_image_size_loop_NDEBUG_unknown fs w h tag :
  tag ∉ fourcc <$> fs → get_image_size_loop_NDEBUG fs w h tag = 0.
Proof.
  induction fs as [|f fs IH]; [reflexivity|].
  intros Hnin. rewrite fmap_cons in Hnin. apply not_elem_of_cons in Hnin as [Hne Hnin]. cbn.
  destruct (Z.eqb_spec (fourcc f) tag) as [Heq | _]; [congruence|].
  cbn. exact (IH Hnin).
Qed.

Lemma get_image_size_loop_NDEBUG_known fs w h f :
  NoDup (fourcc <$> fs) → f ∈ fs →
  get_image_size_loop_NDEBUG fs w h (fourcc f)
  = size_t (size_t (Z.quot w (macropixel_width f) * h) * macropixel_size f).
Proof.
  induction fs as [|g fs IH]; [intros _ Hf; inversion Hf|].
  intros Hnd Hf. rewrite fmap_cons in Hnd.
  apply list.NoDup_cons in Hnd as [Hg Hnd]. apply elem_of_cons in Hf. cbn.
  destruct (Z.eqb_spec (fourcc g) (fourcc f)) as [Heq | Hne]; cbn.
  - destruct Hf as [-> | Hf]; [reflexivity|].
    exfalso. apply Hg. rewrite Heq. apply list_elem_of_fmap. eauto.
  - destruct Hf as [-> | Hf]; [congruence|]. exact (IH Hnd Hf).
Qed.

(** The size in [size_t] arithmetic is the product in [Z] when the width
    and the height are non-negative and the [int] product is in range. *)
Lemma size_in_range q h size_ :
  0 ≤ q → 0 ≤ h → q * h ≤ INT_MAX → 0 ≤ size_ ≤ 4 →
  size_t (size_t (q * h) * size_) = q * h * size_.
Proof.
  unfold INT_MAX, size_t, to_unsigned. intros Hq Hh Hqh Hs.
  assert (0 ≤ q * h) by (apply Z.mul_nonneg_nonneg; lia).
  rewrite (Z.mod_small (q * h)) by lia. apply Z.mod_small. nia.
Qed.

Lemma size_of_known w h f :
  f ∈ formats →
  size_of w h (fourcc f)
  = if bool_decide (w `mod` macropixel_width f = 0)
    then Ok (w `div` macropixel_width f * h * macropixel_size f)
    else Fails BadGeometry.
Proof.
  unfold formats. rewrite !elem_of_cons, elem_of_nil.
  intros Hf. repeat (destruct Hf as [-> | Hf]; [reflexivity|]). destruct Hf.
Qed.

Lemma size_of_unknown w h tag :
  tag ∉ fourcc <$> formats → size_of w h tag = Fails UnsupportedFormat.
Proof.
  intros Hnin. unfold size_of.
  assert (list_find (λ d : Z * Z * Z, d.1.1 = tag) spec_fourcc_table = None) as ->;
    [|reflexivity].
  apply list_find_None. rewrite <- formats_table. apply list.Forall_forall.
  intros d Hd Htag. apply list_elem_of_fmap in Hd as (f & -> & Hf). cbn in Htag.
  apply Hnin. rewrite <- Htag. apply list_elem_of_fmap. eauto.
Qed.

(** C5, as the code has it. [get_image_size(width, height, fourcc)], for
    a tag of the table (the eleven codes, with the macropixel widths and
    sizes of the spec's table), a non-negative width that is a multiple
    of the macropixel width and a non-negative height, the [int] product
    [(w / macropixel_width) * h] being at most [INT_MAX]: the call returns
    [(w / macropixel_width) * h * macropixel_bytes], which is the spec's
    [size_of], in both builds. When the width is not a multiple of the
    macropixel width the call reaches
    [assert(width % f.macropixel_width == 0)]: the build with assertions
    aborts, and the build with [NDEBUG] returns the size with the quotient
    rounded down. For a tag that is not in the table it reaches
    [assert(false && "unsupported format")]: the build with assertions
    aborts, and the build with [NDEBUG] returns 0. In these two cases the
    spec's [size_of] fails with BadGeometry and UnsupportedFormat, and no
    build gives an error back. *)
Theorem get_image_size_fourcc_spec (w h tag : Z) :
  0 ≤ w ≤ INT_MAX → 0 ≤ h ≤ INT_MAX →
  (λ f, (fourcc f, macropixel_width f, macropixel_size f)) <$> formats = spec_fourcc_table
  ∧ (∀ f, f ∈ formats → fourcc f = tag →
       w `div` macropixel_width f * h ≤ INT_MAX →
       ((macropixel_width f | w) →
          get_image_size_fourcc w h tag
          = Returns (w `div` macropixel_width f * h * macropixel_size f)
          ∧ get_image_size_fourcc_NDEBUG w h tag
            = w `div` macropixel_width f * h * macropixel_size f
          ∧ size_of w h tag = Ok (w `div` macropixel_width f * h * macropixel_size f))
       ∧ (¬ (macropixel_width f | w) →
          get_image_size_fourcc w h tag = Aborts assert_width_multiple
          ∧ get_image_size_fourcc_NDEBUG w h tag
            = w `div` macropixel_width f * h * macropixel_size f
          ∧ size_of w h tag = Fails BadGeometry))
  ∧ (tag ∉ fourcc <$> formats →
       get_image_size_fourcc w h tag = Aborts assert_unsupported_format
       ∧ get_image_size_fourcc_NDEBUG w h tag = 0
       ∧ size_of w h tag = Fails UnsupportedFormat).
Proof.
  intros Hw Hh. split; [exact formats_table|]. split.
  - intros f Hf <- Hfit. unfold get_image_size_fourcc, get_image_size_fourcc_NDEBUG.
    rewrite (get_image_size_loop_known _ _ _ _ formats_NoDup Hf).
    rewrite (get_image_size_loop_NDEBUG_known _ _ _ _ formats_NoDup Hf).
    rewrite (size_of_known w h f Hf).
    destruct (formats_width_pos f Hf) as [Hmw Hms].
    pose proof (Z.rem_divide w (macropixel_width f) ltac:(lia)) as Hrem.
    pose proof (Z.mod_divide w (macropixel_width f) ltac:(lia)) as Hmod.
    rewrite Z.quot_div_nonneg by lia.
    assert (0 ≤ w `div` macropixel_width f) as Hq by (apply Z.div_pos; lia).
    rewrite size_in_range by lia.
    split.
    + intros Hmul. rewrite (proj2 Hrem Hmul). cbn [Z.eqb].
      rewrite bool_decide_eq_true_2 by (apply Hmod, Hmul). auto.
    + intros Hmul. destruct (Z.eqb_spec (Z.rem w (macropixel_width f)) 0) as [Hz | _].
      * exfalso. apply Hmul, Hrem, Hz.
      * rewrite bool_decide_eq_false_2 by (intros Hz; apply Hmul, Hmod, Hz). auto.
  - intros Hnin. split; [apply get_image_size_loop_unknown, Hnin|].
    split; [apply get_image_size_loop_NDEBUG_unknown, Hnin | apply size_of_unknown, Hnin].
Qed.

Lemma get_image_size_fourcc_spec_witness :
  get_image_size_fourcc 640 480 (multichar "Y" "U" "Y" "2") = Returns 614400
  ∧ get_image_size_fourcc 641 480 (multichar "Y" "U" "Y" "2") = Aborts assert_width_multiple
  ∧ get_image_size_fourcc_NDEBUG 641 480 (multichar "Y" "U" "Y" "2") = 614400
  ∧ get_image_size_fourcc 640 480 (multichar "R" "G" "B" "3") = Aborts assert_unsupported_format
  ∧ get_image_size_fourcc_NDEBUG 640 480 (multichar "R" "G" "B" "3") = 0.
Proof.
  pose (f := {| fourcc := multichar "Y" "U" "Y" "2"; macropixel_width := 2;
                macropixel_size := sizeof_yuy2_macropixel |}).
  assert (f ∈ formats) as Hf by (apply list_elem_of_here).
  destruct (get_image_size_fourcc_spec 640 480 (fourcc f)) as (_ & Heven & _);
    [unfold INT_MAX; lia | unfold INT_MAX; lia |].
  destruct (get_image_size_fourcc_spec 641 480 (fourcc f)) as (_ & Hodd & _);
    [unfold INT_MAX; lia | unfold INT_MAX; lia |].
  destruct (get_image_size_fourcc_spec 640 480 (multichar "R" "G" "B" "3")) as (_ & _ & Hno);
    [unfold INT_MAX; lia | unfold INT_MAX; lia |].
  destruct (Heven f Hf eq_refl) as [Heven' _]; [vm_compute; discriminate|].
  destruct Heven' as (H1 & _); [exists 320; reflexivity|].
  destruct (Hodd f Hf eq_refl) as [_ Hodd']; [vm_compute; discriminate|].
  destruct Hodd' as (H2 & H3 & _); [intros [k Hk]; cbn in Hk; lia|].
  destruct Hno as (H4 & H5 & _).
  { intros Hin. apply list_elem_of_In in Hin. vm_compute in Hin.
    repeat destruct Hin as [Hin | Hin]; try discriminate Hin. exact Hin. }
  repeat split; assumption.
Defined.

(** C5 as the claim states it fails where it says that the call fails with
    an error. For the tag ['RGB3'], which is not in the table, the spec's
    [size_of] fails with UnsupportedFormat; the source function aborts on
    its assertion and gives nothing back, and compiled with [NDEBUG] it
    returns the size 0. For the width 641 and the tag ['YUY2'] the spec's
    [size_of] fails with BadGeometry; the source function aborts on its
    assertion, and compiled with [NDEBUG] it returns the size of 320
    macropixels a row. *)
Lemma get_image_size_fourcc_surfaces_no_error :
  size_of 640 480 (multichar "R" "G" "B" "3") = Fails UnsupportedFormat
  ∧ given_back (get_image_size_fourcc 640 480 (multichar "R" "G" "B" "3")) = None
  ∧ get_image_size_fourcc_NDEBUG 640 480 (multichar "R" "G" "B" "3") = 0
  ∧ Ok (get_image_size_fourcc_NDEBUG 640 480 (multichar "R" "G" "B" "3"))
    ≠ size_of 640 480 (multichar "R" "G" "B" "3")
  ∧ size_of 641 480 (multichar "Y" "U" "Y" "2") = Fails BadGeometry
  ∧ given_back (get_image_size_fourcc 641 480 (multichar "Y" "U" "Y" "2")) = None
  ∧ get_image_size_fourcc_NDEBUG 641 480 (multichar "Y" "U" "Y" "2") = 320 * 480 * 4
  ∧ Ok (get_image_size_fourcc_NDEBUG 641 480 (multichar "Y" "U" "Y" "2"))
    ≠ size_of 641 480 (multichar "Y" "U" "Y" "2").
Proof.
  repeat split; try reflexivity; vm_compute; discriminate.
Qed.

(** ** The loops of the codecs *)

Lemma loop_values_length stop step :
  Z.of_nat (length (loop_values stop step)) = Z.max 0 ((stop + step - 1) `div` step).
Proof. unfold loop_values. rewrite length_fmap, length_seqZ. lia. Qed.

Lemma loop_values_1 stop : loop_values stop 1 = seqZ 0 stop.
Proof.
  unfold loop_values. replace ((stop + 1 - 1) `div` 1) with stop by (rewrite Z.div_1_r; lia).
  rewrite <- (list_fmap_id (seqZ 0 stop)) at 2. apply list_fmap_ext. intros _ k _. cbn. lia.
Qed.

Lemma bind_all_nil {A B : Type} (f : A → list B) (l : list A) :
  (∀ x, f x = []) → l ≫= f = [].
Proof. intros Hf. induction l as [|x l IH]; [reflexivity|]. rewrite bind_cons, Hf, IH. reflexivity. Qed.

Lemma seqZ_max m n : seqZ m (Z.max 0 n) = seqZ m n.
Proof.
  destruct (Z.le_gt_cases n 0); [|f_equal; lia].
  rewrite !seqZ_nil by lia. reflexivity.
Qed.

Lemma elements_read_max rows n margin :
  elements_read rows (Z.max 0 n) margin = elements_read rows n margin.
Proof.
  unfold elements_read.
  destruct (Z.le_gt_cases n 0) as [Hn | Hn].
  - rewrite !bind_all_nil; [reflexivity | |]; intros row; apply seqZ_nil; lia.
  - replace (Z.max 0 n) with n by lia. reflexivity.
Qed.

Section Walk.
Context {O : Type} (emit : Z → O → O).

Lemma emit_all_app o ks ks' : emit_all emit o (ks ++ ks') = emit_all emit (emit_all emit o ks) ks'.
Proof. apply foldl_app. Qed.

Lemma for_loop_walk stop step src o :
  for_loop stop step (λ _ '(src, o), (src + 1, emit src o)) (src, o)
  = (src + Z.of_nat (length (loop_values stop step)),
     emit_all emit o (seqZ src (Z.of_nat (length (loop_values stop step))))).
Proof.
  unfold for_loop. generalize (loop_values stop step) as xs.
  induction xs as [|x xs IH] using rev_ind.
  - cbn. rewrite seqZ_nil by lia. cbn. f_equal. lia.
  - rewrite foldl_snoc, IH, length_app. cbn [length].
    replace (length xs + 1)%nat with (S (length xs)) by lia.
    rewrite seqZ_S, emit_all_app. cbn. f_equal. lia.
Qed.

Lemma for_loop_walk_rows rows cols step margin o :
  for_loop rows 1 (λ _ '(src, o),
    let '(src, o) := for_loop cols step (λ _ '(src, o), (src + 1, emit src o)) (src, o) in
    (src + margin, o)) (0, o)
  = (Z.max 0 rows * (Z.max 0 ((cols + step - 1) `div` step) + margin),
     emit_all emit o (elements_read rows (Z.max 0 ((cols + step - 1) `div` step)) margin)).
Proof.
  rewrite <- (loop_values_length cols step).
  set (n := Z.of_nat (length (loop_values cols step))).
  assert (Z.of_nat (length (loop_values rows 1)) = Z.max 0 rows) as Hrows.
  { rewrite loop_values_length, Z.div_1_r. f_equal. lia. }
  unfold for_loop at 1. unfold elements_read. rewrite <- (seqZ_max 0 rows), <- Hrows.
  clear Hrows. generalize (loop_values rows 1) as ys.
  induction ys as [|y ys IH] using rev_ind.
  - cbn. rewrite seqZ_nil by lia. reflexivity.
  - rewrite foldl_snoc, IH, for_loop_walk. fold n. rewrite length_app. cbn [length].
    replace (length ys + 1)%nat with (S (length ys)) by lia.
    rewrite seqZ_S, bind_app, emit_all_app. cbn. rewrite app_nil_r.
    rewrite Z.add_0_l. f_equal. lia.
Qed.
End Walk.

Lemma emit_all_list {OUT : Type} (g : Z → list OUT) (out : list OUT) (ks : list Z) :
  emit_all (λ k out, out ++ g k) out ks = out ++ (ks ≫= g).
Proof.
  revert out. induction ks as [|k ks IH]; intros out; cbn.
  - rewrite app_nil_r. reflexivity.
  - unfold emit_all in IH. rewrite IH, <- app_assoc. reflexivity.
Qed.

Lemma emit_all_pair {A B : Type} (ga : Z → list A) (gb : Z → list B) (ab : list A * list B)
    (ks : list Z) :
  emit_all (λ k ab, (ab.1 ++ ga k, ab.2 ++ gb k)) ab ks = (ab.1 ++ (ks ≫= ga), ab.2 ++ (ks ≫= gb)).
Proof.
  revert ab. induction ks as [|k ks IH]; intros [a b]; cbn.
  - rewrite !app_nil_r. reflexivity.
  - unfold emit_all in IH. rewrite IH. cbn. rewrite <- !app_assoc. reflexivity.
Qed.

Lemma bind_singleton_fmap {A B : Type} (f : A → B) (l : list A) : l ≫= (λ x, [f x]) = f <$> l.
Proof. induction l as [|x l IH]; [reflexivity|]. rewrite bind_cons, IH. reflexivity. Qed.

(** [unpack_pixels] on a mode that passes its assertion: the elements of
    the sub-rectangle, each through [unpack]. *)
Lemma unpack_pixels_returns {SOURCE OUT : Type} (mode : subdevice_mode) (s0 : stream_request)
    (source : Z → SOURCE) (fmt : rs_format) (unpack : SOURCE → OUT) :
  streams mode = [s0] →
  stream_width s0 ≤ mode_width mode → stream_height s0 ≤ mode_height mode →
  stream_format s0 = fmt →
  unpack_pixels mode source fmt unpack
  = Returns ((λ k, unpack (source k))
             <$> elements_read (stream_height s0) (stream_width s0)
                   (mode_width mode - stream_width s0)).
Proof.
  intros Hs Hw Hh Hf. unfold unpack_pixels. rewrite Hs.
  rewrite bool_decide_eq_true_2 by auto.
  rewrite (for_loop_walk_rows (λ src out, out ++ [unpack (source src)])).
  cbn [snd]. rewrite emit_all_list. cbn [app].
  replace ((stream_width s0 + 1 - 1) `div` 1) with (stream_width s0)
    by (rewrite Z.div_1_r; lia).
  rewrite elements_read_max, bind_singleton_fmap. reflexivity.
Qed.

(** ** YUY2 *)

Lemma clamp_byte_clamp x : clamp_byte x = clamp x 0 255.
Proof.
  unfold clamp_byte, clamp, uint8_t, to_unsigned.
  destruct (Z.ltb_spec x 0); [rewrite Z.mod_small; lia|].
  destruct (x >? 255) eqn:Hgt; rewrite Z.mod_small; lia.
Qed.




(** ** Bit-depth expansion *)

Lemma checked_on_range (P : Z → Prop) `{∀ z, Decision (P z)} (n : Z) :
  bool_decide (Forall P (seqZ 0 n)) = true → ∀ z, 0 ≤ z < n → P z.
Proof.
  intros Hb z Hz. apply bool_decide_eq_true_1 in Hb.
  rewrite Forall_seqZ in Hb. apply Hb. lia.
Qed.

Lemma y16_from_y8_257 p : 0 ≤ p ≤ 255 → y16_from_y8 p = 257 * p.
Proof.
  intros Hp. apply (checked_on_range (λ p, y16_from_y8 p = 257 * p) 256); [|lia].
  vm_compute. reflexivity.
Qed.

Lemma y16_from_y16_10_64 p : 0 ≤ p ≤ 1023 → y16_from_y16_10 p = 64 * p.
Proof.
  intros Hp. unfold y16_from_y16_10, uint16_t, to_unsigned.
  rewrite Z.shiftl_mul_pow2 by lia. rewrite Z.mod_small; lia.
Qed.

(** C6, as the code has it. Both codecs apply their expansion to every
    pixel of the sub-rectangle. The expansion of Y8 to Y16 is strictly
    increasing on the bytes and maps 0 to 0 and 255 to 65535. The
    expansion of a 10-bit sample is [p << 6], with the six low bits zero:
    it is strictly increasing on the 10-bit samples and maps 0 to 0, and
    1023 to 65472 (not to 65535). The expansion that maps 1023 to 65535 is
    the one of the Y12I split, [(v << 6) | (v >> 4)]. *)
Theorem bit_depth_expansion_spec :
  (∀ source mode s0,
     streams mode = [s0] → stream_width s0 ≤ mode_width mode →
     stream_height s0 ≤ mode_height mode → stream_format s0 = RS_FORMAT_Y16 →
     unpack_y16_from_y8 source mode
     = Returns ((λ k, y16_from_y8 (as_uint8_t source k))
                <$> elements_read (stream_height s0) (stream_width s0)
                      (mode_width mode - stream_width s0))
     ∧ unpack_y16_from_y16_10 source mode
       = Returns ((λ k, y16_from_y16_10 (as_uint16_t source k))
                  <$> elements_read (stream_height s0) (stream_width s0)
                        (mode_width mode - stream_width s0)))
  ∧ (∀ p q, 0 ≤ p → p < q → q ≤ 255 → y16_from_y8 p < y16_from_y8 q)
  ∧ y16_from_y8 0 = 0 ∧ y16_from_y8 255 = 65535
  ∧ (∀ p q, 0 ≤ p → p < q → q ≤ 1023 → y16_from_y16_10 p < y16_from_y16_10 q)
  ∧ (∀ p, 0 ≤ p ≤ 1023 → y16_from_y16_10 p = Z.shiftl p 6 ∧ Z.land (y16_from_y16_10 p) 63 = 0)
  ∧ y16_from_y16_10 0 = 0 ∧ y16_from_y16_10 1023 = 65472
  ∧ uint16_t (expand_10_to_16 0) = 0 ∧ uint16_t (expand_10_to_16 1023) = 65535.
Proof.
  split; [|split; [|split; [|split; [|split; [|split; [|split; [|split; [|split]]]]]]]];
    try reflexivity.
  - intros source mode s0 Hs Hw Hh Hf. split; apply unpack_pixels_returns; assumption.
  - intros p q Hp Hpq Hq. rewrite !y16_from_y8_257 by lia. lia.
  - intros p q Hp Hpq Hq. rewrite !y16_from_y16_10_64 by lia. lia.
  - intros p Hp. rewrite y16_from_y16_10_64 by lia. split.
    + rewrite Z.shiftl_mul_pow2 by lia. lia.
    + change 63 with (Z.ones 6). rewrite Z.land_ones by lia.
      replace (64 * p) with (p * 2 ^ 6) by lia. apply Z.mod_mul. lia.
Qed.

Lemma bit_depth_expansion_spec_witness :
  unpack_y16_from_y8 (frame [Byte.xff]) (single (multichar "Y" "8" " " " ") 1 1 RS_FORMAT_Y16)
  = Returns [65535]
  ∧ unpack_y16_from_y16_10 (frame [Byte.xff; Byte.x03])
      (single (multichar "Y" "1" "6" " ") 1 1 RS_FORMAT_Y16)
    = Returns [65472]
  ∧ y16_from_y8 1 < y16_from_y8 2
  ∧ y16_from_y16_10 1 < y16_from_y16_10 2
  ∧ y16_from_y16_10 1023 = Z.shiftl 1023 6.
Proof.
  destruct bit_depth_expansion_spec as (Hcodec & Hy8 & _ & _ & Hy10 & Hshift & _).
  destruct (Hcodec (frame [Byte.xff]) (single (multichar "Y" "8" " " " ") 1 1 RS_FORMAT_Y16)
              {| stream_width := 1; stream_height := 1; stream_format := RS_FORMAT_Y16 |})
    as [Ha _]; [reflexivity | simpl; lia | simpl; lia | reflexivity |].
  destruct (Hcodec (frame [Byte.xff; Byte.x03])
              (single (multichar "Y" "1" "6" " ") 1 1 RS_FORMAT_Y16)
              {| stream_width := 1; stream_height := 1; stream_format := RS_FORMAT_Y16 |})
    as [_ Hb]; [reflexivity | simpl; lia | simpl; lia | reflexivity |].
  split; [exact Ha|]. split; [exact Hb|].
  split; [apply Hy8; lia|]. split; [apply Hy10; lia|].
  apply (Hshift 1023). lia.
Defined.

(** C6 as the claim states it fails for the 10-bit codec: the largest
    10-bit sample, the bytes [FF 03], decodes to 65472, and not to
    65535. *)
Lemma y16_from_y16_10_not_full_scale :
  unpack_y16_from_y16_10 (frame [Byte.xff; Byte.x03])
    (single (multichar "Y" "1" "6" " ") 1 1 RS_FORMAT_Y16)
  = Returns [65472]
  ∧ y16_from_y16_10 1023 ≠ 65535.
Proof. split; [reflexivity|]. vm_compute. discriminate. Qed.

(** ** Y12I *)

Lemma u8_range b : 0 ≤ u8 b < 256.
Proof. unfold u8. pose proof (Byte.to_N_bounded b). lia. Qed.

Lemma expand_10_to_16_fits v : 0 ≤ v < 2 ^ 10 → uint16_t (expand_10_to_16 v) = expand_10_to_16 v.
Proof.
  intros Hv.
  apply (checked_on_range (λ v, uint16_t (expand_10_to_16 v) = expand_10_to_16 v) (2 ^ 10));
    [|lia].
  vm_compute. reflexivity.
Qed.

(** C4, as the code has it. On a mode that passes the assertion of
    [split_frame], every 3-byte pixel read gives one sample to each plane:
    with [left = (lh << 4) | ll] and [right = (rh << 8) | rl], plane 0
    receives the low 16 bits of [(left << 6) | (left >> 4)] and plane 1
    those of [(right << 6) | (right >> 4)] (nothing is cut off when the
    sample has 10 bits). The bit-fields [rl:8, rh:4, ll:4, lh:8] lie in
    declaration order from the least significant bit of the little-endian
    24-bit word. The bytes [FF F0 FF] hold [rl = 0xFF], [rh = 0x0],
    [ll = 0xF], [lh = 0xFF]: left is [0xFFF] and expands to [0xFFFF],
    right is [0x0FF] and expands to [0x3FCF]. With the field values the
    spec names ([rh = 0xF], [ll = 0x0]) left is [0xFF0] and expands to
    [0xFCFF], right is [0xFFF] and expands to [0xFFFF]. *)
Theorem unpack_y16_y16_from_y12i_10_spec :
  (∀ source mode s0 s1,
     streams mode = [s0; s1] → mode_fourcc mode = multichar "Y" "1" "2" "I" →
     stream_format s0 = RS_FORMAT_Y16 → stream_format s1 = RS_FORMAT_Y16 →
     stream_width s0 = stream_width s1 → stream_height s0 = stream_height s1 →
     stream_width s0 ≤ mode_width mode → stream_height s0 ≤ mode_height mode →
     unpack_y16_y16_from_y12i_10 source mode
     = Returns ((λ k, uint16_t (expand_10_to_16 (l (as_y12i_pixel source k))))
                <$> elements_read (stream_height s0) (stream_width s0)
                      (mode_width mode - stream_width s0),
                (λ k, uint16_t (expand_10_to_16 (r (as_y12i_pixel source k))))
                <$> elements_read (stream_height s0) (stream_width s0)
                      (mode_width mode - stream_width s0)))
  ∧ (∀ b0 b1 b2,
       let p := y12i_of_bytes b0 b1 b2 in
       u8 b0 + 2 ^ 8 * u8 b1 + 2 ^ 16 * u8 b2
       = rl p + 2 ^ 8 * rh p + 2 ^ 12 * ll p + 2 ^ 16 * lh p
       ∧ 0 ≤ rl p < 2 ^ 8 ∧ 0 ≤ rh p < 2 ^ 4 ∧ 0 ≤ ll p < 2 ^ 4 ∧ 0 ≤ lh p < 2 ^ 8
       ∧ l p = Z.lor (Z.shiftl (lh p) 4) (ll p) ∧ r p = Z.lor (Z.shiftl (rh p) 8) (rl p))
  ∧ (∀ v, 0 ≤ v < 2 ^ 10 → uint16_t (expand_10_to_16 v) = expand_10_to_16 v)
  ∧ (let p := y12i_of_bytes Byte.xff Byte.xf0 Byte.xff in
     p = {| rl := 0xFF; rh := 0x0; ll := 0xF; lh := 0xFF |}
     ∧ l p = 0xFFF ∧ r p = 0x0FF ∧ y12i_split_a p = 0xFFFF ∧ y12i_split_b p = 0x3FCF)
  ∧ (let p := {| rl := 0xFF; rh := 0xF; ll := 0x0; lh := 0xFF |} in
     l p = 0xFF0 ∧ r p = 0xFFF ∧ y12i_split_a p = 0xFCFF ∧ y12i_split_b p = 0xFFFF).
Proof.
  split; [|split; [|split; [|split]]].
  - intros source mode s0 s1 Hs Hfcc Hfa Hfb Hw Hh Hwm Hhm.
    unfold unpack_y16_y16_from_y12i_10, split_frame. rewrite Hs.
    rewrite bool_decide_eq_true_2 by auto 10.
    rewrite (for_loop_walk_rows
               (λ src ab, (ab.1 ++ [y12i_split_a (as_y12i_pixel source src)],
                           ab.2 ++ [y12i_split_b (as_y12i_pixel source src)]))).
    cbn [snd]. rewrite emit_all_pair. cbn [app fst snd].
    replace ((stream_width s0 + 1 - 1) `div` 1) with (stream_width s0)
      by (rewrite Z.div_1_r; lia).
    rewrite elements_read_max, !bind_singleton_fmap. reflexivity.
  - intros b0 b1 b2 p. subst p. unfold l, r. cbn [rl rh ll lh y12i_of_bytes].
    pose proof (u8_range b0). pose proof (u8_range b1). pose proof (u8_range b2).
    change 15 with (Z.ones 4). rewrite Z.land_ones, Z.shiftr_div_pow2 by lia.
    pose proof (Z.div_mod (u8 b1) (2 ^ 4) ltac:(lia)).
    pose proof (Z.mod_pos_bound (u8 b1) (2 ^ 4) ltac:(lia)).
    assert (0 ≤ u8 b1 `div` 2 ^ 4 < 2 ^ 4)
      by (split; [apply Z.div_pos; lia | apply Z.div_lt_upper_bound; lia]).
    repeat split; lia.
  - exact expand_10_to_16_fits.
  - vm_compute. repeat split; reflexivity.
  - vm_compute. repeat split; reflexivity.
Qed.

Lemma unpack_y16_y16_from_y12i_10_spec_witness :
  unpack_y16_y16_from_y12i_10 (frame [Byte.xff; Byte.xf3; Byte.x3f])
    (dual (multichar "Y" "1" "2" "I") 1 1 RS_FORMAT_Y16 RS_FORMAT_Y16)
  = Returns ([0xFFFF], [0xFFFF])
  ∧ uint16_t (expand_10_to_16 1023) = expand_10_to_16 1023.
Proof.
  destruct unpack_y16_y16_from_y12i_10_spec as (Hcodec & _ & Hfit & _ & _).
  split.
  - apply (Hcodec (frame [Byte.xff; Byte.xf3; Byte.x3f])
             (dual (multichar "Y" "1" "2" "I") 1 1 RS_FORMAT_Y16 RS_FORMAT_Y16)
             {| stream_width := 1; stream_height := 1; stream_format := RS_FORMAT_Y16 |}
             {| stream_width := 1; stream_height := 1; stream_format := RS_FORMAT_Y16 |});
      [reflexivity | reflexivity | reflexivity | reflexivity | reflexivity | reflexivity
      | simpl; lia | simpl; lia].
  - apply Hfit. lia.
Defined.

(** C4 as the claim states it fails on its own example: from the bytes
    [FF F0 FF] the codec writes [0xFFFF] to plane 0 and [0x3FCF] to
    plane 1, so left and right do not both expand to [0xFFFF]; and left is
    [0xFFF], right [0x0FF], not [0xFF0] and [0xFFF]. *)
Lemma y12i_example_refuted :
  unpack_y16_y16_from_y12i_10 (frame [Byte.xff; Byte.xf0; Byte.xff])
    (dual (multichar "Y" "1" "2" "I") 1 1 RS_FORMAT_Y16 RS_FORMAT_Y16)
  = Returns ([0xFFFF], [0x3FCF])
  ∧ ¬ (let p := y12i_of_bytes Byte.xff Byte.xf0 Byte.xff in
       l p = 0xFF0 ∧ r p = 0xFFF ∧ y12i_split_a p = 0xFFFF ∧ y12i_split_b p = 0xFFFF).
Proof. split; [reflexivity|]. vm_compute. intros (H & _). discriminate H. Qed.

(** ** The alignment kernel *)

Lemma filter_none {B : Type} (P : B → Prop) `{∀ b, Decision (P b)} (bs : list B) :
  (∀ b, b ∈ bs → ¬ P b) → filter P bs = [].
Proof.
  induction bs as [|b bs IH]; intros Hbs; [reflexivity|].
  rewrite filter_cons. destruct (decide (P b)) as [Hb | _].
  - exfalso. apply (Hbs b); [left | exact Hb].
  - apply IH. intros b' Hb'. apply Hbs. right. exact Hb'.
Qed.

Lemma filter_all {B : Type} (P : B → Prop) `{∀ b, Decision (P b)} (bs : list B) :
  (∀ b, b ∈ bs → P b) → filter P bs = bs.
Proof.
  induction bs as [|b bs IH]; intros Hbs; [reflexivity|].
  rewrite filter_cons. destruct (decide (P b)) as [_ | Hb].
  - f_equal. apply IH. intros b' Hb'. apply Hbs. right. exact Hb'.
  - exfalso. apply Hb, Hbs. left.
Qed.

Lemma filter_bind_only {A B : Type} (P : B → Prop) `{∀ b, Decision (P b)} (f : A → list B)
    (xs : list A) (a : A) :
  NoDup xs → a ∈ xs →
  (∀ a' b, a' ∈ xs → a' ≠ a → b ∈ f a' → ¬ P b) →
  filter P (xs ≫= f) = filter P (f a).
Proof.
  induction xs as [|z xs IH]; intros Hnd Ha Hother; [inversion Ha|].
  apply list.NoDup_cons in Hnd as [Hz Hnd]. rewrite bind_cons, list.filter_app.
  apply elem_of_cons in Ha as [<- | Ha].
  - rewrite (filter_none P (xs ≫= f)), app_nil_r; [reflexivity|].
    intros b Hb. apply list_elem_of_bind in Hb as (a' & Hb & Ha').
    apply (Hother a' b); [right; exact Ha' | | exact Hb].
    intros ->. contradiction.
  - rewrite IH; [| exact Hnd | exact Ha |].
    + rewrite (filter_none P (f z)); [reflexivity|]. intros b Hb.
      apply (Hother z b); [left | | exact Hb]. intros ->. contradiction.
    + intros a' b Ha' Hne Hb. apply (Hother a' b); [right; exact Ha' | exact Hne | exact Hb].
Qed.

Lemma fmap_bind {A B C : Type} (f : B → C) (g : A → list B) (xs : list A) :
  f <$> (xs ≫= g) = xs ≫= (λ x, f <$> g x).
Proof.
  induction xs as [|x xs IH]; [reflexivity|].
  rewrite !bind_cons, fmap_app, IH. reflexivity.
Qed.

Lemma foldl_log {A B : Type} (log cs : list (A * B)) :
  foldl (λ log c, log ++ [(c.1, c.2)]) log cs = log ++ cs.
Proof.
  revert log. induction cs as [|[a b] cs IH]; intros log; cbn.
  - rewrite app_nil_r. reflexivity.
  - rewrite IH, <- app_assoc. reflexivity.
Qed.

Section Kernel.
Context `{FA : float_arith} `{RU : !rsutil}.
Context (depth_intrin : rs_intrinsics) (depth_to_other : rs_extrinsics)
        (other_intrin : rs_intrinsics) (get_depth : Z → float).

Local Abbreviation W := (width depth_intrin).
Local Abbreviation pixel_transfers :=
  (pixel_transfers depth_intrin depth_to_other other_intrin get_depth).
Local Abbreviation raster_transfers :=
  (raster_transfers depth_intrin depth_to_other other_intrin get_depth).

Lemma align_pixel_transfers {S : Type} (transfer_pixel : Z → Z → S → S) (x y : Z) (s : S) :
  align_pixel depth_intrin depth_to_other other_intrin get_depth transfer_pixel x y
    (y * W + x) s
  = foldl (λ s c, transfer_pixel c.1 c.2 s) s (pixel_transfers x y).
Proof.
  unfold align_pixel, pixel_transfers, lands.
  destruct (float_to_bool (get_depth (y * W + x))); [|reflexivity].
  destruct (other_pixel_of _ _ _ x y _) as [ox oy].
  case_bool_decide as Hin.
  - destruct (Z.ltb_spec ox 0); [lia|]. destruct (Z.ltb_spec oy 0); [lia|].
    destruct (Z.geb_spec ox (width other_intrin)); [lia|].
    destruct (Z.geb_spec oy (height other_intrin)); [lia|]. reflexivity.
  - destruct (Z.ltb_spec ox 0); [reflexivity|]. destruct (Z.ltb_spec oy 0); [reflexivity|].
    destruct (Z.geb_spec ox (width other_intrin)); [reflexivity|].
    destruct (Z.geb_spec oy (height other_intrin)); [reflexivity|]. lia.
Qed.

Lemma align_row {S : Type} (transfer_pixel : Z → Z → S → S) (y : Z) (s : S) :
  for_loop W 1 (λ depth_x '(depth_pixel_index, s),
      (depth_pixel_index + 1,
       align_pixel depth_intrin depth_to_other other_intrin get_depth transfer_pixel
         depth_x y depth_pixel_index s)) (y * W, s)
  = (y * W + Z.max 0 W,
     foldl (λ s c, transfer_pixel c.1 c.2 s) s (x ← seqZ 0 W; pixel_transfers x y)).
Proof.
  unfold for_loop. rewrite loop_values_1, <- (seqZ_max 0 W).
  rewrite <- (Z2Nat.id (Z.max 0 W)) by lia. generalize (Z.to_nat (Z.max 0 W)) as n.
  induction n as [|n IH].
  - rewrite seqZ_nil by lia. cbn. f_equal. lia.
  - rewrite seqZ_S, foldl_snoc, IH, bind_app, foldl_app. cbn.
    rewrite app_nil_r, Z.add_0_l, align_pixel_transfers. f_equal. lia.
Qed.

(** The kernel makes the invocations of [raster_transfers], in that
    order, whatever the callback is. *)
Lemma align_images_raster {S : Type} (transfer_pixel : Z → Z → S → S) (s : S) :
  align_images depth_intrin depth_to_other other_intrin get_depth transfer_pixel s
  = foldl (λ s c, transfer_pixel c.1 c.2 s) s raster_transfers.
Proof.
  unfold align_images, raster_transfers, for_loop at 1.
  rewrite loop_values_1, <- (seqZ_max 0 (height depth_intrin)).
  rewrite <- (Z2Nat.id (Z.max 0 (height depth_intrin))) by lia.
  generalize (Z.to_nat (Z.max 0 (height depth_intrin))) as n.
  assert (∀ n : nat,
    foldl (λ st depth_y,
             for_loop W 1 (λ depth_x '(depth_pixel_index, s),
               (depth_pixel_index + 1,
                align_pixel depth_intrin depth_to_other other_intrin get_depth
                  transfer_pixel depth_x depth_y depth_pixel_index s)) st)
          (0, s) (seqZ 0 (Z.of_nat n))
    = (Z.of_nat n * Z.max 0 W,
       foldl (λ s c, transfer_pixel c.1 c.2 s) s
         (y ← seqZ 0 (Z.of_nat n); x ← seqZ 0 W; pixel_transfers x y))) as Hrows.
  { induction n as [|n IH]; [reflexivity|].
    rewrite seqZ_S, foldl_snoc, IH, bind_app, foldl_app. cbn [mbind list_bind].
    rewrite app_nil_r, Z.add_0_l.
    destruct (Z.le_gt_cases W 0) as [HW | HW].
    - unfold for_loop. rewrite loop_values_1, !seqZ_nil by lia. cbn. f_equal. lia.
    - replace (Z.of_nat n * Z.max 0 W) with (Z.of_nat n * W) by lia.
      rewrite align_row. f_equal. lia. }
  intros n. rewrite Hrows. reflexivity.
Qed.

Lemma transfers_raster :
  transfers depth_intrin depth_to_other other_intrin get_depth = raster_transfers.
Proof.
  unfold transfers. rewrite align_images_raster. apply (foldl_log []).
Qed.

Lemma elem_of_pixel_transfers c x y :
  c ∈ pixel_transfers x y
  ↔ c.1 = y * W + x ∧ lands depth_intrin depth_to_other other_intrin get_depth x y = Some c.2.
Proof.
  unfold ImageSpec.pixel_transfers.
  destruct (lands _ _ _ _ x y) as [o|]; destruct c as [d o'].
  - rewrite list_elem_of_singleton. cbn. split; [intros [= -> ->] | intros [-> [= ->]]]; auto.
  - rewrite elem_of_nil. cbn. split; [tauto | intros [_ [=]]].
Qed.

Lemma pixel_index_inj x y x' y' :
  0 ≤ x < W → 0 ≤ x' < W → y * W + x = y' * W + x' → x = x' ∧ y = y'.
Proof.
  intros Hx Hx' Heq. assert (y = y') as -> by nia. lia.
Qed.

Lemma elem_of_raster_transfers c :
  c ∈ raster_transfers
  ↔ ∃ x y, 0 ≤ x < W ∧ 0 ≤ y < height depth_intrin ∧ c ∈ pixel_transfers x y.
Proof.
  unfold ImageSpec.raster_transfers.
  rewrite list_elem_of_bind. split.
  - intros (y & Hc & Hy). apply list_elem_of_bind in Hc as (x & Hc & Hx).
    apply elem_of_seqZ in Hy. apply elem_of_seqZ in Hx. exists x, y. repeat split; [lia..|exact Hc].
  - intros (x & y & Hx & Hy & Hc). exists y. split; [|apply elem_of_seqZ; lia].
    apply list_elem_of_bind. exists x. split; [exact Hc | apply elem_of_seqZ; lia].
Qed.

(** The invocations made for the pixel [(x, y)] are the ones of the log
    whose depth index is the index of the pixel. *)
Lemma transfers_of_pixel x y :
  0 ≤ x < W → 0 ≤ y < height depth_intrin →
  transfers_of (y * W + x) raster_transfers = pixel_transfers x y.
Proof.
  intros Hx Hy. unfold transfers_of.
  unfold ImageSpec.raster_transfers.
  rewrite (filter_bind_only _ _ _ y); [| apply NoDup_seqZ | apply elem_of_seqZ; lia |].
  - rewrite (filter_bind_only _ _ _ x); [| apply NoDup_seqZ | apply elem_of_seqZ; lia |].
    + apply filter_all. intros c Hc. apply elem_of_pixel_transfers in Hc. tauto.
    + intros x' c Hx' Hne Hc Hi. apply elem_of_seqZ in Hx'.
      apply elem_of_pixel_transfers in Hc as [Hc _]. rewrite Hc in Hi.
      apply pixel_index_inj in Hi; [|lia..]. tauto.
  - intros y' c Hy' Hne Hc Hi. apply list_elem_of_bind in Hc as (x' & Hc & Hx').
    apply elem_of_seqZ in Hx'. apply elem_of_pixel_transfers in Hc as [Hc _].
    rewrite Hc in Hi. apply pixel_index_inj in Hi; [|lia..]. tauto.
Qed.

(** The code computes the rounded projection by the steps of the spec. *)
Lemma other_pixel_of_rounded_projection x y depth :
  other_pixel_of depth_intrin depth_to_other other_intrin x y depth
  = rounded_projection depth_intrin depth_to_other other_intrin x y depth.
Proof. reflexivity. Qed.

(** C1. [align_images] makes the invocations of its log, in order, on
    any callback. For every depth pixel [(x, y)], of index
    [y * Wd + x], the two images having at most [INT_MAX] pixels each (so
    that the [int] counter and the [int] index of the kernel are the
    numbers in [Z]): when the depth fetched is zero, no invocation is made
    for the pixel; otherwise, with [(ox, oy)] the rounded projection of
    the deprojected, transformed and reprojected point, when [(ox, oy)] is
    inside [[0,Wo) x [0,Ho)] exactly one invocation is made for the pixel,
    with the pair [(y * Wd + x, oy * Wo + ox)], and when it is outside,
    none. *)
Theorem align_images_transfers_spec (x y : Z) :
  0 ≤ x < W → 0 ≤ y < height depth_intrin →
  W * height depth_intrin ≤ INT_MAX →
  width other_intrin * height other_intrin ≤ INT_MAX →
  let i := y * W + x in
  let depth := get_depth i in
  let log := transfers depth_intrin depth_to_other other_intrin get_depth in
  (∀ (S : Type) (transfer_pixel : Z → Z → S → S) (s : S),
     align_images depth_intrin depth_to_other other_intrin get_depth transfer_pixel s
     = foldl (λ s c, transfer_pixel c.1 c.2 s) s log)
  ∧ 0 ≤ i ≤ INT_MAX
  ∧ (float_to_bool depth = false → transfers_of i log = [])
  ∧ (float_to_bool depth = true →
     ∀ ox oy,
       rounded_projection depth_intrin depth_to_other other_intrin x y depth = (ox, oy) →
       (0 ≤ ox < width other_intrin ∧ 0 ≤ oy < height other_intrin →
          transfers_of i log = [(i, oy * width other_intrin + ox)]
          ∧ 0 ≤ oy * width other_intrin + ox ≤ INT_MAX)
       ∧ (¬ (0 ≤ ox < width other_intrin ∧ 0 ≤ oy < height other_intrin) →
          transfers_of i log = [])).
Proof.
  intros Hx Hy Hd Ho. cbv zeta. rewrite transfers_raster.
  split; [intros S tp s; apply align_images_raster|].
  split; [nia|].
  rewrite (transfers_of_pixel x y Hx Hy).
  unfold ImageSpec.pixel_transfers, lands. rewrite other_pixel_of_rounded_projection. split.
  - intros ->. reflexivity.
  - intros -> ox oy ->. split; intros Hin.
    + rewrite bool_decide_eq_true_2 by exact Hin. split; [reflexivity | nia].
    + rewrite bool_decide_eq_false_2 by exact Hin. reflexivity.
Qed.

Lemma seqZ_split n k : 0 ≤ k < n → seqZ 0 n = seqZ 0 k ++ k :: seqZ (k + 1) (n - k - 1).
Proof.
  intros Hk. replace n with (k + (n - k)) at 1 by lia.
  rewrite seqZ_app, (seqZ_cons (0 + k)) by lia.
  replace (0 + k) with k by lia. replace (Z.succ k) with (k + 1) by lia.
  replace (Z.pred (n - k)) with (n - k - 1) by lia. reflexivity.
Qed.

(** The log around the invocations of one pixel: before them come
    invocations of pixels that are earlier in raster order, after them
    invocations of pixels that are later. *)
Lemma raster_split x y :
  0 ≤ x < W → 0 ≤ y < height depth_intrin →
  ∃ before after,
    raster_transfers = before ++ pixel_transfers x y ++ after
    ∧ (∀ c, c ∈ before → ∃ x' y', 0 ≤ x' < W ∧ 0 ≤ y' < height depth_intrin
                             ∧ raster_lt x' y' x y ∧ c ∈ pixel_transfers x' y')
    ∧ (∀ c, c ∈ after → ∃ x' y', 0 ≤ x' < W ∧ 0 ≤ y' < height depth_intrin
                            ∧ raster_lt x y x' y' ∧ c ∈ pixel_transfers x' y').
Proof.
  intros Hx Hy. unfold ImageSpec.raster_transfers.
  set (row := λ y', seqZ 0 W ≫= λ x', pixel_transfers x' y').
  exists ((seqZ 0 y ≫= row) ++ (seqZ 0 x ≫= λ x', pixel_transfers x' y)),
         ((seqZ (x + 1) (W - x - 1) ≫= λ x', pixel_transfers x' y)
          ++ (seqZ (y + 1) (height depth_intrin - y - 1) ≫= row)).
  split; [|split].
  - rewrite (seqZ_split (height depth_intrin) y Hy), bind_app, bind_cons.
    unfold row at 2. rewrite (seqZ_split W x Hx), bind_app, bind_cons.
    rewrite <- !app_assoc. reflexivity.
  - intros c Hc. apply elem_of_app in Hc as [Hc | Hc].
    + apply list_elem_of_bind in Hc as (y' & Hc & Hy'). unfold row in Hc.
      apply list_elem_of_bind in Hc as (x' & Hc & Hx').
      apply elem_of_seqZ in Hy'. apply elem_of_seqZ in Hx'.
      exists x', y'. unfold raster_lt. repeat split; [lia..|exact Hc].
    + apply list_elem_of_bind in Hc as (x' & Hc & Hx'). apply elem_of_seqZ in Hx'.
      exists x', y. unfold raster_lt. repeat split; [lia..|exact Hc].
  - intros c Hc. apply elem_of_app in Hc as [Hc | Hc].
    + apply list_elem_of_bind in Hc as (x' & Hc & Hx'). apply elem_of_seqZ in Hx'.
      exists x', y. unfold raster_lt. repeat split; [lia..|exact Hc].
    + apply list_elem_of_bind in Hc as (y' & Hc & Hy'). unfold row in Hc.
      apply list_elem_of_bind in Hc as (x' & Hc & Hx').
      apply elem_of_seqZ in Hy'. apply elem_of_seqZ in Hx'.
      exists x', y'. unfold raster_lt. repeat split; [lia..|exact Hc].
Qed.

(** No depth index occurs twice in the log. *)
Lemma raster_transfers_NoDup : NoDup (raster_transfers.*1).
Proof.
  unfold ImageSpec.raster_transfers. rewrite fmap_bind.
  apply NoDup_bind; [| |apply NoDup_seqZ].
  - intros y1 y2 d Hy1 Hy2 Hd1 Hd2. cbn in Hd1, Hd2.
    apply list_elem_of_fmap in Hd1 as (c1 & -> & Hc1).
    apply list_elem_of_fmap in Hd2 as (c2 & Heq & Hc2).
    apply list_elem_of_bind in Hc1 as (x1 & Hc1 & Hx1).
    apply list_elem_of_bind in Hc2 as (x2 & Hc2 & Hx2).
    apply elem_of_seqZ in Hx1. apply elem_of_seqZ in Hx2.
    apply elem_of_pixel_transfers in Hc1 as [Hc1 _].
    apply elem_of_pixel_transfers in Hc2 as [Hc2 _].
    rewrite Hc1, Hc2 in Heq. apply pixel_index_inj in Heq; [tauto|lia..].
  - intros y _. cbn. rewrite fmap_bind.
    apply NoDup_bind; [| |apply NoDup_seqZ].
    + intros x1 x2 d Hx1 Hx2 Hd1 Hd2. cbn in Hd1, Hd2.
      apply list_elem_of_fmap in Hd1 as (c1 & -> & Hc1).
      apply list_elem_of_fmap in Hd2 as (c2 & Heq & Hc2).
      apply elem_of_seqZ in Hx1. apply elem_of_seqZ in Hx2.
      apply elem_of_pixel_transfers in Hc1 as [Hc1 _].
      apply elem_of_pixel_transfers in Hc2 as [Hc2 _].
      rewrite Hc1, Hc2 in Heq. apply pixel_index_inj in Heq; [tauto|lia..].
    + intros x _. cbn. unfold ImageSpec.pixel_transfers.
      destruct (lands _ _ _ _ x y); [apply NoDup_singleton | apply NoDup_nil_2].
Qed.

End Kernel.

(** ** The two transfer policies *)

Lemma foldl_writes_untouched (src : Z → Z) (cs : list (Z * Z)) (out : Z → Z) (o : Z) :
  (∀ c, c ∈ cs → c.2 ≠ o) →
  foldl (λ out c, <[c.2 := src c.1]> out) out cs o = out o.
Proof.
  revert out. induction cs as [|c cs IH]; intros out Hcs; [reflexivity|].
  cbn. rewrite IH by (intros c' Hc'; apply Hcs; right; exact Hc').
  apply fn_lookup_insert_ne. apply Hcs. left.
Qed.

Lemma load_store_same (N : Z) (p : memory) (i : Z) (val : list byte) :
  length val = Z.to_nat N → load_bytes N (store_bytes N p i val) i = val.
Proof.
  intros Hlen. unfold load_bytes. apply list_eq. intros n. rewrite list_lookup_fmap.
  destruct (decide (Z.of_nat n < N)) as [Hn | Hn].
  - rewrite lookup_seqZ_lt by lia. cbn. unfold store_bytes.
    rewrite bool_decide_eq_true_2 by lia.
    replace (N * i + (0 + Z.of_nat n) - N * i) with (Z.of_nat n) by lia.
    rewrite Nat2Z.id. destruct (val !! n) as [b|] eqn:Hb; [reflexivity|].
    apply lookup_ge_None in Hb. lia.
  - rewrite lookup_seqZ_ge by lia. cbn. symmetry. apply lookup_ge_None. lia.
Qed.

Lemma load_store_other (N : Z) (p : memory) (i j : Z) (val : list byte) :
  i ≠ j → load_bytes N (store_bytes N p j val) i = load_bytes N p i.
Proof.
  intros Hij. unfold load_bytes. apply list_fmap_ext. intros n k Hk.
  apply list_elem_of_lookup_2, elem_of_seqZ in Hk. unfold store_bytes.
  rewrite bool_decide_eq_false_2; [reflexivity|]. nia.
Qed.

Lemma load_bytes_length (N : Z) (p : memory) (i : Z) : length (load_bytes N p i) = Z.to_nat N.
Proof. unfold load_bytes. rewrite length_fmap, length_seqZ. reflexivity. Qed.

Lemma foldl_stores_untouched (N : Z) (src : memory) (cs : list (Z * Z)) (out : memory) (i : Z) :
  (∀ c, c ∈ cs → c.1 ≠ i) →
  load_bytes N (foldl (λ out c, store_bytes N out c.1 (load_bytes N src c.2)) out cs) i
  = load_bytes N out i.
Proof.
  revert out. induction cs as [|c cs IH]; intros out Hcs; [reflexivity|].
  cbn. rewrite IH by (intros c' Hc'; apply Hcs; right; exact Hc').
  apply load_store_other. intros ->. apply (Hcs c); [left | reflexivity].
Qed.

Section Policies.
Context `{FA : float_arith} `{RU : !rsutil}.
Context (depth_pixels : Z → Z) (depth_scale : float).
Context (depth_intrin : rs_intrinsics) (depth_to_color : rs_extrinsics)
        (color_intrin : rs_intrinsics).

Local Abbreviation W := (width depth_intrin).
Local Abbreviation lands_at :=
  (lands depth_intrin depth_to_color color_intrin (scaled_depth depth_pixels depth_scale)).
Local Abbreviation log :=
  (transfers depth_intrin depth_to_color color_intrin (scaled_depth depth_pixels depth_scale)).

Lemma align_depth_to_color_raster (out : Z → Z) :
  align_depth_to_color out depth_pixels depth_scale depth_intrin depth_to_color color_intrin
  = foldl (λ out c, <[c.2 := depth_pixels c.1]> out) out
      (raster_transfers depth_intrin depth_to_color color_intrin
         (scaled_depth depth_pixels depth_scale)).
Proof.
  exact (align_images_raster depth_intrin depth_to_color color_intrin
           (scaled_depth depth_pixels depth_scale)
           (λ d c out, <[c := depth_pixels d]> out) out).
Qed.

(** C2. [align_depth_to_color] performs, for the invocations of the
    kernel in order, the writes [out[other_index] = raw_depth[depth_index]].
    For a depth pixel [(x, y)] that lands on the destination index [o]:
    when no pixel later in raster order lands on [o] too (that is,
    [(x, y)] is the last of the pixels that land on [o]), the value
    stored at [o] in the end is the raw value [raw_depth[y * Wd + x]],
    to which the scale has not been applied. *)
Theorem align_depth_to_color_last_writer (out : Z → Z) (x y o : Z) :
  0 ≤ x < W → 0 ≤ y < height depth_intrin →
  lands_at x y = Some o →
  (∀ x' y', 0 ≤ x' < W → 0 ≤ y' < height depth_intrin → raster_lt x y x' y' →
            lands_at x' y' ≠ Some o) →
  align_depth_to_color out depth_pixels depth_scale depth_intrin depth_to_color color_intrin
  = foldl (λ out c, <[c.2 := depth_pixels c.1]> out) out log
  ∧ align_depth_to_color out depth_pixels depth_scale depth_intrin depth_to_color
      color_intrin o
    = depth_pixels (y * W + x).
Proof.
  intros Hx Hy Hland Hlast.
  rewrite align_depth_to_color_raster, transfers_raster. split; [reflexivity|].
  destruct (raster_split depth_intrin depth_to_color color_intrin
              (scaled_depth depth_pixels depth_scale) x y Hx Hy)
    as (before & after & -> & _ & Hafter).
  unfold pixel_transfers. rewrite Hland. rewrite !foldl_app. cbn [foldl fst snd].
  rewrite foldl_writes_untouched; [apply fn_lookup_insert|].
  intros c Hc Hco. apply Hafter in Hc as (x' & y' & Hx' & Hy' & Hlt & Hc).
  apply elem_of_pixel_transfers in Hc as [_ Hc]. rewrite Hco in Hc.
  exact (Hlast x' y' Hx' Hy' Hlt Hc).
Qed.

Lemma align_color_to_depth_bytes_raster (N : Z) (out color : memory) :
  align_color_to_depth_bytes N out depth_pixels depth_scale depth_intrin depth_to_color
    color_intrin color
  = foldl (λ out c, store_bytes N out c.1 (load_bytes N color c.2)) out
      (raster_transfers depth_intrin depth_to_color color_intrin
         (scaled_depth depth_pixels depth_scale)).
Proof.
  exact (align_images_raster depth_intrin depth_to_color color_intrin
           (scaled_depth depth_pixels depth_scale)
           (λ d c out, store_bytes N out d (load_bytes N color c)) out).
Qed.

Lemma raster_lt_index_ne x y x' y' :
  0 ≤ x < W → 0 ≤ x' < W → raster_lt x y x' y' ∨ raster_lt x' y' x y →
  y' * W + x' ≠ y * W + x.
Proof.
  intros Hx Hx' Hlt Heq. apply pixel_index_inj in Heq; [|lia..].
  unfold raster_lt in Hlt. lia.
Qed.

(** C7, as the code has it. [align_color_to_depth_bytes<N>] performs, for
    the invocations of the kernel in order, the writes
    [out[depth_index] = in_other[other_index]] on [N]-byte pixels. No
    depth index is written twice. A depth pixel is written exactly once
    when it lands on a pixel of the other image, and is then that pixel
    in the end; it is never written when its depth is zero or its
    projection falls outside, and then keeps what it held. *)
Theorem align_color_to_depth_bytes_spec (N : Z) (out color : memory) (x y : Z) :
  0 ≤ x < W → 0 ≤ y < height depth_intrin →
  let result := align_color_to_depth_bytes N out depth_pixels depth_scale depth_intrin
                  depth_to_color color_intrin color in
  result = foldl (λ out c, store_bytes N out c.1 (load_bytes N color c.2)) out log
  ∧ NoDup (log.*1)
  ∧ transfers_of (y * W + x) log
    = match lands_at x y with Some o => [(y * W + x, o)] | None => [] end
  ∧ load_bytes N result (y * W + x)
    = match lands_at x y with
      | Some o => load_bytes N color o
      | None => load_bytes N out (y * W + x)
      end.
Proof.
  intros Hx Hy. cbv zeta.
  rewrite align_color_to_depth_bytes_raster, transfers_raster.
  split; [reflexivity|]. split; [apply raster_transfers_NoDup|].
  split; [apply transfers_of_pixel; assumption|].
  destruct (raster_split depth_intrin depth_to_color color_intrin
              (scaled_depth depth_pixels depth_scale) x y Hx Hy)
    as (before & after & -> & Hbefore & Hafter).
  assert (∀ c, c ∈ before ∨ c ∈ after → c.1 ≠ y * W + x) as Hne.
  { intros c [Hc | Hc]; [apply Hbefore in Hc | apply Hafter in Hc];
      destruct Hc as (x' & y' & Hx' & Hy' & Hlt & Hc);
      apply elem_of_pixel_transfers in Hc as [-> _];
      apply raster_lt_index_ne; auto. }
  rewrite !foldl_app, foldl_stores_untouched by auto.
  unfold pixel_transfers. destruct lands_at as [o|]; cbn [foldl fst snd].
  - apply load_store_same, load_bytes_length.
  - apply foldl_stores_untouched. auto.
Qed.

End Policies.

(** ** Formats of the pixel transfers *)

(** C8, as the code has it. [align_color_to_depth] and [rectify_image]
    called with [RS_FORMAT_YUYV] reach the [assert(false)] of their
    default branch. The build with assertions aborts there; the build
    with [NDEBUG] returns, having transferred no pixel: the destination is
    as it was. No build gives UnsupportedFormat back, which is what the
    spec mandates ([transfer_at]). For every other format both builds
    run the byte-generic transfer at the pixel width of the format, 1, 2,
    3 or 4 bytes, and return, as the spec says. The build with
    assertions returns for these seven formats only. *)
Theorem yuyv_reaches_assert_false `{FA : float_arith} `{RU : !rsutil}
    (color_aligned_to_depth : memory) (depth_pixels : Z → Z) (depth_scale : float)
    (depth_intrin : rs_intrinsics) (depth_to_color : rs_extrinsics)
    (color_intrin : rs_intrinsics) (color_pixels : memory)
    (rect_pixels : memory) (rectification_table : list Z) (unrect_pixels : memory)
    (fmt : rs_format) :
  let align := align_color_to_depth color_aligned_to_depth depth_pixels depth_scale
                 depth_intrin depth_to_color color_intrin color_pixels in
  let align_NDEBUG := align_color_to_depth_NDEBUG color_aligned_to_depth depth_pixels
                        depth_scale depth_intrin depth_to_color color_intrin color_pixels in
  let align_bytes N := align_color_to_depth_bytes N color_aligned_to_depth depth_pixels
                         depth_scale depth_intrin depth_to_color color_intrin color_pixels in
  let rectify := rectify_image rect_pixels rectification_table unrect_pixels in
  let rectify_NDEBUG := rectify_image_NDEBUG rect_pixels rectification_table unrect_pixels in
  let rectify_pixels N := rectify_image_pixels N rect_pixels rectification_table
                            unrect_pixels in
  (align RS_FORMAT_YUYV = Aborts assert_false
   ∧ given_back (align RS_FORMAT_YUYV) = None
   ∧ align_NDEBUG RS_FORMAT_YUYV = color_aligned_to_depth
   ∧ transfer_at RS_FORMAT_YUYV align_bytes = Fails UnsupportedFormat)
  ∧ (rectify RS_FORMAT_YUYV = Aborts assert_false
     ∧ given_back (rectify RS_FORMAT_YUYV) = None
     ∧ rectify_NDEBUG RS_FORMAT_YUYV = rect_pixels
     ∧ transfer_at RS_FORMAT_YUYV rectify_pixels = Fails UnsupportedFormat)
  ∧ (∀ N, pixel_width fmt = Some N →
       1 ≤ N ≤ 4
       ∧ align fmt = Returns (align_bytes N)
       ∧ align_NDEBUG fmt = align_bytes N
       ∧ given_back (align fmt) = Some (transfer_at fmt align_bytes)
       ∧ rectify fmt = Returns (rectify_pixels N)
       ∧ rectify_NDEBUG fmt = rectify_pixels N
       ∧ given_back (rectify fmt) = Some (transfer_at fmt rectify_pixels))
  ∧ (pixel_width fmt = None ↔ fmt = RS_FORMAT_YUYV)
  ∧ (returned (align fmt) ↔ fmt ≠ RS_FORMAT_YUYV)
  ∧ (returned (rectify fmt) ↔ fmt ≠ RS_FORMAT_YUYV).
Proof.
  cbv zeta. split; [repeat split|]. split; [repeat split|]. split; [|split; [|split]].
  - intros N. unfold transfer_at.
    destruct fmt; cbn; intros [= <-]; (split; [lia|]); repeat split.
  - destruct fmt; cbn; split; congruence.
  - unfold returned. destruct fmt; cbn; split; try congruence; try (intros _; eauto; fail);
      intros [a Ha]; discriminate Ha.
  - unfold returned. destruct fmt; cbn; split; try congruence; try (intros _; eauto; fail);
      intros [a Ha]; discriminate Ha.
Qed.

(** ** Rectification *)

Lemma lands_in_bounds `{FA : float_arith} `{RU : !rsutil} (depth_intrin : rs_intrinsics)
    (depth_to_other : rs_extrinsics) (other_intrin : rs_intrinsics) (get_depth : Z → float)
    (x y o : Z) :
  lands depth_intrin depth_to_other other_intrin get_depth x y = Some o →
  0 ≤ o < width other_intrin * height other_intrin.
Proof.
  unfold lands. destruct (float_to_bool _); [|discriminate].
  destruct (other_pixel_of _ _ _ x y _) as [ox oy].
  case_bool_decide as Hin; [|discriminate]. intros [= <-]. nia.
Qed.

Lemma foldl_inserts_Forall (P : Z → Prop) (cs : list (Z * Z)) (table : list Z) :
  Forall P table → (∀ c, c ∈ cs → P c.2) →
  Forall P (foldl (λ table c, <[Z.to_nat c.1 := c.2]> table) table cs).
Proof.
  revert table. induction cs as [|c cs IH]; intros table Ht Hcs; [exact Ht|].
  cbn. apply IH.
  - apply Forall_insert; [exact Ht | apply Hcs; left].
  - intros c' Hc'. apply Hcs. right. exact Hc'.
Qed.

Lemma foldl_inserts_length (cs : list (Z * Z)) (table : list Z) :
  length (foldl (λ table c, <[Z.to_nat c.1 := c.2]> table) table cs) = length table.
Proof.
  revert table. induction cs as [|c cs IH]; intros table; [reflexivity|].
  cbn. rewrite IH. apply length_insert.
Qed.

Lemma foldl_inserts_untouched (cs : list (Z * Z)) (table : list Z) (n : nat) :
  (∀ c, c ∈ cs → Z.to_nat c.1 ≠ n) →
  foldl (λ table c, <[Z.to_nat c.1 := c.2]> table) table cs !! n = table !! n.
Proof.
  revert table. induction cs as [|c cs IH]; intros table Hcs; [reflexivity|].
  cbn. rewrite IH by (intros c' Hc'; apply Hcs; right; exact Hc').
  apply list_lookup_insert_ne. apply Hcs. left.
Qed.

Lemma rectify_image_pixels_reads (N : Z) (bound : Z) (table : list Z) (src src' : memory) :
  Forall (λ entry, 0 ≤ entry < bound) table →
  (∀ a, 0 ≤ a < N * bound → src a = src' a) →
  ∀ rect, rectify_image_pixels N rect table src = rectify_image_pixels N rect table src'.
Proof.
  intros Htable Hsrc rect. unfold rectify_image_pixels. f_equal.
  generalize 0 as p. revert rect.
  induction Htable as [|entry table Hentry _ IH]; intros rect p; [reflexivity|].
  cbn. rewrite <- IH. do 3 f_equal. unfold load_bytes.
  apply list_fmap_ext. intros n k Hk.
  apply list_elem_of_lookup_2, elem_of_seqZ in Hk. apply Hsrc. nia.
Qed.

Section Rectification.
Context `{FA : float_arith} `{RU : !rsutil}.
Context (rect_intrin : rs_intrinsics) (rect_to_unrect : rs_extrinsics)
        (unrect_intrin : rs_intrinsics).

Local Abbreviation W := (width rect_intrin).
Local Abbreviation lands_at :=
  (lands rect_intrin rect_to_unrect unrect_intrin (λ _, float_one)).
Local Abbreviation table :=
  (compute_rectification_table rect_intrin rect_to_unrect unrect_intrin).

Lemma compute_rectification_table_raster :
  table
  = foldl (λ table c, <[Z.to_nat c.1 := c.2]> table)
      (replicate (Z.to_nat (size_t (W * height rect_intrin))) 0)
      (raster_transfers rect_intrin rect_to_unrect unrect_intrin (λ _, float_one)).
Proof.
  exact (align_images_raster rect_intrin rect_to_unrect unrect_intrin (λ _, float_one)
           (λ r u tbl, <[Z.to_nat r := u]> tbl) _).
Qed.

Lemma compute_rectification_table_length :
  length table = Z.to_nat (size_t (W * height rect_intrin)).
Proof.
  rewrite compute_rectification_table_raster, foldl_inserts_length.
  apply length_replicate.
Qed.

(** The writes [rectification_table[rect_pixel_index] = ...] are inside
    the vector. *)
Lemma rectification_writes_in_range c :
  W * height rect_intrin < 2 ^ 64 →
  c ∈ transfers rect_intrin rect_to_unrect unrect_intrin (λ _, float_one) →
  0 ≤ c.1 ∧ (Z.to_nat c.1 < length table)%nat.
Proof.
  intros Hsize. rewrite transfers_raster, compute_rectification_table_length.
  intros Hc. apply elem_of_raster_transfers in Hc as (x & y & Hx & Hy & Hc).
  apply elem_of_pixel_transfers in Hc as [-> _].
  unfold size_t, to_unsigned. rewrite Z.mod_small by nia. nia.
Qed.

(** C10. Given a non-empty unrectified image of at most [INT_MAX] pixels
    and rectified intrinsics of a non-negative size of at most [INT_MAX]
    pixels (so that the [int] index of the kernel and the [int] product
    passed to [resize] are the numbers in [Z]), every entry of the table
    that [compute_rectification_table] returns lies in
    [[0, unrect.width * unrect.height)]: the entry of a rectified pixel
    that lands on the unrectified image is the index it lands on, which
    the bounds check of the kernel keeps inside the image; the entry of
    a pixel that does not land is the zero of [resize]. The table has
    [rect.width * rect.height] entries, each of which fits an [int]. So
    [rectify_image_pixels], which reads the source at the entries of the
    table only, reads it inside its [N * width * height] bytes: bytes
    beyond them do not influence the result, of [rectify_image] either. *)
Theorem compute_rectification_table_in_bounds :
  0 < width unrect_intrin * height unrect_intrin ≤ INT_MAX →
  0 ≤ W * height rect_intrin ≤ INT_MAX →
  Forall (λ entry, 0 ≤ entry < width unrect_intrin * height unrect_intrin) table
  ∧ Forall (λ entry, 0 ≤ entry ≤ INT_MAX) table
  ∧ length table = Z.to_nat (W * height rect_intrin)
  ∧ (∀ x y, 0 ≤ x < W → 0 ≤ y < height rect_intrin →
       table !! Z.to_nat (y * W + x) = Some (default 0 (lands_at x y)))
  ∧ (∀ N rect src src',
       (∀ a, 0 ≤ a < N * (width unrect_intrin * height unrect_intrin) → src a = src' a) →
       rectify_image_pixels N rect table src = rectify_image_pixels N rect table src')
  ∧ (∀ fmt N rect src src',
       pixel_width fmt = Some N →
       (∀ a, 0 ≤ a < N * (width unrect_intrin * height unrect_intrin) → src a = src' a) →
       rectify_image rect table src fmt = rectify_image rect table src' fmt).
Proof.
  intros Hne Hrect.
  assert (size_t (W * height rect_intrin) = W * height rect_intrin) as Hsize.
  { unfold INT_MAX in Hrect. unfold size_t, to_unsigned. apply Z.mod_small. lia. }
  assert (Forall (λ entry, 0 ≤ entry < width unrect_intrin * height unrect_intrin) table)
    as Htable.
  { rewrite compute_rectification_table_raster. apply foldl_inserts_Forall.
    - apply Forall_replicate. lia.
    - intros c Hc. apply elem_of_raster_transfers in Hc as (x & y & _ & _ & Hc).
      apply elem_of_pixel_transfers in Hc as [_ Hc].
      exact (lands_in_bounds _ _ _ _ _ _ _ Hc). }
  split; [exact Htable|]. split.
  { apply list.Forall_forall. intros entry Hentry.
    pose proof (proj1 (list.Forall_forall _ _) Htable entry Hentry) as Hb. cbn beta in Hb.
    lia. }
  split; [rewrite compute_rectification_table_length, Hsize; reflexivity|]. split.
  - intros x y Hx Hy. rewrite compute_rectification_table_raster.
    destruct (raster_split rect_intrin rect_to_unrect unrect_intrin (λ _, float_one)
                x y Hx Hy) as (before & after & -> & Hbefore & Hafter).
    assert (∀ c, c ∈ before ∨ c ∈ after → Z.to_nat c.1 ≠ Z.to_nat (y * W + x)) as Hneq.
    { intros c [Hc | Hc]; [apply Hbefore in Hc | apply Hafter in Hc];
        destruct Hc as (x' & y' & Hx' & Hy' & Hlt & Hc);
        apply elem_of_pixel_transfers in Hc as [-> _];
        (assert (y' * W + x' ≠ y * W + x) by (apply raster_lt_index_ne; auto));
        nia. }
    rewrite !foldl_app, foldl_inserts_untouched by auto.
    assert (Z.to_nat (y * W + x) < Z.to_nat (size_t (W * height rect_intrin)))%nat as Hi.
    { rewrite Hsize. nia. }
    unfold pixel_transfers. destruct lands_at as [o|]; cbn [foldl fst snd default].
    + apply list_lookup_insert_eq. rewrite foldl_inserts_length, length_replicate. exact Hi.
    + rewrite foldl_inserts_untouched by auto. apply lookup_replicate_2. exact Hi.
  - split.
    + intros N rect src src' Hsrc.
      exact (rectify_image_pixels_reads N _ table src src' Htable Hsrc rect).
    + intros fmt N rect src src' Hfmt Hsrc.
      destruct fmt; cbn in Hfmt; (injection Hfmt as <- || discriminate Hfmt);
        unfold rectify_image; f_equal;
        exact (rectify_image_pixels_reads _ _ table src src' Htable Hsrc rect).
Qed.

End Rectification.

(** ** The kernel and the policies on concrete images *)

Import Exact.

(** A depth camera of focal length 1 and another of focal length 2: the
    pixel of index 0 has depth 0; the pixel [(1, 0)], of depth 1, projects
    to [(2, 0)]; the pixel [(2, 0)], of depth 2, projects to [(4, 0)],
    outside the other image. *)
Lemma align_images_transfers_spec_witness :
  let log := transfers (camera 3 1 (1 # 1)) identity (camera 3 1 (2 # 1)) inject_Z in
  transfers_of 0 log = []
  ∧ transfers_of 1 log = [(1, 2)]
  ∧ transfers_of 2 log = [].
Proof.
  pose proof (align_images_transfers_spec (camera 3 1 (1 # 1)) identity (camera 3 1 (2 # 1))
                inject_Z) as Hspec.
  split; [|split].
  - refine (proj1 (proj2 (proj2 (Hspec 0 0 _ _ _ _))) eq_refl);
      cbn; unfold INT_MAX; lia.
  - refine (proj1 (proj1 (proj2 (proj2 (proj2 (Hspec 1 0 _ _ _ _))) eq_refl 2 0 eq_refl) _));
      cbn; unfold INT_MAX; lia.
  - refine (proj2 (proj2 (proj2 (proj2 (Hspec 2 0 _ _ _ _))) eq_refl 4 0 eq_refl) _);
      cbn; unfold INT_MAX; lia.
Defined.

Lemma align_depth_to_color_last_writer_witness :
  align_depth_to_color (λ _, 0) (λ i, 5 + 2 * i) (1 # 1000) (camera 2 1 (1 # 1)) identity
    (camera 1 1 (1 # 4)) 0 = 7.
Proof.
  refine (proj2 (align_depth_to_color_last_writer (λ i, 5 + 2 * i) (1 # 1000)
                   (camera 2 1 (1 # 1)) identity (camera 1 1 (1 # 4)) (λ _, 0) 1 0 0
                   _ _ _ _)).
  - cbn. lia.
  - cbn. lia.
  - reflexivity.
  - intros x' y' Hx' Hy' Hlt. unfold raster_lt in Hlt. cbn in Hx', Hy'. lia.
Defined.

Lemma align_color_to_depth_bytes_spec_witness :
  load_bytes 3
    (align_color_to_depth_bytes 3 (frame []) (λ _, 5) (1 # 1000) (camera 1 1 (1 # 1)) identity
       (camera 1 1 (1 # 1)) (frame [Byte.x01; Byte.x02; Byte.x03])) 0
  = [Byte.x01; Byte.x02; Byte.x03].
Proof.
  refine (proj2 (proj2 (proj2 (align_color_to_depth_bytes_spec (λ _, 5) (1 # 1000)
                   (camera 1 1 (1 # 1)) identity (camera 1 1 (1 # 1)) 3 (frame [])
                   (frame [Byte.x01; Byte.x02; Byte.x03]) 0 0 _ _)))); cbn; lia.
Defined.

(** C7 as the claim states it fails on a depth pixel of depth zero: the
    one pixel of a 1x1 depth image of raw depth 0 is written by no
    invocation (not by exactly one), and the destination keeps the byte it
    held. *)
Lemma align_color_to_depth_zero_depth_unwritten :
  let log := transfers (camera 1 1 (1 # 1)) identity (camera 1 1 (1 # 1))
               (scaled_depth (λ _, 0) (1 # 1)) in
  length (transfers_of 0 log) ≠ 1%nat
  ∧ transfers_of 0 log = []
  ∧ align_color_to_depth_bytes 1 (frame [Byte.x07]) (λ _, 0) (1 # 1) (camera 1 1 (1 # 1))
      identity (camera 1 1 (1 # 1)) (frame [Byte.xff]) 0 = Byte.x07.
Proof. cbv zeta. split; [|split]; [vm_compute; discriminate | reflexivity | reflexivity]. Qed.

(** C8 as the claim states it fails on the call with [RS_FORMAT_YUYV]:
    where the claim says that the call fails with UnsupportedFormat, the
    source function aborts on [assert(false)] and gives nothing back, and
    compiled with [NDEBUG] it returns, so that it does not succeed for the
    formats of 1 to 4 bytes only; the one byte of the destination is as
    it was. The same holds of [rectify_image]. *)
Lemma yuyv_call_surfaces_no_error :
  let align := align_color_to_depth (frame [Byte.x07]) (λ _, 5) (1 # 1000)
                 (camera 1 1 (1 # 1)) identity (camera 1 1 (1 # 1)) (frame [Byte.xff]) in
  let align_NDEBUG := align_color_to_depth_NDEBUG (frame [Byte.x07]) (λ _, 5) (1 # 1000)
                        (camera 1 1 (1 # 1)) identity (camera 1 1 (1 # 1))
                        (frame [Byte.xff]) in
  let rectify := rectify_image (frame [Byte.x07]) [0] (frame [Byte.xff]) in
  let rectify_NDEBUG := rectify_image_NDEBUG (frame [Byte.x07]) [0] (frame [Byte.xff]) in
  given_back (align RS_FORMAT_YUYV) ≠ Some (Fails UnsupportedFormat)
  ∧ align_NDEBUG RS_FORMAT_YUYV 0 = Byte.x07
  ∧ align_NDEBUG RS_FORMAT_Y8 0 = Byte.xff
  ∧ given_back (rectify RS_FORMAT_YUYV) ≠ Some (Fails UnsupportedFormat)
  ∧ rectify_NDEBUG RS_FORMAT_YUYV 0 = Byte.x07
  ∧ rectify_NDEBUG RS_FORMAT_Y8 0 = Byte.xff.
Proof.
  cbv zeta. repeat split; try reflexivity; cbn; discriminate.
Qed.

Lemma compute_rectification_table_in_bounds_witness :
  Forall (λ entry, 0 ≤ entry < 3 * 1)
    (compute_rectification_table (camera 3 1 (1 # 1)) (translate (1 # 1) (0 # 1) (0 # 1))
       (camera 3 1 (1 # 1)))
  ∧ compute_rectification_table (camera 3 1 (1 # 1)) (translate (1 # 1) (0 # 1) (0 # 1))
      (camera 3 1 (1 # 1)) !! Z.to_nat (0 * 3 + 1) = Some 2
  ∧ compute_rectification_table (camera 3 1 (1 # 1)) (translate (1 # 1) (0 # 1) (0 # 1))
      (camera 3 1 (1 # 1)) !! Z.to_nat (0 * 3 + 2) = Some 0.
Proof.
  pose proof (compute_rectification_table_in_bounds (camera 3 1 (1 # 1))
                (translate (1 # 1) (0 # 1) (0 # 1)) (camera 3 1 (1 # 1))) as Hspec.
  destruct Hspec as (Hall & _ & _ & Hentry & _);
    [cbn; unfold INT_MAX; lia | cbn; unfold INT_MAX; lia |].
  split; [exact Hall|]. split.
  - refine (Hentry 1 0 _ _); cbn; lia.
  - refine (Hentry 2 0 _ _); cbn; lia.
Defined.

End ImageFacts.

Module ThermalLoopFacts.
Import ThermalLoop ThermalSpec.

(** ** The comparison of two floats *)

Lemma float_fields b :
  is_float b →
  b = Z.b2z (sign_bit b) * 2 ^ 31 + exponent_bits b * 2 ^ 23 + fraction_bits b
  ∧ 0 ≤ exponent_bits b < 256 ∧ 0 ≤ fraction_bits b < 2 ^ 23.
Proof.
  unfold is_float, sign_bit, exponent_bits, fraction_bits. intros Hb.
  rewrite Z.testbit_spec' by lia. change 255 with (Z.ones 8).
  rewrite !Z.land_ones, Z.shiftr_div_pow2 by lia.
  assert (b `div` 2 ^ 31 < 2) by (apply Z.div_lt_upper_bound; lia).
  assert (0 ≤ b `div` 2 ^ 31) by (apply Z.div_pos; lia).
  Z.div_mod_to_equations. lia.
Qed.

(** What [decode] tells about the fields of the pattern. *)
Lemma decode_spec b :
  is_float b →
  match decode b with
  | S754_zero s => s = sign_bit b ∧ exponent_bits b = 0 ∧ fraction_bits b = 0
  | S754_infinity s => s = sign_bit b ∧ exponent_bits b = 255 ∧ fraction_bits b = 0
  | S754_nan => exponent_bits b = 255 ∧ fraction_bits b ≠ 0
  | S754_finite s m e =>
      s = sign_bit b ∧ exponent_bits b ≠ 255
      ∧ ((exponent_bits b = 0 ∧ fraction_bits b ≠ 0 ∧ Zpos m = fraction_bits b ∧ e = -149)
         ∨ (exponent_bits b ≠ 0 ∧ Zpos m = fraction_bits b + 2 ^ 23
            ∧ e = exponent_bits b - 150))
  end.
Proof.
  intros Hb. destruct (float_fields b Hb) as (_ & He & Hm). unfold decode.
  destruct (Z.eqb_spec (exponent_bits b) 0) as [He0 | He0].
  - destruct (fraction_bits b) as [|m|m] eqn:Hf; [tauto | | lia].
    split; [reflexivity|]. split; [lia|]. left. repeat split; lia.
  - destruct (Z.eqb_spec (exponent_bits b) 255) as [He255 | He255].
    + destruct (Z.eqb_spec (fraction_bits b) 0); tauto.
    + destruct (fraction_bits b + 2 ^ 23) as [|m|m] eqn:Hf; [lia | | lia].
      split; [reflexivity|]. split; [exact He255|]. right.
      split; [exact He0|]. split; lia.
Qed.

Lemma SFeqb_finite s m e s' m' e' :
  SFeqb (S754_finite s m e) (S754_finite s' m' e') = true ↔ s = s' ∧ e = e' ∧ m = m'.
Proof.
  unfold SFeqb, SFcompare.
  change (Pos.compare_cont Eq m m') with (Pos.compare m m').
  destruct s, s'; destruct (Z.compare_spec e e'); destruct (Pos.compare_spec m m'); cbn;
    split; try discriminate; try (intros (? & ? & ?); subst; lia || discriminate);
    intros _; repeat split; congruence.
Qed.

Lemma is_nan_fields b :
  is_nan b = false ↔ ¬ (exponent_bits b = 255 ∧ fraction_bits b ≠ 0).
Proof.
  unfold is_nan. destruct (Z.eqb_spec (exponent_bits b) 255);
    destruct (Z.eqb_spec (fraction_bits b) 0); cbn; intuition congruence.
Qed.

Lemma is_zero_fields b : is_zero b = true ↔ exponent_bits b = 0 ∧ fraction_bits b = 0.
Proof.
  unfold is_zero. destruct (Z.eqb_spec (exponent_bits b) 0);
    destruct (Z.eqb_spec (fraction_bits b) 0); cbn; intuition congruence.
Qed.

(** Two floats compare equal when neither is a NaN and they are the same
    pattern or are both zeros. *)
Lemma float_equal_iff a b :
  is_float a → is_float b →
  float_equal a b
  ↔ is_nan a = false ∧ is_nan b = false ∧ (a = b ∨ (is_zero a = true ∧ is_zero b = true)).
Proof.
  intros Ha Hb. unfold float_equal, float_ne. rewrite negb_false_iff.
  rewrite !is_nan_fields, !is_zero_fields.
  pose proof (decode_spec a Ha) as Da. pose proof (decode_spec b Hb) as Db.
  destruct (float_fields a Ha) as (Ea & Hea & Hma).
  destruct (float_fields b Hb) as (Eb & Heb & Hmb).
  assert (a = b → decode a = decode b) as Hsame by (intros ->; reflexivity).
  destruct (decode a) as [sa | sa | | sa ma ea] eqn:Hda;
    destruct (decode b) as [sb | sb | | sb mb eb] eqn:Hdb;
    try rewrite SFeqb_finite; cbn [SFeqb SFcompare];
    try (split;
         [ repeat match goal with |- context [if ?s then _ else _] => destruct s end;
           discriminate
         | intros (Hna & Hnb & [Hab | Hz]);
           [first [specialize (Hsame Hab); discriminate Hsame | lia] | lia] ]; fail).
  - (* two zeros *)
    split; [intros _; lia | reflexivity].
  - (* two infinities *)
    destruct Da as (Hsa & Ha1 & Ha2), Db as (Hsb & Hb1 & Hb2). split.
    + intros Heq. assert (sa = sb) as Hs by (destruct sa, sb; (reflexivity || discriminate Heq)).
      rewrite <- Hsa, <- Hsb, Hs in *. lia.
    + intros (_ & _ & [Hab | Hz]); [|lia].
      specialize (Hsame Hab). injection Hsame as ->. destruct sb; reflexivity.
  - (* two finite numbers *)
    destruct Da as (Hsa & Ha1 & Ha2), Db as (Hsb & Hb1 & Hb2). split.
    + intros (Hs & He & Hm). rewrite <- Hsa, <- Hsb, Hs in *. lia.
    + intros (_ & _ & [Hab | Hz]); [|lia].
      specialize (Hsame Hab). injection Hsame as -> -> ->. auto.
Qed.

Lemma ordinary_equal a b : ordinary a → ordinary b → float_equal a b ↔ a = b.
Proof.
  intros (Ha & Hna & Hza) (Hb & Hnb & Hzb). rewrite (float_equal_iff a b Ha Hb). split.
  - intros (_ & _ & [Hab | [Hz _]]); [exact Hab | congruence].
  - intros ->. auto.
Qed.

(** ** operator== *)

Lemma vals_differ_false lhs rhs i :
  vals_differ lhs rhs i = false ↔ temp_data_equal (vals lhs !!! i) (vals rhs !!! i).
Proof. unfold vals_differ, temp_data_equal, float_equal. rewrite !orb_false_iff. tauto. Qed.

Lemma vals_loop_true lhs rhs indices :
  vals_loop lhs rhs indices = true ↔ ∀ i, i ∈ indices → vals_differ lhs rhs i = false.
Proof.
  induction indices as [|i indices IH]; cbn.
  - split; [intros _ i Hi; inversion Hi | reflexivity].
  - destruct (vals_differ lhs rhs i) eqn:Hi.
    + split; [discriminate|]. intros Hall. rewrite <- Hi. symmetry. apply Hall. left.
    + rewrite IH. split.
      * intros Hall j Hj. apply elem_of_cons in Hj as [-> | Hj]; auto.
      * intros Hall j Hj. apply Hall. right. exact Hj.
Qed.

Lemma vals_loop_Forall2 lhs rhs :
  length (vals lhs) = length (vals rhs) →
  vals_loop lhs rhs (seq 0 (length (vals rhs))) = true
  ↔ Forall2 temp_data_equal (vals lhs) (vals rhs).
Proof.
  intros Hlen. rewrite vals_loop_true, Forall2_same_length_lookup. split.
  - intros Hall. split; [exact Hlen|]. intros i x y Hx Hy.
    assert (i ∈ seq 0 (length (vals rhs))) as Hi
      by (apply elem_of_seq; apply lookup_lt_Some in Hy; lia).
    apply Hall, vals_differ_false in Hi.
    rewrite (list_lookup_total_correct _ _ _ Hx), (list_lookup_total_correct _ _ _ Hy) in Hi.
    exact Hi.
  - intros [_ Hall] i Hi. apply elem_of_seq in Hi. apply vals_differ_false.
    destruct (lookup_lt_is_Some_2 (vals lhs) i ltac:(lia)) as [x Hx].
    destruct (lookup_lt_is_Some_2 (vals rhs) i ltac:(lia)) as [y Hy].
    rewrite (list_lookup_total_correct _ _ _ Hx), (list_lookup_total_correct _ _ _ Hy).
    exact (Hall i x y Hx Hy).
Qed.

Lemma operator_eq_fieldwise lhs rhs :
  operator_eq lhs rhs = true
  ↔ length (vals lhs) = length (vals rhs)
    ∧ header_equal (header_ lhs) (header_ rhs)
    ∧ Forall2 temp_data_equal (vals lhs) (vals rhs).
Proof.
  unfold operator_eq.
  destruct (Nat.eqb_spec (length (vals lhs)) (length (vals rhs))) as [Hlen | Hlen]; cbn [negb].
  - destruct (_ || _ || _ || _) eqn:Hh.
    + split; [discriminate|]. intros (_ & (H1 & H2 & H3 & H4) & _).
      unfold float_equal in *. rewrite H1, H2, H3, H4 in Hh. discriminate Hh.
    + rewrite !orb_false_iff in Hh. rewrite (vals_loop_Forall2 lhs rhs Hlen).
      unfold header_equal, float_equal. tauto.
  - split; [discriminate | tauto].
Qed.

Lemma header_equal_eq h h' :
  Forall ordinary (header_fields h) → Forall ordinary (header_fields h') →
  header_equal h h' ↔ h = h'.
Proof.
  destruct h as [a1 a2 a3 a4], h' as [b1 b2 b3 b4]. unfold header_fields, header_equal. cbn.
  intros HA HB. rewrite !list.Forall_cons in HA, HB.
  destruct HA as (A1 & A2 & A3 & A4 & _), HB as (B1 & B2 & B3 & B4 & _).
  rewrite !ordinary_equal by assumption.
  split; [intros (-> & -> & -> & ->); reflexivity | intros [= -> -> -> ->]; auto].
Qed.

Lemma temp_data_equal_eq e e' :
  Forall ordinary (entry_fields e) → Forall ordinary (entry_fields e') →
  temp_data_equal e e' ↔ e = e'.
Proof.
  destruct e as [a1 a2 a3 a4], e' as [b1 b2 b3 b4]. unfold entry_fields, temp_data_equal. cbn.
  intros HA HB. rewrite !list.Forall_cons in HA, HB.
  destruct HA as (A1 & A2 & A3 & A4 & _), HB as (B1 & B2 & B3 & B4 & _).
  rewrite !ordinary_equal by assumption.
  split; [intros (-> & -> & -> & ->); reflexivity | intros [= -> -> -> ->]; auto].
Qed.

Lemma vals_equal_eq (es es' : list temp_data) :
  Forall ordinary (es ≫= entry_fields) → Forall ordinary (es' ≫= entry_fields) →
  Forall2 temp_data_equal es es' ↔ es = es'.
Proof.
  revert es'. induction es as [|e es IH]; intros [|e' es'] Hes Hes'.
  - split; [reflexivity | constructor].
  - split; [intros H; inversion H | discriminate].
  - split; [intros H; inversion H | discriminate].
  - rewrite bind_cons in Hes, Hes'.
    apply Forall_app in Hes as [He Hes]. apply Forall_app in Hes' as [He' Hes'].
    rewrite list.Forall2_cons, (temp_data_equal_eq e e' He He'), (IH es' Hes Hes').
    split; [intros [-> ->]; reflexivity | intros [= -> ->]; auto].
Qed.

(** C9, as the code has it. [operator==] returns true when the two
    vectors have the same size and the four header fields and the four
    fields of every entry compare equal as [float]s. Two floats compare
    equal when neither is a NaN and they are bitwise equal or both zeros
    (of any sign). So on tables whose floats are neither NaNs nor zeros,
    [operator==] returns true exactly when the two tables are bitwise
    equal: same header fields, same number of entries, same fields in
    every entry. *)
Theorem operator_eq_spec (lhs rhs : thermal_calibration_table) :
  (operator_eq lhs rhs = true
   ↔ length (vals lhs) = length (vals rhs)
     ∧ header_equal (header_ lhs) (header_ rhs)
     ∧ Forall2 temp_data_equal (vals lhs) (vals rhs))
  ∧ (∀ a b, is_float a → is_float b →
       float_equal a b
       ↔ is_nan a = false ∧ is_nan b = false
         ∧ (a = b ∨ (is_zero a = true ∧ is_zero b = true)))
  ∧ (Forall ordinary (fields lhs) → Forall ordinary (fields rhs) →
       operator_eq lhs rhs = true ↔ lhs = rhs).
Proof.
  split; [apply operator_eq_fieldwise|]. split; [exact float_equal_iff|].
  unfold fields. intros Hl Hr.
  apply Forall_app in Hl as [Hlh Hlv]. apply Forall_app in Hr as [Hrh Hrv].
  rewrite operator_eq_fieldwise, (header_equal_eq _ _ Hlh Hrh), (vals_equal_eq _ _ Hlv Hrv).
  destruct lhs as [h es], rhs as [h' es']. cbn. split.
  - intros (_ & -> & ->). reflexivity.
  - intros [= -> ->]. auto.
Qed.

Lemma operator_eq_spec_witness :
  operator_eq (flat_table one one) (flat_table one one) = true
  ∧ float_equal plus_zero minus_zero.
Proof.
  destruct (operator_eq_spec (flat_table one one) (flat_table one one)) as (_ & Hfloat & Hord).
  split.
  - apply Hord; [apply (bool_decide_unpack _); vm_compute; exact I
                | apply (bool_decide_unpack _); vm_compute; exact I | reflexivity].
  - apply Hfloat; [unfold is_float, plus_zero; lia | unfold is_float, minus_zero; lia |].
    split; [reflexivity|]. split; [reflexivity|]. right. split; reflexivity.
Defined.

(** C9 as the claim states it fails in both directions. The table that
    holds [+0.0] in [min_temp] and the one that holds [-0.0] there compare
    equal, and are not bitwise equal; a table that holds a NaN does not
    compare equal to itself, and is bitwise equal to itself. All of them
    have 29 entries. *)
Lemma operator_eq_not_bitwise :
  operator_eq (flat_table plus_zero one) (flat_table minus_zero one) = true
  ∧ flat_table plus_zero one ≠ flat_table minus_zero one
  ∧ operator_eq (flat_table quiet_nan one) (flat_table quiet_nan one) = false
  ∧ length (vals (flat_table plus_zero one)) = 29%nat
  ∧ Forall is_float (fields (flat_table plus_zero one)
                     ++ fields (flat_table minus_zero one)
                     ++ fields (flat_table quiet_nan one)).
Proof.
  split; [vm_compute; reflexivity|]. split; [intros [= H]; discriminate H|].
  split; [vm_compute; reflexivity|]. split; [reflexivity|].
  apply (bool_decide_unpack _). vm_compute. exact I.
Qed.

End ThermalLoopFacts.

(** * Further properties of image.cpp *)

Module ImageMore.
Import Image ImageSpec ImageFacts.

(** ** The size oracle and the copy of a sub-rectangle *)

Lemma get_image_size_bounds w h fmt s : get_image_size w h fmt = Returns s → 0 ≤ s < 2 ^ 64.
Proof.
  unfold get_image_size, size_t, to_unsigned.
  destruct fmt; try destruct (Z.rem w 2 =? 0); intros [= <-]; apply Z.mod_pos_bound; lia.
Qed.

Lemma get_image_size_loop_bounds fs w h tag s :
  get_image_size_loop fs w h tag = Returns s → 0 ≤ s < 2 ^ 64.
Proof.
  induction fs as [|f fs IH]; cbn; [discriminate|].
  destruct (negb (fourcc f =? tag)); [exact IH|].
  destruct (Z.rem w (macropixel_width f) =? 0); [|discriminate].
  unfold size_t, to_unsigned. intros [= <-]. apply Z.mod_pos_bound. lia.
Qed.

Lemma get_image_size_fourcc_known w h f :
  f ∈ formats → (macropixel_width f | w) → 0 ≤ w ≤ INT_MAX → 0 ≤ h ≤ INT_MAX →
  get_image_size_fourcc w h (fourcc f)
  = Returns (w `div` macropixel_width f * h * macropixel_size f).
Proof.
  intros Hf Hmul Hw Hh. unfold get_image_size_fourcc.
  rewrite (get_image_size_loop_known _ _ _ _ formats_NoDup Hf).
  destruct (formats_width_pos f Hf) as [Hmw Hms].
  apply (Z.rem_divide w (macropixel_width f) ltac:(lia)) in Hmul. rewrite Hmul. cbn [Z.eqb].
  rewrite Z.quot_div_nonneg by lia.
  assert (0 ≤ w `div` macropixel_width f ≤ w) as Hq.
  { split; [apply Z.div_pos; lia|]. apply Z.div_le_upper_bound; nia. }
  unfold INT_MAX in *.
  assert (0 ≤ w `div` macropixel_width f * h ≤ (2 ^ 31 - 1) * (2 ^ 31 - 1)) as Hqh.
  { split; [apply Z.mul_nonneg_nonneg; lia|]. apply Z.mul_le_mono_nonneg; lia. }
  assert (0 ≤ w `div` macropixel_width f * h * macropixel_size f
          ≤ (2 ^ 31 - 1) * (2 ^ 31 - 1) * 4) as Hqhs.
  { split; [apply Z.mul_nonneg_nonneg; lia|]. apply Z.mul_le_mono_nonneg; lia. }
  unfold size_t, to_unsigned.
  rewrite (Z.mod_small (_ * h)) by lia. rewrite Z.mod_small by lia. reflexivity.
Qed.

Lemma same_layout_format fmt tag bpp :
  (fmt, tag, bpp) ∈ same_layout →
  ∃ f, f ∈ formats ∧ fourcc f = tag ∧ macropixel_size f = bpp * macropixel_width f
       ∧ (macropixel_width f = if decide (fmt = RS_FORMAT_YUYV) then 2 else 1)
       ∧ 1 ≤ bpp ≤ 2.
Proof.
  unfold same_layout. rewrite !elem_of_cons, elem_of_nil.
  intros [H | [H | [H | [H | []]]]]; injection H as -> -> ->;
    [exists {| fourcc := multichar "Z" "1" "6" " "; macropixel_width := 1;
               macropixel_size := sizeof_uint16_t |}
    |exists {| fourcc := multichar "Y" "8" " " " "; macropixel_width := 1;
               macropixel_size := sizeof_uint8_t |}
    |exists {| fourcc := multichar "Y" "1" "6" " "; macropixel_width := 1;
               macropixel_size := sizeof_uint16_t |}
    |exists {| fourcc := multichar "Y" "U" "Y" "2"; macropixel_width := 2;
               macropixel_size := sizeof_yuy2_macropixel |}];
    (split; [unfold formats; rewrite !elem_of_cons; tauto|]);
    repeat split; cbn; lia.
Qed.

Lemma get_image_size_same_layout w h fmt tag bpp :
  (fmt, tag, bpp) ∈ same_layout →
  get_image_size w h fmt
  = if decide (fmt = RS_FORMAT_YUYV ∧ Z.rem w 2 ≠ 0) then Aborts assert_even_width
    else Returns (size_t (w * h * bpp)).
Proof.
  unfold same_layout. rewrite !elem_of_cons, elem_of_nil.
  intros [H | [H | [H | [H | []]]]]; injection H as -> -> ->; cbn.
  - rewrite decide_False by (intros [[=] _]). reflexivity.
  - rewrite decide_False by (intros [[=] _]). rewrite Z.mul_1_r. reflexivity.
  - rewrite decide_False by (intros [[=] _]). reflexivity.
  - destruct (Z.eqb_spec (Z.rem w 2) 0) as [Hr | Hr].
    + rewrite decide_False by tauto. reflexivity.
    + rewrite decide_True by tauto. reflexivity.
Qed.

(** X1. The two size oracles agree on the four layouts that a pixel format
    and a FourCC share (Z16, Y8, Y16 and YUYV with YUY2): for a
    non-negative width and height whose byte count fits an [int], both
    return [width * height * bytes per pixel]; on YUYV with an odd width
    both fail, each on its own assertion. *)
Theorem size_oracles_agree (w h : Z) (fmt : rs_format) (tag bpp : Z) :
  (fmt, tag, bpp) ∈ same_layout →
  0 ≤ w → 0 ≤ h → w * h * bpp ≤ INT_MAX → w ≤ INT_MAX → h ≤ INT_MAX →
  (fmt ≠ RS_FORMAT_YUYV ∨ (2 | w) →
     get_image_size w h fmt = Returns (w * h * bpp)
     ∧ get_image_size_fourcc w h tag = Returns (w * h * bpp))
  ∧ (fmt = RS_FORMAT_YUYV → ¬ (2 | w) →
     get_image_size w h fmt = Aborts assert_even_width
     ∧ get_image_size_fourcc w h tag = Aborts assert_width_multiple).
Proof.
  intros Hl Hw Hh Hfit Hwi Hhi.
  destruct (same_layout_format fmt tag bpp Hl) as (f & Hf & <- & Hms & Hmw & Hbpp).
  rewrite (get_image_size_same_layout w h fmt _ bpp Hl).
  pose proof (Z.rem_divide w 2 ltac:(lia)) as Hdiv. unfold INT_MAX in *.
  split.
  - intros Hok. split.
    + rewrite decide_False by (intros [Hy Hr]; destruct Hok as [Hok | Hok]; [tauto|];
                               apply Hr, Hdiv, Hok).
      unfold size_t, to_unsigned. rewrite Z.mod_small by nia. reflexivity.
    + assert ((macropixel_width f | w)) as Hmul.
      { rewrite Hmw. destruct (decide (fmt = RS_FORMAT_YUYV)); [|apply Z.divide_1_l].
        destruct Hok as [Hok | Hok]; [contradiction | exact Hok]. }
      rewrite (get_image_size_fourcc_known w h f Hf Hmul) by (unfold INT_MAX; lia).
      f_equal. rewrite Hms. destruct Hmul as [q ->].
      rewrite Z.div_mul by (rewrite Hmw; destruct (decide _); lia). lia.
  - intros Hy Hodd. split.
    + rewrite decide_True; [reflexivity|]. split; [exact Hy|]. intros Hr. apply Hodd, Hdiv, Hr.
    + unfold get_image_size_fourcc.
      rewrite (get_image_size_loop_known _ _ _ _ formats_NoDup Hf), Hmw.
      rewrite decide_True by exact Hy.
      destruct (Z.eqb_spec (Z.rem w 2) 0) as [Hr | Hr]; [|reflexivity].
      exfalso. apply Hodd, Hdiv, Hr.
Qed.

Lemma size_oracles_agree_witness :
  get_image_size 640 480 RS_FORMAT_YUYV = Returns 614400
  ∧ get_image_size_fourcc 640 480 (multichar "Y" "U" "Y" "2") = Returns 614400
  ∧ get_image_size 641 480 RS_FORMAT_YUYV = Aborts assert_even_width
  ∧ get_image_size_fourcc 641 480 (multichar "Y" "U" "Y" "2") = Aborts assert_width_multiple.
Proof.
  assert ((RS_FORMAT_YUYV, multichar "Y" "U" "Y" "2", 2) ∈ same_layout) as Hl
    by (unfold same_layout; rewrite !elem_of_cons; tauto).
  destruct (size_oracles_agree 640 480 RS_FORMAT_YUYV _ 2 Hl) as [Hok _];
    [unfold INT_MAX; lia..|].
  destruct (size_oracles_agree 641 480 RS_FORMAT_YUYV _ 2 Hl) as [_ Hodd];
    [unfold INT_MAX; lia..|].
  destruct Hok as [H1 H2]; [right; exists 320; reflexivity|].
  destruct Hodd as [H3 H4]; [reflexivity | intros [q Hq]; lia|].
  auto.
Defined.

Lemma subrect_loop (dest source : memory) (in_stride out_stride n : Z) (xs : list Z) :
  0 ≤ out_stride → n ≤ out_stride →
  let st := foldl (λ s (x : Z),
                     (λ _ '((out, in_), mem),
                        ((out + out_stride, in_ + in_stride),
                         memcpy mem out source in_ n)) x s)
                  ((0, 0), dest) xs in
  st.1 = (Z.of_nat (length xs) * out_stride, Z.of_nat (length xs) * in_stride)
  ∧ (∀ y k, 0 ≤ y < Z.of_nat (length xs) → 0 ≤ k < n →
       st.2 (y * out_stride + k) = source (y * in_stride + k))
  ∧ (∀ a, (∀ y k, 0 ≤ y < Z.of_nat (length xs) → 0 ≤ k < n → a ≠ y * out_stride + k) →
       st.2 a = dest a).
Proof.
  intros Hos Hn. induction xs as [|x xs IH] using rev_ind.
  - cbn. split; [reflexivity|]. split; [intros; lia | reflexivity].
  - cbv zeta in IH |- *. rewrite foldl_snoc, length_app. cbn [length].
    destruct (foldl _ _ xs) as [[out in_] mem]. cbn [fst snd] in IH |- *.
    destruct IH as ([= -> ->] & Hrows & Hrest).
    split; [f_equal; lia|]. split.
    + intros y k Hy Hk. unfold memcpy. case_bool_decide as Hin.
      * assert (y = Z.of_nat (length xs)) as -> by nia. f_equal. lia.
      * apply Hrows; [|lia]. split; [lia|].
        destruct (decide (y = Z.of_nat (length xs))) as [-> | Hne]; [|lia].
        exfalso. apply Hin. lia.
    + intros a Ha. unfold memcpy. case_bool_decide as Hin.
      * exfalso. apply (Ha (Z.of_nat (length xs)) (a - Z.of_nat (length xs) * out_stride)); lia.
      * apply Hrest. intros y k Hy Hk. apply Ha; lia.
Qed.

Lemma unpack_subrect_memory (dest source : memory) (mode : subdevice_mode) (s0 : stream_request)
    (in_stride out_stride : Z) :
  streams mode = [s0] →
  get_image_size_fourcc (mode_width mode) 1 (mode_fourcc mode) = Returns in_stride →
  get_image_size (stream_width s0) 1 (stream_format s0) = Returns out_stride →
  ∃ mem, unpack_subrect dest source mode = Returns mem
    ∧ (∀ y k, 0 ≤ y < Z.min (mode_height mode) (stream_height s0) →
              0 ≤ k < Z.min in_stride out_stride →
              mem (y * out_stride + k) = source (y * in_stride + k))
    ∧ (∀ a, (∀ y k, 0 ≤ y < Z.min (mode_height mode) (stream_height s0) →
                    0 ≤ k < Z.min in_stride out_stride → a ≠ y * out_stride + k) →
            mem a = dest a).
Proof.
  intros Hs Hin Hout. unfold unpack_subrect. rewrite Hs, Hin, Hout.
  eexists. split; [reflexivity|].
  pose proof (get_image_size_bounds _ _ _ _ Hout) as Hos.
  unfold for_loop.
  pose proof (subrect_loop dest source in_stride out_stride (Z.min in_stride out_stride)
                (loop_values (Z.min (mode_height mode) (stream_height s0)) 1)
                ltac:(lia) ltac:(lia)) as Hloop.
  cbv zeta in Hloop. rewrite loop_values_length, Z.div_1_r in Hloop.
  destruct Hloop as (_ & Hrows & Hrest). split.
  - intros y k Hy Hk. apply Hrows; lia.
  - intros a Ha. apply Hrest. intros y k Hy Hk. apply Ha; lia.
Qed.

(** X2. [unpack_subrect], when both size oracles return: row [y] of the
    output, for [y] below the smaller of the two heights, holds the first
    [min(in_stride, out_stride)] bytes of row [y] of the input, rows being
    [out_stride] apart in the output and [in_stride] apart in the input;
    every other byte behind [dest[0]] is left as it was. *)
Theorem unpack_subrect_rows (dest source : memory) (mode : subdevice_mode) (s0 : stream_request)
    (in_stride out_stride : Z) :
  streams mode = [s0] →
  get_image_size_fourcc (mode_width mode) 1 (mode_fourcc mode) = Returns in_stride →
  get_image_size (stream_width s0) 1 (stream_format s0) = Returns out_stride →
  ∃ mem, unpack_subrect dest source mode = Returns mem
    ∧ (∀ y k, 0 ≤ y < Z.min (mode_height mode) (stream_height s0) →
              0 ≤ k < Z.min in_stride out_stride →
              mem (y * out_stride + k) = source (y * in_stride + k))
    ∧ (∀ a, (∀ y k, 0 ≤ y < Z.min (mode_height mode) (stream_height s0) →
                    0 ≤ k < Z.min in_stride out_stride → a ≠ y * out_stride + k) →
            mem a = dest a).
Proof. exact (unpack_subrect_memory dest source mode s0 in_stride out_stride). Qed.

Lemma unpack_subrect_rows_witness :
  ∃ mem, unpack_subrect (frame []) (frame [Byte.x01; Byte.x02; Byte.x03; Byte.x04; Byte.x05;
                                           Byte.x06; Byte.x07; Byte.x08])
           {| mode_width := 4; mode_height := 2; mode_fourcc := multichar "Y" "8" " " " ";
              streams := [ {| stream_width := 3; stream_height := 2;
                              stream_format := RS_FORMAT_Y8 |} ] |} = Returns mem
    ∧ mem (1 * 3 + 2) = Byte.x07.
Proof.
  destruct (unpack_subrect_rows (frame [])
              (frame [Byte.x01; Byte.x02; Byte.x03; Byte.x04; Byte.x05; Byte.x06; Byte.x07;
                      Byte.x08])
              {| mode_width := 4; mode_height := 2; mode_fourcc := multichar "Y" "8" " " " ";
                 streams := [ {| stream_width := 3; stream_height := 2;
                                 stream_format := RS_FORMAT_Y8 |} ] |}
              {| stream_width := 3; stream_height := 2; stream_format := RS_FORMAT_Y8 |} 4 3
              eq_refl eq_refl eq_refl) as (mem & Hmem & Hrows & _).
  exists mem. split; [exact Hmem|].
  apply (Hrows 1 2); cbn; lia.
Defined.

Lemma get_image_size_fourcc_returned w h tag :
  returned (get_image_size_fourcc w h tag)
  ↔ ∃ f, f ∈ formats ∧ fourcc f = tag ∧ Z.rem w (macropixel_width f) = 0.
Proof.
  unfold returned, get_image_size_fourcc. split.
  - intros [s Hs]. destruct (decide (tag ∈ fourcc <$> formats)) as [Hin | Hnin].
    + apply list_elem_of_fmap in Hin as (f & -> & Hf). exists f. split; [exact Hf|].
      split; [reflexivity|].
      rewrite (get_image_size_loop_known _ _ _ _ formats_NoDup Hf) in Hs.
      destruct (Z.eqb_spec (Z.rem w (macropixel_width f)) 0); [assumption | discriminate].
    + rewrite (get_image_size_loop_unknown _ _ _ _ Hnin) in Hs. discriminate.
  - intros (f & Hf & <- & Hr).
    rewrite (get_image_size_loop_known _ _ _ _ formats_NoDup Hf), Hr. cbn. eauto.
Qed.

(** X3. [unpack_subrect] returns exactly when the mode has one stream, the
    FourCC of the mode is in the table of the size oracle, the width of the
    mode is a multiple of the macropixel width of that FourCC, and the width
    of the stream is even if its format is YUYV; otherwise it fails on an
    assertion, its own or one of the size oracle. *)
Theorem unpack_subrect_returns_iff (dest source : memory) (mode : subdevice_mode) :
  returned (unpack_subrect dest source mode)
  ↔ ∃ s0 f, streams mode = [s0] ∧ f ∈ formats ∧ fourcc f = mode_fourcc mode
            ∧ Z.rem (mode_width mode) (macropixel_width f) = 0
            ∧ (stream_format s0 = RS_FORMAT_YUYV → Z.rem (stream_width s0) 2 = 0).
Proof.
  unfold unpack_subrect. split.
  - intros [mem Hmem]. destruct (streams mode) as [|s0 [|s1 rest]]; try discriminate.
    destruct (get_image_size_fourcc _ 1 _) as [in_stride|] eqn:Hin; [|discriminate].
    destruct (get_image_size _ 1 _) as [out_stride|] eqn:Hout; [|discriminate].
    assert (returned (get_image_size_fourcc (mode_width mode) 1 (mode_fourcc mode))) as Hr
      by (rewrite Hin; unfold returned; eauto).
    apply get_image_size_fourcc_returned in Hr as (f & Hf & Htag & Hrem).
    exists s0, f. repeat split; try assumption.
    intros Hy. rewrite Hy in Hout. cbn in Hout.
    destruct (Z.eqb_spec (Z.rem (stream_width s0) 2) 0); [assumption | discriminate].
  - intros (s0 & f & -> & Hf & Htag & Hrem & Heven).
    assert (returned (get_image_size_fourcc (mode_width mode) 1 (mode_fourcc mode)))
      as [in_stride ->] by (apply get_image_size_fourcc_returned; eauto).
    assert (returned (get_image_size (stream_width s0) 1 (stream_format s0)))
      as [out_stride ->].
    { unfold returned, get_image_size. destruct (stream_format s0); eauto.
      rewrite Heven by reflexivity. cbn. eauto. }
    unfold returned. eauto.
Qed.

(** X4. When the stream has the size of the mode and its format holds the
    same bytes as the FourCC (Z16, Y8, Y16, or YUYV with YUY2 at an even
    width), [unpack_subrect] copies the frame: the first
    [width * height * bytes per pixel] bytes of the output are those of the
    input, and the bytes after them are left as they were. *)
Theorem unpack_subrect_same_layout (dest source : memory) (w h : Z) (fmt : rs_format)
    (tag bpp : Z) :
  (fmt, tag, bpp) ∈ same_layout →
  0 ≤ w → w * bpp ≤ INT_MAX → 0 ≤ h → (fmt = RS_FORMAT_YUYV → (2 | w)) →
  ∃ mem, unpack_subrect dest source (single tag w h fmt) = Returns mem
    ∧ ∀ a, mem a = if bool_decide (0 ≤ a < w * h * bpp) then source a else dest a.
Proof.
  intros Hl Hw Hfit Hh Heven.
  destruct (same_layout_format fmt tag bpp Hl) as (f & Hf & Htag & Hms & Hmw & Hbpp).
  unfold INT_MAX in *.
  assert (get_image_size w 1 fmt = Returns (w * bpp)) as Hout.
  { rewrite (get_image_size_same_layout w 1 fmt tag bpp Hl).
    pose proof (Z.rem_divide w 2 ltac:(lia)) as Hdiv.
    rewrite decide_False by (intros [Hy Hr]; apply Hr, Hdiv, Heven, Hy).
    unfold size_t, to_unsigned. rewrite Z.mod_small by nia. f_equal. lia. }
  assert (get_image_size_fourcc w 1 tag = Returns (w * bpp)) as Hin.
  { assert ((macropixel_width f | w)) as Hmul.
    { rewrite Hmw. destruct (decide (fmt = RS_FORMAT_YUYV)); [auto | apply Z.divide_1_l]. }
    rewrite <- Htag, (get_image_size_fourcc_known w 1 f Hf Hmul) by (unfold INT_MAX; nia).
    f_equal. rewrite Hms. destruct Hmul as [q ->].
    rewrite Z.div_mul by (rewrite Hmw; destruct (decide _); lia). lia. }
  destruct (unpack_subrect_memory dest source (single tag w h fmt)
              {| stream_width := w; stream_height := h; stream_format := fmt |}
              (w * bpp) (w * bpp) eq_refl Hin Hout) as (mem & Hmem & Hrows & Hrest).
  exists mem. split; [exact Hmem|]. cbn [mode_height stream_height single] in Hrows, Hrest.
  rewrite Z.min_id in Hrows, Hrest. rewrite Z.min_id in Hrows, Hrest.
  intros a. case_bool_decide as Ha.
  - assert (0 < w * bpp) as Hpos by nia.
    pose proof (Z.div_mod a (w * bpp) ltac:(lia)) as Hdm.
    pose proof (Z.mod_pos_bound a (w * bpp) Hpos) as Hmod.
    assert (0 ≤ a `div` (w * bpp) < h) as Hq.
    { split; [apply Z.div_pos; lia|]. apply Z.div_lt_upper_bound; nia. }
    specialize (Hrows (a `div` (w * bpp)) (a `mod` (w * bpp)) Hq Hmod).
    replace (a `div` (w * bpp) * (w * bpp) + a `mod` (w * bpp)) with a in Hrows by lia.
    exact Hrows.
  - apply Hrest. intros y k Hy Hk ->. apply Ha. nia.
Qed.

Lemma unpack_subrect_same_layout_witness :
  ∃ mem, unpack_subrect (frame []) (frame [Byte.x01; Byte.x02; Byte.x03; Byte.x04])
           (single (multichar "Z" "1" "6" " ") 2 1 RS_FORMAT_Z16) = Returns mem
    ∧ ∀ a, mem a = if bool_decide (0 ≤ a < 2 * 1 * 2)
                   then frame [Byte.x01; Byte.x02; Byte.x03; Byte.x04] a else frame [] a.
Proof.
  apply (unpack_subrect_same_layout (frame []) (frame [Byte.x01; Byte.x02; Byte.x03; Byte.x04])
           2 1 RS_FORMAT_Z16 (multichar "Z" "1" "6" " ") 2).
  - unfold same_layout. rewrite !elem_of_cons. tauto.
  - lia.
  - unfold INT_MAX. lia.
  - lia.
  - discriminate.
Defined.

(** ** The sub-rectangle that the codecs read *)

Lemma elements_read_S (i : nat) (n margin : Z) :
  elements_read (Z.of_nat (S i)) n margin
  = elements_read (Z.of_nat i) n margin ++ seqZ (Z.of_nat i * (n + margin)) n.
Proof.
  unfold elements_read. rewrite seqZ_S, bind_app. cbn. rewrite app_nil_r, Z.add_0_l. reflexivity.
Qed.

Lemma elements_read_length (rows n margin : Z) :
  0 ≤ rows → 0 ≤ n → length (elements_read rows n margin) = Z.to_nat (rows * n).
Proof.
  intros Hrows Hn. rewrite <- (Z2Nat.id rows Hrows). generalize (Z.to_nat rows) as i.
  intros i. induction i as [|i IH]; [reflexivity|].
  rewrite elements_read_S, length_app, IH, length_seqZ. nia.
Qed.

Lemma elements_read_lookup (rows n margin x y : Z) :
  0 ≤ x < n → 0 ≤ y < rows →
  elements_read rows n margin !! Z.to_nat (y * n + x) = Some (y * (n + margin) + x).
Proof.
  intros Hx Hy. assert (0 ≤ rows) as Hrows by lia.
  rewrite <- (Z2Nat.id rows Hrows) in Hy |- *. revert Hy. generalize (Z.to_nat rows) as i.
  intros i. induction i as [|i IH]; intros Hy; [lia|].
  rewrite elements_read_S.
  destruct (decide (y < Z.of_nat i)) as [Hlt | Hge].
  - rewrite lookup_app_l by (rewrite elements_read_length by lia; nia). apply IH. lia.
  - assert (y = Z.of_nat i) as -> by lia.
    rewrite lookup_app_r by (rewrite elements_read_length by lia; nia).
    rewrite elements_read_length by lia.
    replace (Z.to_nat (Z.of_nat i * n + x) - Z.to_nat (Z.of_nat i * n))%nat
      with (Z.to_nat x) by nia.
    rewrite lookup_seqZ_lt by lia. f_equal. lia.
Qed.

(** X5. [unpack_pixels], on a mode that passes its assertion with a stream
    of non-negative size: the output holds [width * height] elements of the
    stream, and its element [(x, y)] is [unpack] of the element [(x, y)] of
    the input frame, which is [mode.width] wide: the codec crops the
    top-left sub-rectangle. *)
Theorem unpack_pixels_crop {SOURCE OUT : Type} (mode : subdevice_mode) (s0 : stream_request)
    (source : Z → SOURCE) (fmt : rs_format) (unpack : SOURCE → OUT) :
  streams mode = [s0] →
  stream_width s0 ≤ mode_width mode → stream_height s0 ≤ mode_height mode →
  stream_format s0 = fmt →
  0 ≤ stream_width s0 → 0 ≤ stream_height s0 →
  ∃ out, unpack_pixels mode source fmt unpack = Returns out
    ∧ length out = Z.to_nat (stream_width s0 * stream_height s0)
    ∧ ∀ x y, 0 ≤ x < stream_width s0 → 0 ≤ y < stream_height s0 →
        out !! Z.to_nat (y * stream_width s0 + x)
        = Some (unpack (source (y * mode_width mode + x))).
Proof.
  intros Hs Hw Hh Hf Hsw Hsh. eexists. split; [apply unpack_pixels_returns; eassumption|].
  split.
  - rewrite length_fmap, elements_read_length by lia. f_equal. lia.
  - intros x y Hx Hy. rewrite list_lookup_fmap, elements_read_lookup by lia. cbn.
    do 3 f_equal. lia.
Qed.

Lemma unpack_pixels_crop_witness :
  ∃ out, unpack_y16_from_y8 (frame [Byte.x01; Byte.x02; Byte.x03; Byte.x04])
           {| mode_width := 2; mode_height := 2; mode_fourcc := multichar "Y" "8" " " " ";
              streams := [ {| stream_width := 1; stream_height := 2;
                              stream_format := RS_FORMAT_Y16 |} ] |} = Returns out
    ∧ out !! Z.to_nat (1 * 1 + 0) = Some (y16_from_y8 3).
Proof.
  destruct (unpack_pixels_crop
              {| mode_width := 2; mode_height := 2; mode_fourcc := multichar "Y" "8" " " " ";
                 streams := [ {| stream_width := 1; stream_height := 2;
                                 stream_format := RS_FORMAT_Y16 |} ] |}
              {| stream_width := 1; stream_height := 2; stream_format := RS_FORMAT_Y16 |}
              (as_uint8_t (frame [Byte.x01; Byte.x02; Byte.x03; Byte.x04]))
              RS_FORMAT_Y16 y16_from_y8)
    as (out & Hout & _ & Hpix); [reflexivity | cbn; lia | cbn; lia | reflexivity
                                | cbn; lia | cbn; lia |].
  exists out. split; [exact Hout|]. apply (Hpix 0 1); cbn; lia.
Defined.

(** ** Bit-depth expansion is lossless *)

Lemma lor_shiftl (lo hi k : Z) :
  0 ≤ k → 0 ≤ lo < 2 ^ k → Z.lor lo (Z.shiftl hi k) = lo + hi * 2 ^ k.
Proof.
  intros Hk Hlo. rewrite <- Z.shiftl_mul_pow2 by lia.
  rewrite <- (Z.add_lor_land lo (Z.shiftl hi k)).
  assert (Z.land lo (Z.shiftl hi k) = 0) as ->; [|lia].
  apply Z.bits_inj'. intros n Hn. rewrite Z.land_spec, Z.bits_0.
  destruct (Z.lt_ge_cases n k).
  - rewrite Z.shiftl_spec_low by lia. apply andb_false_r.
  - destruct (Z.eq_dec lo 0) as [-> | Hnz]; [rewrite Z.bits_0; reflexivity|].
    rewrite (Z.bits_above_log2 lo n); [reflexivity | lia | ].
    apply Z.lt_le_trans with k; [|lia]. apply Z.log2_lt_pow2; lia.
Qed.

Lemma as_uint16_t_value (s : memory) (k : Z) :
  as_uint16_t s k = u8 (s (2 * k)) + 256 * u8 (s (2 * k + 1)).
Proof.
  unfold as_uint16_t. pose proof (u8_range (s (2 * k))).
  rewrite lor_shiftl by lia. lia.
Qed.

(** X6. Bit-depth expansion loses nothing of its input. Every sample that
    [unpack_y16_from_y8] writes holds the input byte in both of its bytes,
    so the input frame is read back from the high bytes. A sample that
    [unpack_y16_from_y16_10] writes is the low ten bits of the input sample,
    times 64: the input frame is read back by a shift when its samples have
    ten bits, and the six high bits of a wider input sample are dropped. *)
Theorem bit_depth_expansion_lossless (source : memory) (mode : subdevice_mode)
    (s0 : stream_request) :
  streams mode = [s0] → stream_width s0 ≤ mode_width mode →
  stream_height s0 ≤ mode_height mode → stream_format s0 = RS_FORMAT_Y16 →
  (∃ out, unpack_y16_from_y8 source mode = Returns out
     ∧ (λ v, Z.shiftr v 8) <$> out
       = as_uint8_t source <$> elements_read (stream_height s0) (stream_width s0)
                                 (mode_width mode - stream_width s0)
     ∧ (λ v, Z.land v 255) <$> out = (λ v, Z.shiftr v 8) <$> out)
  ∧ (∃ out, unpack_y16_from_y16_10 source mode = Returns out
       ∧ out = (λ k, 64 * (as_uint16_t source k `mod` 2 ^ 10))
               <$> elements_read (stream_height s0) (stream_width s0)
                     (mode_width mode - stream_width s0)
       ∧ (Forall (λ k, as_uint16_t source k < 2 ^ 10)
            (elements_read (stream_height s0) (stream_width s0)
               (mode_width mode - stream_width s0)) →
          (λ v, Z.shiftr v 6) <$> out
          = as_uint16_t source <$> elements_read (stream_height s0) (stream_width s0)
                                     (mode_width mode - stream_width s0))).
Proof.
  intros Hs Hw Hh Hf. split.
  - eexists. split; [apply unpack_pixels_returns; eassumption|].
    rewrite <- !list_fmap_compose. split; apply list_fmap_ext; intros i k _; cbn;
      unfold as_uint8_t; pose proof (u8_range (source k)) as Hb;
      rewrite y16_from_y8_257 by lia;
      try (change 255 with (Z.ones 8); rewrite Z.land_ones by lia);
      rewrite !Z.shiftr_div_pow2 by lia;
      change (2 ^ 8) with 256; Z.div_mod_to_equations; lia.
  - eexists. split; [apply unpack_pixels_returns; eassumption|].
    assert (∀ p, 0 ≤ p < 2 ^ 16 → y16_from_y16_10 p = 64 * (p `mod` 2 ^ 10)) as Hlow.
    { intros p Hp. unfold y16_from_y16_10, uint16_t, to_unsigned.
      rewrite Z.shiftl_mul_pow2 by lia.
      replace (2 ^ 16) with (2 ^ 6 * 2 ^ 10) by lia.
      rewrite (Z.mul_comm p), Z.mul_mod_distr_l by lia. lia. }
    assert (∀ k, 0 ≤ as_uint16_t source k < 2 ^ 16) as Hrange.
    { intros k. rewrite as_uint16_t_value.
      pose proof (u8_range (source (2 * k))). pose proof (u8_range (source (2 * k + 1))). lia. }
    split.
    + apply list_fmap_ext. intros i k _. cbn. apply Hlow, Hrange.
    + intros H10. rewrite <- list_fmap_compose. apply list_fmap_ext. intros i k Hk. cbn.
      rewrite Hlow by apply Hrange. rewrite list.Forall_forall in H10.
      specialize (H10 k (list_elem_of_lookup_2 _ _ _ Hk)). specialize (Hrange k).
      rewrite Z.mod_small by lia. rewrite Z.shiftr_div_pow2 by lia.
      change (2 ^ 6) with 64. Z.div_mod_to_equations. lia.
Qed.

Lemma bit_depth_expansion_lossless_witness :
  (∃ out, unpack_y16_from_y8 (frame [Byte.xab]) (single (multichar "Y" "8" " " " ") 1 1
                                                   RS_FORMAT_Y16) = Returns out
     ∧ (λ v, Z.shiftr v 8) <$> out = [0xab])
  ∧ (∃ out, unpack_y16_from_y16_10 (frame [Byte.xff; Byte.x03])
              (single (multichar "Y" "1" "6" " ") 1 1 RS_FORMAT_Y16) = Returns out
       ∧ (λ v, Z.shiftr v 6) <$> out = [1023]).
Proof.
  destruct (bit_depth_expansion_lossless (frame [Byte.xab])
              (single (multichar "Y" "8" " " " ") 1 1 RS_FORMAT_Y16)
              {| stream_width := 1; stream_height := 1; stream_format := RS_FORMAT_Y16 |})
    as [(out8 & H8 & Hhigh & _) _]; [reflexivity | cbn; lia | cbn; lia | reflexivity |].
  destruct (bit_depth_expansion_lossless (frame [Byte.xff; Byte.x03])
              (single (multichar "Y" "1" "6" " ") 1 1 RS_FORMAT_Y16)
              {| stream_width := 1; stream_height := 1; stream_format := RS_FORMAT_Y16 |})
    as [_ (out10 & H10 & _ & Hback)]; [reflexivity | cbn; lia | cbn; lia | reflexivity |].
  split.
  - exists out8. split; [exact H8 | exact Hhigh].
  - exists out10. split; [exact H10|]. apply Hback.
    apply (bool_decide_unpack _). vm_compute. exact I.
Defined.

(** ** YUY2 *)

Lemma unpack_from_yuy2_returns {OUT : Type} (source : memory) (mode : subdevice_mode)
    (s0 : stream_request) (fmt : rs_format) (unpack : Z → Z → Z → OUT) :
  streams mode = [s0] →
  mode_fourcc mode = multichar "Y" "U" "Y" "2" →
  stream_width s0 ≤ mode_width mode → stream_height s0 ≤ mode_height mode →
  stream_format s0 = fmt →
  unpack_from_yuy2 source mode fmt unpack
  = Returns (k ← elements_read (stream_height s0) ((stream_width s0 + 1) `div` 2)
                   (mode_width mode - stream_width s0);
             [unpack (y0 (as_yuy2_macropixel source k) - 16)
                     (u (as_yuy2_macropixel source k) - 128)
                     (v (as_yuy2_macropixel source k) - 128);
              unpack (y1 (as_yuy2_macropixel source k) - 16)
                     (u (as_yuy2_macropixel source k) - 128)
                     (v (as_yuy2_macropixel source k) - 128)]).
Proof.
  intros Hs Hfcc Hw Hh Hf. unfold unpack_from_yuy2. rewrite Hs.
  rewrite bool_decide_eq_true_2 by auto.
  rewrite (for_loop_walk_rows (λ src out, out ++ [_; _])).
  cbn [snd]. rewrite emit_all_list. cbn [app].
  replace (stream_width s0 + 2 - 1) with (stream_width s0 + 1) by lia.
  rewrite elements_read_max. reflexivity.
Qed.

Lemma bind_pair_length {A B : Type} (f g : A → B) (xs : list A) :
  length (xs ≫= λ k, [f k; g k]) = (2 * length xs)%nat.
Proof. induction xs as [|x xs IH]; [reflexivity|]. rewrite bind_cons. cbn. rewrite IH. lia. Qed.

Lemma bind_pair_lookup {A B : Type} (f g : A → B) (xs : list A) (j : nat) :
  (xs ≫= λ k, [f k; g k]) !! (2 * j)%nat = f <$> xs !! j
  ∧ (xs ≫= λ k, [f k; g k]) !! (2 * j + 1)%nat = g <$> xs !! j.
Proof.
  revert j. induction xs as [|x xs IH]; intros j; [split; reflexivity|].
  rewrite bind_cons. destruct j as [|j].
  - split; reflexivity.
  - replace (2 * S j)%nat with (S (S (2 * j))) by lia.
    replace (S (S (2 * j)) + 1)%nat with (S (S (2 * j + 1))) by lia.
    cbn [app lookup list_lookup]. apply IH.
Qed.

(** X7. [unpack_from_yuy2], on a mode that passes its assertion with a
    stream of non-negative size, writes [2 * ((width + 1) / 2)] pixels for
    each row of the stream: [width] pixels when the width is even, one more
    when it is odd. Pixel [x] of row [y] of the output is [unpack] of the
    luma [y0] (even [x]) or [y1] (odd [x]) and of the chroma of the
    macropixel [y * ((width + 1) / 2 + (mode.width - width)) + x / 2] of
    the input. For even widths and a row after the first, that is the
    macropixel of the pixel [(x, y)] of the input frame only when the stream
    is as wide as the mode. *)
Theorem unpack_from_yuy2_pixels {OUT : Type} (source : memory) (mode : subdevice_mode)
    (s0 : stream_request) (fmt : rs_format) (unpack : Z → Z → Z → OUT) :
  streams mode = [s0] →
  mode_fourcc mode = multichar "Y" "U" "Y" "2" →
  stream_width s0 ≤ mode_width mode → stream_height s0 ≤ mode_height mode →
  stream_format s0 = fmt →
  0 ≤ stream_width s0 → 0 ≤ stream_height s0 →
  let n := (stream_width s0 + 1) `div` 2 in
  let stride := n + (mode_width mode - stream_width s0) in
  ∃ out, unpack_from_yuy2 source mode fmt unpack = Returns out
    ∧ length out = Z.to_nat (2 * n * stream_height s0)
    ∧ (∀ x y, 0 ≤ x < 2 * n → 0 ≤ y < stream_height s0 →
         let m := as_yuy2_macropixel source (y * stride + x `div` 2) in
         out !! Z.to_nat (y * (2 * n) + x)
         = Some (unpack ((if Z.even x then y0 m else y1 m) - 16) (u m - 128) (v m - 128)))
    ∧ 2 * n = (if Z.even (stream_width s0) then stream_width s0 else stream_width s0 + 1)
    ∧ (∀ x y, Z.even (stream_width s0) = true → Z.even (mode_width mode) = true → 0 < y →
         y * stride + x `div` 2 = y * (mode_width mode `div` 2) + x `div` 2
         ↔ stream_width s0 = mode_width mode).
Proof.
  intros Hs Hfcc Hw Hh Hf Hsw Hsh n stride.
  assert (0 ≤ n) as Hn by (apply Z.div_pos; lia).
  eexists. split; [apply unpack_from_yuy2_returns; eassumption|]. fold n.
  split; [|split; [|split]].
  - rewrite bind_pair_length, elements_read_length by lia. nia.
  - intros x y Hx Hy m.
    assert (0 ≤ x `div` 2 < n) as Hq.
    { split; [apply Z.div_pos; lia | apply Z.div_lt_upper_bound; lia]. }
    pose proof (elements_read_lookup (stream_height s0) n
                  (mode_width mode - stream_width s0) (x `div` 2) y Hq Hy) as Hread.
    fold stride in Hread.
    pose proof (bind_pair_lookup
                  (λ k, unpack (y0 (as_yuy2_macropixel source k) - 16)
                               (u (as_yuy2_macropixel source k) - 128)
                               (v (as_yuy2_macropixel source k) - 128))
                  (λ k, unpack (y1 (as_yuy2_macropixel source k) - 16)
                               (u (as_yuy2_macropixel source k) - 128)
                               (v (as_yuy2_macropixel source k) - 128))
                  (elements_read (stream_height s0) n (mode_width mode - stream_width s0))
                  (Z.to_nat (y * n + x `div` 2))) as [Heven Hodd].
    rewrite Hread in Heven, Hodd. cbn in Heven, Hodd.
    pose proof (Z.div_mod x 2 ltac:(lia)) as Hdm.
    destruct (Z.even x) eqn:Hx2.
    + apply Z.even_spec in Hx2 as [q Hq2].
      replace (Z.to_nat (y * (2 * n) + x)) with (2 * Z.to_nat (y * n + x `div` 2))%nat
        by (Z.div_mod_to_equations; nia).
      exact Heven.
    + rewrite <- Z.negb_odd in Hx2. apply negb_false_iff, Z.odd_spec in Hx2 as [q Hq2].
      replace (Z.to_nat (y * (2 * n) + x)) with (2 * Z.to_nat (y * n + x `div` 2) + 1)%nat
        by (Z.div_mod_to_equations; nia).
      exact Hodd.
  - subst n. destruct (Z.even (stream_width s0)) eqn:He.
    + apply Z.even_spec in He as [q ->]. Z.div_mod_to_equations. lia.
    + rewrite <- Z.negb_odd in He. apply negb_false_iff, Z.odd_spec in He as [q ->].
      Z.div_mod_to_equations. lia.
  - intros x y He Hem Hy. subst stride n.
    apply Z.even_spec in He as [q Hq]. apply Z.even_spec in Hem as [q' Hq'].
    assert (∀ z, (2 * z + 1) `div` 2 = z) as Hhalf1
      by (clear; intros z; Z.div_mod_to_equations; lia).
    assert (∀ z, (2 * z) `div` 2 = z) as Hhalf
      by (clear; intros z; Z.div_mod_to_equations; lia).
    rewrite Hq, Hq', Hhalf1, Hhalf.
    split.
    + intros Heq. assert (y * (q' - q) = 0) as Hz by lia.
      apply Z.mul_eq_0 in Hz. lia.
    + intros Heq. assert (q = q') as -> by lia. lia.
Qed.

Lemma unpack_from_yuy2_pixels_witness :
  ∃ out, unpack_rgb_from_yuy2 (frame [Byte.x51; Byte.x5a; Byte.x10; Byte.xf0])
           (single (multichar "Y" "U" "Y" "2") 1 1 RS_FORMAT_RGB8) = Returns out
    ∧ length out = Z.to_nat (2 * ((1 + 1) `div` 2) * 1)
    ∧ out !! Z.to_nat (0 * (2 * ((1 + 1) `div` 2)) + 1)
      = Some {| b3_a := yuv_to_r (16 - 16) (90 - 128) (240 - 128);
                b3_b := yuv_to_g (16 - 16) (90 - 128) (240 - 128);
                b3_c := yuv_to_b (16 - 16) (90 - 128) (240 - 128) |}.
Proof.
  destruct (unpack_from_yuy2_pixels (frame [Byte.x51; Byte.x5a; Byte.x10; Byte.xf0])
              (single (multichar "Y" "U" "Y" "2") 1 1 RS_FORMAT_RGB8)
              {| stream_width := 1; stream_height := 1; stream_format := RS_FORMAT_RGB8 |}
              RS_FORMAT_RGB8
              (λ y u v, {| b3_a := yuv_to_r y u v; b3_b := yuv_to_g y u v;
                           b3_c := yuv_to_b y u v |}))
    as (out & Hout & Hlen & Hpix & _); [reflexivity | reflexivity | cbn; lia | cbn; lia
                                       | reflexivity | cbn; lia | cbn; lia |].
  exists out. split; [exact Hout|]. split; [exact Hlen|].
  apply (Hpix 1 0); [split; [lia | reflexivity] | cbn; lia].
Defined.

Lemma clamp_byte_range x : 0 ≤ clamp_byte x ≤ 255.
Proof. rewrite clamp_byte_clamp. unfold clamp. lia. Qed.

(** X8. The four YUY2 codecs agree on a geometry that passes their
    assertion: BGR8 is RGB8 with the first and last channels exchanged,
    RGBA8 is RGB8 with an alpha of 255, BGRA8 is both; every channel
    written is a byte. *)
Theorem yuy2_channel_orders (source : memory) (mode : subdevice_mode) (s0 : stream_request) :
  streams mode = [s0] →
  mode_fourcc mode = multichar "Y" "U" "Y" "2" →
  stream_width s0 ≤ mode_width mode → stream_height s0 ≤ mode_height mode →
  ∃ rgb, unpack_rgb_from_yuy2 source (with_format RS_FORMAT_RGB8 mode) = Returns rgb
    ∧ unpack_bgr_from_yuy2 source (with_format RS_FORMAT_BGR8 mode) = Returns (swap_rb <$> rgb)
    ∧ unpack_rgba_from_yuy2 source (with_format RS_FORMAT_RGBA8 mode)
      = Returns (with_alpha <$> rgb)
    ∧ unpack_bgra_from_yuy2 source (with_format RS_FORMAT_BGRA8 mode)
      = Returns ((λ p, with_alpha (swap_rb p)) <$> rgb)
    ∧ Forall (λ p, 0 ≤ b3_a p ≤ 255 ∧ 0 ≤ b3_b p ≤ 255 ∧ 0 ≤ b3_c p ≤ 255) rgb.
Proof.
  intros Hs Hfcc Hw Hh.
  assert (∀ (OUT : Type) (fmt : rs_format) (unpack : Z → Z → Z → OUT),
            unpack_from_yuy2 source (with_format fmt mode) fmt unpack
            = Returns (k ← elements_read (stream_height s0) ((stream_width s0 + 1) `div` 2)
                             (mode_width mode - stream_width s0);
                       [unpack (y0 (as_yuy2_macropixel source k) - 16)
                               (u (as_yuy2_macropixel source k) - 128)
                               (v (as_yuy2_macropixel source k) - 128);
                        unpack (y1 (as_yuy2_macropixel source k) - 16)
                               (u (as_yuy2_macropixel source k) - 128)
                               (v (as_yuy2_macropixel source k) - 128)])) as Hret.
  { intros OUT fmt unpack.
    apply (unpack_from_yuy2_returns source (with_format fmt mode)
             {| stream_width := stream_width s0; stream_height := stream_height s0;
                stream_format := fmt |} fmt unpack).
    - unfold with_format. cbn. rewrite Hs. reflexivity.
    - exact Hfcc.
    - exact Hw.
    - exact Hh.
    - reflexivity. }
  eexists. split; [apply Hret|].
  unfold unpack_bgr_from_yuy2, unpack_rgba_from_yuy2, unpack_bgra_from_yuy2.
  rewrite !Hret, !fmap_bind.
  split; [reflexivity|]. split; [reflexivity|]. split; [reflexivity|].
  apply list.Forall_forall. intros p Hp.
  apply list_elem_of_bind in Hp as (k & Hp & _).
  rewrite !elem_of_cons, elem_of_nil in Hp.
  destruct Hp as [-> | [-> | []]]; cbn; unfold yuv_to_r, yuv_to_g, yuv_to_b;
    repeat split; apply clamp_byte_range.
Qed.

Lemma yuy2_channel_orders_witness :
  ∃ rgb, unpack_rgb_from_yuy2 (frame [Byte.x51; Byte.x5a; Byte.x51; Byte.xf0])
           (with_format RS_FORMAT_RGB8 (single (multichar "Y" "U" "Y" "2") 2 1 RS_FORMAT_Y8))
         = Returns rgb
    ∧ unpack_bgr_from_yuy2 (frame [Byte.x51; Byte.x5a; Byte.x51; Byte.xf0])
        (with_format RS_FORMAT_BGR8 (single (multichar "Y" "U" "Y" "2") 2 1 RS_FORMAT_Y8))
      = Returns (swap_rb <$> rgb).
Proof.
  destruct (yuy2_channel_orders (frame [Byte.x51; Byte.x5a; Byte.x51; Byte.xf0])
              (single (multichar "Y" "U" "Y" "2") 2 1 RS_FORMAT_Y8)
              {| stream_width := 2; stream_height := 1; stream_format := RS_FORMAT_Y8 |})
    as (rgb & Hrgb & Hbgr & _); [reflexivity | reflexivity | cbn; lia | cbn; lia |].
  exists rgb. split; assumption.
Defined.

(** ** The splits of interleaved frames *)

Lemma split_frame_returns {SOURCE A B : Type} (mode : subdevice_mode) (s0 s1 : stream_request)
    (source : Z → SOURCE) (fourcc_ : Z) (format_a format_b : rs_format)
    (split_a : SOURCE → A) (split_b : SOURCE → B) :
  streams mode = [s0; s1] → mode_fourcc mode = fourcc_ →
  stream_format s0 = format_a → stream_format s1 = format_b →
  stream_width s0 = stream_width s1 → stream_height s0 = stream_height s1 →
  stream_width s0 ≤ mode_width mode → stream_height s0 ≤ mode_height mode →
  split_frame mode source fourcc_ format_a format_b split_a split_b
  = Returns ((λ k, split_a (source k))
             <$> elements_read (stream_height s0) (stream_width s0)
                   (mode_width mode - stream_width s0),
             (λ k, split_b (source k))
             <$> elements_read (stream_height s0) (stream_width s0)
                   (mode_width mode - stream_width s0)).
Proof.
  intros Hs Hfcc Hfa Hfb Hw Hh Hwm Hhm. unfold split_frame. rewrite Hs.
  rewrite bool_decide_eq_true_2 by auto 10.
  rewrite (for_loop_walk_rows
             (λ src ab, (ab.1 ++ [split_a (source src)], ab.2 ++ [split_b (source src)]))).
  cbn [snd]. rewrite emit_all_pair. cbn [app fst snd].
  replace ((stream_width s0 + 1 - 1) `div` 1) with (stream_width s0)
    by (rewrite Z.div_1_r; lia).
  rewrite elements_read_max, !bind_singleton_fmap. reflexivity.
Qed.

(** X9. [split_frame], on a mode that passes its assertion with streams of
    non-negative size: the two planes hold [width * height] elements each,
    and the element [(x, y)] of plane 0 is [split_a], that of plane 1
    [split_b], of the element [(x, y)] of the input frame, which is
    [mode.width] wide. *)
Theorem split_frame_crop {SOURCE A B : Type} (mode : subdevice_mode) (s0 s1 : stream_request)
    (source : Z → SOURCE) (fourcc_ : Z) (format_a format_b : rs_format)
    (split_a : SOURCE → A) (split_b : SOURCE → B) :
  streams mode = [s0; s1] → mode_fourcc mode = fourcc_ →
  stream_format s0 = format_a → stream_format s1 = format_b →
  stream_width s0 = stream_width s1 → stream_height s0 = stream_height s1 →
  stream_width s0 ≤ mode_width mode → stream_height s0 ≤ mode_height mode →
  0 ≤ stream_width s0 → 0 ≤ stream_height s0 →
  ∃ a b, split_frame mode source fourcc_ format_a format_b split_a split_b = Returns (a, b)
    ∧ length a = Z.to_nat (stream_width s0 * stream_height s0)
    ∧ length b = Z.to_nat (stream_width s0 * stream_height s0)
    ∧ ∀ x y, 0 ≤ x < stream_width s0 → 0 ≤ y < stream_height s0 →
        a !! Z.to_nat (y * stream_width s0 + x)
        = Some (split_a (source (y * mode_width mode + x)))
        ∧ b !! Z.to_nat (y * stream_width s0 + x)
          = Some (split_b (source (y * mode_width mode + x))).
Proof.
  intros Hs Hfcc Hfa Hfb Hw Hh Hwm Hhm Hsw Hsh.
  eexists _, _. split; [apply (split_frame_returns mode s0 s1); assumption|].
  rewrite !length_fmap, elements_read_length by lia.
  split; [f_equal; lia|]. split; [f_equal; lia|].
  intros x y Hx Hy. rewrite !list_lookup_fmap, elements_read_lookup by lia. cbn.
  replace (y * (stream_width s0 + (mode_width mode - stream_width s0)) + x)
    with (y * mode_width mode + x) by lia.
  split; reflexivity.
Qed.

Lemma split_frame_crop_witness :
  ∃ a b, unpack_y8_y8_from_y8i (frame [Byte.x01; Byte.x02; Byte.x03; Byte.x04])
           {| mode_width := 2; mode_height := 1; mode_fourcc := multichar "Y" "8" "I" " ";
              streams := [ {| stream_width := 1; stream_height := 1;
                              stream_format := RS_FORMAT_Y8 |};
                           {| stream_width := 1; stream_height := 1;
                              stream_format := RS_FORMAT_Y8 |} ] |} = Returns (a, b)
    ∧ length a = 1%nat ∧ length b = 1%nat.
Proof.
  destruct (split_frame_crop
              {| mode_width := 2; mode_height := 1; mode_fourcc := multichar "Y" "8" "I" " ";
                 streams := [ {| stream_width := 1; stream_height := 1;
                                 stream_format := RS_FORMAT_Y8 |};
                              {| stream_width := 1; stream_height := 1;
                                 stream_format := RS_FORMAT_Y8 |} ] |}
              {| stream_width := 1; stream_height := 1; stream_format := RS_FORMAT_Y8 |}
              {| stream_width := 1; stream_height := 1; stream_format := RS_FORMAT_Y8 |}
              (as_y8i_pixel (frame [Byte.x01; Byte.x02; Byte.x03; Byte.x04]))
              (multichar "Y" "8" "I" " ") RS_FORMAT_Y8 RS_FORMAT_Y8
              (λ p, y8i_l p) (λ p, y8i_r p))
    as (a & b & Hab & Ha & Hb & _);
    [reflexivity | reflexivity | reflexivity | reflexivity | reflexivity | reflexivity
    | cbn; lia | cbn; lia | cbn; lia | cbn; lia |].
  exists a, b. split; [exact Hab|]. split; [exact Ha | exact Hb].
Defined.

(** X10. [unpack_y8_y8_from_y8i] de-interleaves: on a mode that passes the
    assertion, the pixel [(x, y)] of the left plane is the byte
    [2 * (y * mode.width + x)] of the input and that of the right plane is
    the byte after it, so that the two planes hold every byte of the
    sub-rectangle once. *)
Theorem unpack_y8_y8_from_y8i_bytes (source : memory) (mode : subdevice_mode)
    (s0 s1 : stream_request) :
  streams mode = [s0; s1] → mode_fourcc mode = multichar "Y" "8" "I" " " →
  stream_format s0 = RS_FORMAT_Y8 → stream_format s1 = RS_FORMAT_Y8 →
  stream_width s0 = stream_width s1 → stream_height s0 = stream_height s1 →
  stream_width s0 ≤ mode_width mode → stream_height s0 ≤ mode_height mode →
  0 ≤ stream_width s0 → 0 ≤ stream_height s0 →
  ∃ left right, unpack_y8_y8_from_y8i source mode = Returns (left, right)
    ∧ ∀ x y, 0 ≤ x < stream_width s0 → 0 ≤ y < stream_height s0 →
        left !! Z.to_nat (y * stream_width s0 + x)
        = Some (u8 (source (2 * (y * mode_width mode + x))))
        ∧ right !! Z.to_nat (y * stream_width s0 + x)
          = Some (u8 (source (2 * (y * mode_width mode + x) + 1))).
Proof.
  intros Hs Hfcc Hfa Hfb Hw Hh Hwm Hhm Hsw Hsh.
  eexists _, _. split; [apply (split_frame_returns mode s0 s1); assumption|].
  intros x y Hx Hy. rewrite !list_lookup_fmap, elements_read_lookup by lia. cbn.
  replace (y * (stream_width s0 + (mode_width mode - stream_width s0)) + x)
    with (y * mode_width mode + x) by lia.
  split; reflexivity.
Qed.

Lemma unpack_y8_y8_from_y8i_bytes_witness :
  ∃ left right, unpack_y8_y8_from_y8i (frame [Byte.x01; Byte.x02])
                  (dual (multichar "Y" "8" "I" " ") 1 1 RS_FORMAT_Y8 RS_FORMAT_Y8)
                = Returns (left, right)
    ∧ left !! Z.to_nat (0 * 1 + 0) = Some 1 ∧ right !! Z.to_nat (0 * 1 + 0) = Some 2.
Proof.
  destruct (unpack_y8_y8_from_y8i_bytes (frame [Byte.x01; Byte.x02])
              (dual (multichar "Y" "8" "I" " ") 1 1 RS_FORMAT_Y8 RS_FORMAT_Y8)
              {| stream_width := 1; stream_height := 1; stream_format := RS_FORMAT_Y8 |}
              {| stream_width := 1; stream_height := 1; stream_format := RS_FORMAT_Y8 |})
    as (left & right & Hlr & Hpix);
    [reflexivity | reflexivity | reflexivity | reflexivity | reflexivity | reflexivity
    | cbn; lia | cbn; lia | cbn; lia | cbn; lia |].
  exists left, right. split; [exact Hlr|]. apply (Hpix 0 0); cbn; lia.
Defined.

(** X11. The two INRI codecs, on a mode that passes the assertion: the
    depth plane is the little-endian 16-bit value of the first two bytes of
    each 3-byte pixel, unchanged; the infrared plane is the third byte when
    it is written as Y8, and that byte times 257 (the byte in both halves
    of the sample) when it is written as Y16. *)
Theorem inri_planes (source : memory) (mode : subdevice_mode) (s0 s1 : stream_request) :
  streams mode = [s0; s1] → mode_fourcc mode = multichar "I" "N" "R" "I" →
  stream_format s0 = RS_FORMAT_Z16 →
  stream_width s0 = stream_width s1 → stream_height s0 = stream_height s1 →
  stream_width s0 ≤ mode_width mode → stream_height s0 ≤ mode_height mode →
  let pixels := elements_read (stream_height s0) (stream_width s0)
                  (mode_width mode - stream_width s0) in
  let depth := (λ k, u8 (source (3 * k)) + 256 * u8 (source (3 * k + 1))) <$> pixels in
  (stream_format s1 = RS_FORMAT_Y8 →
     unpack_z16_y8_from_inri source mode
     = Returns (depth, (λ k, u8 (source (3 * k + 2))) <$> pixels))
  ∧ (stream_format s1 = RS_FORMAT_Y16 →
     unpack_z16_y16_from_inri source mode
     = Returns (depth, (λ k, 257 * u8 (source (3 * k + 2))) <$> pixels)).
Proof.
  intros Hs Hfcc Hfa Hw Hh Hwm Hhm pixels depth.
  assert (∀ k, z16 (as_inri_pixel source k)
               = u8 (source (3 * k)) + 256 * u8 (source (3 * k + 1))) as Hz.
  { intros k. cbn. pose proof (u8_range (source (3 * k))). rewrite lor_shiftl by lia. lia. }
  split; intros Hfb.
  - unfold unpack_z16_y8_from_inri.
    rewrite (split_frame_returns mode s0 s1) by assumption. fold pixels. do 2 f_equal.
    apply list_fmap_ext. intros i k _. apply Hz.
  - unfold unpack_z16_y16_from_inri.
    rewrite (split_frame_returns mode s0 s1) by assumption. fold pixels. f_equal. f_equal.
    + apply list_fmap_ext. intros i k _. apply Hz.
    + apply list_fmap_ext. intros i k _.
      pose proof (u8_range (source (3 * k + 2))) as Hb.
      rewrite <- (y16_from_y8_257 (u8 (source (3 * k + 2)))) by lia. reflexivity.
Qed.

Lemma inri_planes_witness :
  unpack_z16_y8_from_inri (frame [Byte.x34; Byte.x12; Byte.x7f])
    (dual (multichar "I" "N" "R" "I") 1 1 RS_FORMAT_Z16 RS_FORMAT_Y8)
  = Returns ([0x1234], [0x7f])
  ∧ unpack_z16_y16_from_inri (frame [Byte.x34; Byte.x12; Byte.x7f])
      (dual (multichar "I" "N" "R" "I") 1 1 RS_FORMAT_Z16 RS_FORMAT_Y16)
    = Returns ([0x1234], [0x7f7f]).
Proof.
  split.
  - apply (inri_planes (frame [Byte.x34; Byte.x12; Byte.x7f])
             (dual (multichar "I" "N" "R" "I") 1 1 RS_FORMAT_Z16 RS_FORMAT_Y8)
             {| stream_width := 1; stream_height := 1; stream_format := RS_FORMAT_Z16 |}
             {| stream_width := 1; stream_height := 1; stream_format := RS_FORMAT_Y8 |});
      [reflexivity | reflexivity | reflexivity | reflexivity | reflexivity
      | cbn; lia | cbn; lia | reflexivity].
  - apply (inri_planes (frame [Byte.x34; Byte.x12; Byte.x7f])
             (dual (multichar "I" "N" "R" "I") 1 1 RS_FORMAT_Z16 RS_FORMAT_Y16)
             {| stream_width := 1; stream_height := 1; stream_format := RS_FORMAT_Z16 |}
             {| stream_width := 1; stream_height := 1; stream_format := RS_FORMAT_Y16 |});
      [reflexivity | reflexivity | reflexivity | reflexivity | reflexivity
      | cbn; lia | cbn; lia | reflexivity].
Defined.

(** ** Y12I *)

(** X12. A Y12I pixel packs two 12-bit samples: [r()] is the low and [l()]
    the high 12 bits of the little-endian 24-bit word of its three bytes,
    so the two samples determine the bytes and the bytes the samples. *)
Theorem y12i_packs_two_12_bit_samples (b0 b1 b2 : byte) :
  let p := y12i_of_bytes b0 b1 b2 in
  0 ≤ r p < 2 ^ 12 ∧ 0 ≤ l p < 2 ^ 12
  ∧ u8 b0 + 2 ^ 8 * u8 b1 + 2 ^ 16 * u8 b2 = r p + 2 ^ 12 * l p
  ∧ r p = (u8 b0 + 2 ^ 8 * u8 b1) `mod` 2 ^ 12
  ∧ l p = (u8 b1 + 2 ^ 8 * u8 b2) `div` 2 ^ 4.
Proof.
  cbv zeta. unfold l, r. cbn [rl rh ll lh y12i_of_bytes].
  pose proof (u8_range b0). pose proof (u8_range b1). pose proof (u8_range b2).
  change 15 with (Z.ones 4). rewrite Z.land_ones, Z.shiftr_div_pow2 by lia.
  assert (0 ≤ u8 b1 `div` 2 ^ 4 < 2 ^ 4)
    by (split; [apply Z.div_pos; lia | apply Z.div_lt_upper_bound; lia]).
  pose proof (Z.mod_pos_bound (u8 b1) (2 ^ 4) ltac:(lia)).
  rewrite (Z.lor_comm (Z.shiftl (u8 b2) 4)), (Z.lor_comm (Z.shiftl (_ `mod` _) 8)).
  rewrite !lor_shiftl by lia.
  change (2 ^ 4) with 16 in *. change (2 ^ 8) with 256. change (2 ^ 12) with 4096.
  change (2 ^ 16) with 65536.
  repeat split; try (Z.div_mod_to_equations; lia).
Qed.

Lemma expand_10_to_16_value v :
  0 ≤ v < 2 ^ 10 → uint16_t (expand_10_to_16 v) = 64 * v + v `div` 16.
Proof.
  intros Hv.
  apply (checked_on_range (λ v, uint16_t (expand_10_to_16 v) = 64 * v + v `div` 16) (2 ^ 10));
    [|lia].
  vm_compute. reflexivity.
Qed.

(** X13. On 10-bit samples the expansion of the Y12I codec,
    [(v << 6) | (v >> 4)], is [64 * v + v / 16]: it is strictly increasing,
    and it is within one unit of [v * 65535 / 1023], which it is written to
    approximate. *)
Theorem y12i_expansion_approximates (p q : y12i_pixel) :
  0 ≤ l p < 2 ^ 10 → 0 ≤ l q < 2 ^ 10 → 0 ≤ r p < 2 ^ 10 → 0 ≤ r q < 2 ^ 10 →
  y12i_split_a p = 64 * l p + l p `div` 16
  ∧ y12i_split_b p = 64 * r p + r p `div` 16
  ∧ Z.abs (1023 * y12i_split_a p - 65535 * l p) < 1023
  ∧ Z.abs (1023 * y12i_split_b p - 65535 * r p) < 1023
  ∧ (l p < l q → y12i_split_a p < y12i_split_a q)
  ∧ (r p < r q → y12i_split_b p < y12i_split_b q).
Proof.
  intros Hlp Hlq Hrp Hrq. unfold y12i_split_a, y12i_split_b.
  change (Z.lor (Z.shiftl (l p) 6) (Z.shiftr (l p) 4)) with (expand_10_to_16 (l p)).
  change (Z.lor (Z.shiftl (l q) 6) (Z.shiftr (l q) 4)) with (expand_10_to_16 (l q)).
  change (Z.lor (Z.shiftl (r p) 6) (Z.shiftr (r p) 4)) with (expand_10_to_16 (r p)).
  change (Z.lor (Z.shiftl (r q) 6) (Z.shiftr (r q) 4)) with (expand_10_to_16 (r q)).
  rewrite !expand_10_to_16_value by assumption.
  assert (∀ v w, v < w → v `div` 16 ≤ w `div` 16) as Hmono
    by (intros v w Hvw; apply Z.div_le_mono; lia).
  assert (∀ v, 0 ≤ v < 2 ^ 10 → Z.abs (1023 * (64 * v + v `div` 16) - 65535 * v) < 1023)
    as Hnear by (clear; intros v Hv; Z.div_mod_to_equations; lia).
  split; [reflexivity|]. split; [reflexivity|].
  split; [apply Hnear; assumption|]. split; [apply Hnear; assumption|].
  split; intros Hlt; specialize (Hmono _ _ Hlt); lia.
Qed.

Lemma y12i_expansion_approximates_witness :
  y12i_split_a (y12i_of_bytes Byte.xff Byte.xf3 Byte.x3f) = 64 * 1023 + 1023 `div` 16
  ∧ y12i_split_a (y12i_of_bytes Byte.x00 Byte.x00 Byte.x20)
    < y12i_split_a (y12i_of_bytes Byte.xff Byte.xf3 Byte.x3f).
Proof.
  destruct (y12i_expansion_approximates (y12i_of_bytes Byte.xff Byte.xf3 Byte.x3f)
              (y12i_of_bytes Byte.x00 Byte.x00 Byte.x20))
    as (Ha & _); [vm_compute; intuition discriminate..|].
  destruct (y12i_expansion_approximates (y12i_of_bytes Byte.x00 Byte.x00 Byte.x20)
              (y12i_of_bytes Byte.xff Byte.xf3 Byte.x3f))
    as (_ & _ & _ & _ & Hlt & _); [vm_compute; intuition discriminate..|].
  split; [exact Ha|]. apply Hlt. reflexivity.
Defined.

(** ** The alignment functions: what they leave, what they read, and
       running them again *)

Lemma foldl_writes_provenance (src : Z → Z) (cs : list (Z * Z)) (out : Z → Z) (o : Z) :
  (∃ c, c ∈ cs ∧ c.2 = o) →
  ∃ c, c ∈ cs ∧ c.2 = o ∧ foldl (λ out c, <[c.2 := src c.1]> out) out cs o = src c.1.
Proof.
  induction cs as [|c cs IH] using rev_ind; intros (c0 & Hc0 & Ho).
  - apply elem_of_nil in Hc0 as [].
  - rewrite foldl_app. cbn. destruct (decide (c.2 = o)) as [Hc | Hc].
    + exists c. split; [apply elem_of_app; right; apply list_elem_of_singleton; reflexivity|].
      split; [exact Hc|]. rewrite <- Hc. apply fn_lookup_insert.
    + rewrite fn_lookup_insert_ne by exact Hc.
      apply elem_of_app in Hc0 as [Hc0 | Hc0].
      * destruct IH as (c' & Hc' & Ho' & Hv); [eauto|].
        exists c'. rewrite elem_of_app. auto.
      * apply list_elem_of_singleton in Hc0 as ->. contradiction.
Qed.

Lemma foldl_writes_ext (src src' : Z → Z) (cs : list (Z * Z)) (out out' : Z → Z) (o : Z) :
  (∀ c, c ∈ cs → src c.1 = src' c.1) → out o = out' o →
  foldl (λ out c, <[c.2 := src c.1]> out) out cs o
  = foldl (λ out c, <[c.2 := src' c.1]> out) out' cs o.
Proof.
  revert out out'. induction cs as [|c cs IH]; intros out out' Hsrc Hout; [exact Hout|].
  cbn. apply IH; [intros c' Hc'; apply Hsrc; right; exact Hc'|].
  destruct (decide (c.2 = o)) as [<- | Hc].
  - rewrite !fn_lookup_insert. apply Hsrc. left.
  - rewrite !fn_lookup_insert_ne by exact Hc. exact Hout.
Qed.

(** An index is written by no write of the list, or what it holds in the
    end does not depend on what is was before. *)
Lemma foldl_writes_cases (src : Z → Z) (cs : list (Z * Z)) (out out' : Z → Z) (o : Z) :
  (∀ c, c ∈ cs → c.2 ≠ o)
  ∨ foldl (λ out c, <[c.2 := src c.1]> out) out cs o
    = foldl (λ out c, <[c.2 := src c.1]> out) out' cs o.
Proof.
  induction cs as [|c cs IH] using rev_ind.
  - left. intros c Hc. apply elem_of_nil in Hc as [].
  - rewrite !foldl_app. cbn. destruct (decide (c.2 = o)) as [<- | Hc].
    + right. rewrite !fn_lookup_insert. reflexivity.
    + rewrite !fn_lookup_insert_ne by exact Hc. destruct IH as [IH | IH]; [left | right; exact IH].
      intros c' Hc'. apply elem_of_app in Hc' as [Hc' | Hc']; [exact (IH c' Hc')|].
      apply list_elem_of_singleton in Hc' as ->. exact Hc.
Qed.

Lemma store_bytes_outside (N : Z) (p : memory) (i : Z) (val : list byte) (a : Z) :
  ¬ (N * i ≤ a < N * i + N) → store_bytes N p i val a = p a.
Proof. intros Ha. unfold store_bytes. rewrite bool_decide_eq_false_2 by exact Ha. reflexivity. Qed.

Lemma store_bytes_inside (N : Z) (p src : memory) (i e k : Z) :
  0 ≤ k < N → store_bytes N p i (load_bytes N src e) (N * i + k) = src (N * e + k).
Proof.
  intros Hk. unfold store_bytes, load_bytes. rewrite bool_decide_eq_true_2 by lia.
  replace (N * i + k - N * i) with k by lia.
  rewrite list_lookup_fmap, (lookup_seqZ_lt 0 N (Z.to_nat k)) by lia. cbn.
  do 2 f_equal. lia.
Qed.

Lemma foldl_stores_outside (N : Z) (val : Z → list byte) (cs : list (Z * Z)) (out : memory)
    (a : Z) :
  (∀ c, c ∈ cs → ¬ (N * c.1 ≤ a < N * c.1 + N)) →
  foldl (λ out c, store_bytes N out c.1 (val c.2)) out cs a = out a.
Proof.
  revert out. induction cs as [|c cs IH]; intros out Hcs; [reflexivity|].
  cbn. rewrite IH by (intros c' Hc'; apply Hcs; right; exact Hc').
  apply store_bytes_outside, Hcs. left.
Qed.

Lemma foldl_stores_ext (N : Z) (val val' : Z → list byte) (cs : list (Z * Z))
    (out out' : memory) (a : Z) :
  (∀ c, c ∈ cs → val c.2 = val' c.2) → out a = out' a →
  foldl (λ out c, store_bytes N out c.1 (val c.2)) out cs a
  = foldl (λ out c, store_bytes N out c.1 (val' c.2)) out' cs a.
Proof.
  revert out out'. induction cs as [|c cs IH]; intros out out' Hval Hout; [exact Hout|].
  cbn. apply IH; [intros c' Hc'; apply Hval; right; exact Hc'|].
  unfold store_bytes. rewrite (Hval c) by left. case_bool_decide; [reflexivity | exact Hout].
Qed.

Lemma foldl_stores_cases (N : Z) (val : Z → list byte) (cs : list (Z * Z)) (out out' : memory)
    (a : Z) :
  (∀ c, c ∈ cs → ¬ (N * c.1 ≤ a < N * c.1 + N))
  ∨ foldl (λ out c, store_bytes N out c.1 (val c.2)) out cs a
    = foldl (λ out c, store_bytes N out c.1 (val c.2)) out' cs a.
Proof.
  induction cs as [|c cs IH] using rev_ind.
  - left. intros c Hc. apply elem_of_nil in Hc as [].
  - rewrite !foldl_app. cbn. unfold store_bytes at 1 3. case_bool_decide as Hc.
    + right. reflexivity.
    + destruct IH as [IH | IH]; [left | right; exact IH].
      intros c' Hc'. apply elem_of_app in Hc' as [Hc' | Hc']; [exact (IH c' Hc')|].
      apply list_elem_of_singleton in Hc' as ->. exact Hc.
Qed.

Lemma bind_ext_in {A B : Type} (f g : A → list B) (xs : list A) :
  (∀ x, x ∈ xs → f x = g x) → xs ≫= f = xs ≫= g.
Proof.
  induction xs as [|x xs IH]; intros Hfg; [reflexivity|].
  rewrite !bind_cons, (Hfg x) by left. f_equal. apply IH. intros x' Hx'. apply Hfg. right. exact Hx'.
Qed.

(** The kernel fetches the depth of the pixels of the depth image only. *)
Lemma raster_transfers_ext `{FA : float_arith} `{RU : !rsutil} (depth_intrin : rs_intrinsics)
    (depth_to_other : rs_extrinsics) (other_intrin : rs_intrinsics) (g g' : Z → float) :
  (∀ i, 0 ≤ i < width depth_intrin * height depth_intrin → g i = g' i) →
  raster_transfers depth_intrin depth_to_other other_intrin g
  = raster_transfers depth_intrin depth_to_other other_intrin g'.
Proof.
  intros Hg. unfold raster_transfers. apply bind_ext_in. intros y Hy.
  apply bind_ext_in. intros x Hx. apply elem_of_seqZ in Hy. apply elem_of_seqZ in Hx.
  unfold pixel_transfers, lands. rewrite Hg by nia. reflexivity.
Qed.

Lemma raster_transfers_inside `{FA : float_arith} `{RU : !rsutil} (depth_intrin : rs_intrinsics)
    (depth_to_other : rs_extrinsics) (other_intrin : rs_intrinsics) (g : Z → float) c :
  c ∈ raster_transfers depth_intrin depth_to_other other_intrin g →
  0 ≤ c.1 < width depth_intrin * height depth_intrin
  ∧ 0 ≤ c.2 < width other_intrin * height other_intrin.
Proof.
  intros Hc. apply elem_of_raster_transfers in Hc as (x & y & Hx & Hy & Hc).
  apply elem_of_pixel_transfers in Hc as [-> Hc].
  split; [nia | exact (lands_in_bounds _ _ _ _ _ _ _ Hc)].
Qed.

Section MorePolicies.
Context `{FA : float_arith} `{RU : !rsutil}.
Context (depth_pixels : Z → Z) (depth_scale : float).
Context (depth_intrin : rs_intrinsics) (depth_to_color : rs_extrinsics)
        (color_intrin : rs_intrinsics).

Local Abbreviation W := (width depth_intrin).
Local Abbreviation lands_at :=
  (lands depth_intrin depth_to_color color_intrin (scaled_depth depth_pixels depth_scale)).

(** X14. [align_depth_to_color] does not clear its destination. An index
    on which no depth pixel lands holds in the end what it held before,
    and so does every index outside the color image; an index on which
    some depth pixel lands holds the raw depth of a depth pixel that
    lands on it. *)
Theorem align_depth_to_color_holes (out : Z → Z) (o : Z) :
  let result := align_depth_to_color out depth_pixels depth_scale depth_intrin depth_to_color
                  color_intrin in
  ((∀ x y, 0 ≤ x < W → 0 ≤ y < height depth_intrin → lands_at x y ≠ Some o) →
     result o = out o)
  ∧ (¬ (0 ≤ o < width color_intrin * height color_intrin) → result o = out o)
  ∧ ((∃ x y, 0 ≤ x < W ∧ 0 ≤ y < height depth_intrin ∧ lands_at x y = Some o) →
     ∃ x y, 0 ≤ x < W ∧ 0 ≤ y < height depth_intrin ∧ lands_at x y = Some o
            ∧ result o = depth_pixels (y * W + x)).
Proof.
  cbv zeta. rewrite align_depth_to_color_raster.
  assert ((∀ x y, 0 ≤ x < W → 0 ≤ y < height depth_intrin → lands_at x y ≠ Some o) →
          foldl (λ out c, <[c.2 := depth_pixels c.1]> out) out
            (raster_transfers depth_intrin depth_to_color color_intrin
               (scaled_depth depth_pixels depth_scale)) o = out o) as Hhole.
  { intros Hnone. apply foldl_writes_untouched. intros c Hc Hco.
    apply elem_of_raster_transfers in Hc as (x & y & Hx & Hy & Hc).
    apply elem_of_pixel_transfers in Hc as [_ Hc]. rewrite Hco in Hc.
    exact (Hnone x y Hx Hy Hc). }
  split; [exact Hhole|]. split.
  - intros Hout. apply Hhole. intros x y _ _ Hland.
    apply lands_in_bounds in Hland. contradiction.
  - intros (x & y & Hx & Hy & Hland).
    destruct (foldl_writes_provenance depth_pixels
                (raster_transfers depth_intrin depth_to_color color_intrin
                   (scaled_depth depth_pixels depth_scale)) out o)
      as (c & Hc & Hco & Hv).
    + exists (y * W + x, o). split; [|reflexivity].
      apply elem_of_raster_transfers. exists x, y. split; [exact Hx|]. split; [exact Hy|].
      apply elem_of_pixel_transfers. split; [reflexivity | exact Hland].
    + apply elem_of_raster_transfers in Hc as (x' & y' & Hx' & Hy' & Hc).
      apply elem_of_pixel_transfers in Hc as [Hc1 Hc2].
      exists x', y'. rewrite Hv, Hc1, <- Hco. auto.
Qed.

(** X15. [align_color_to_depth_bytes<N>] writes inside the [N * Wd * Hd]
    bytes of its destination only: every other byte holds in the end what
    it held before. *)
Theorem align_color_to_depth_bytes_frame (N : Z) (out color : memory) (a : Z) :
  0 < N →
  ¬ (0 ≤ a < N * (W * height depth_intrin)) →
  align_color_to_depth_bytes N out depth_pixels depth_scale depth_intrin depth_to_color
    color_intrin color a = out a.
Proof.
  intros HN Ha. rewrite align_color_to_depth_bytes_raster.
  apply (foldl_stores_outside N (load_bytes N color)).
  intros c Hc Hin. apply raster_transfers_inside in Hc as [Hc _]. apply Ha. nia.
Qed.

(** X16. The two alignment functions read the depth image inside its
    [Wd * Hd] pixels and the color image inside its [N * Wo * Ho] bytes
    only: changing the inputs elsewhere changes nothing of the result. *)
Theorem alignment_reads_inside_images (N : Z) (out : Z → Z) (out_color : memory)
    (depth_pixels' : Z → Z) (color color' : memory) :
  0 < N →
  (∀ i, 0 ≤ i < W * height depth_intrin → depth_pixels i = depth_pixels' i) →
  (∀ a, 0 ≤ a < N * (width color_intrin * height color_intrin) → color a = color' a) →
  (∀ o, align_depth_to_color out depth_pixels depth_scale depth_intrin depth_to_color
          color_intrin o
        = align_depth_to_color out depth_pixels' depth_scale depth_intrin depth_to_color
            color_intrin o)
  ∧ (∀ a, align_color_to_depth_bytes N out_color depth_pixels depth_scale depth_intrin
            depth_to_color color_intrin color a
          = align_color_to_depth_bytes N out_color depth_pixels' depth_scale depth_intrin
              depth_to_color color_intrin color' a).
Proof.
  intros HN Hdepth Hcolor.
  assert (raster_transfers depth_intrin depth_to_color color_intrin
            (scaled_depth depth_pixels' depth_scale)
          = raster_transfers depth_intrin depth_to_color color_intrin
              (scaled_depth depth_pixels depth_scale)) as Hlog.
  { apply raster_transfers_ext. intros i Hi. unfold scaled_depth. rewrite Hdepth by exact Hi.
    reflexivity. }
  split.
  - intros o. rewrite !align_depth_to_color_raster, Hlog.
    apply foldl_writes_ext; [|reflexivity].
    intros c Hc. apply raster_transfers_inside in Hc as [Hc _]. apply Hdepth, Hc.
  - intros a. rewrite !align_color_to_depth_bytes_raster, Hlog.
    apply (foldl_stores_ext N (load_bytes N color) (load_bytes N color')); [|reflexivity].
    intros c Hc. apply raster_transfers_inside in Hc as [_ Hc].
    unfold load_bytes. apply list_fmap_ext. intros n k Hk.
    apply list_elem_of_lookup_2, elem_of_seqZ in Hk. apply Hcolor. nia.
Qed.

(** X17. Running an alignment function again on its own result, with the
    same inputs, changes nothing: what is written depends on the inputs,
    not on what the destination holds. *)
Theorem alignment_idempotent (N : Z) (out : Z → Z) (out_color color : memory) :
  (∀ o, align_depth_to_color
          (align_depth_to_color out depth_pixels depth_scale depth_intrin depth_to_color
             color_intrin)
          depth_pixels depth_scale depth_intrin depth_to_color color_intrin o
        = align_depth_to_color out depth_pixels depth_scale depth_intrin depth_to_color
            color_intrin o)
  ∧ (∀ a, align_color_to_depth_bytes N
            (align_color_to_depth_bytes N out_color depth_pixels depth_scale depth_intrin
               depth_to_color color_intrin color)
            depth_pixels depth_scale depth_intrin depth_to_color color_intrin color a
          = align_color_to_depth_bytes N out_color depth_pixels depth_scale depth_intrin
              depth_to_color color_intrin color a).
Proof.
  split.
  - intros o. rewrite !align_depth_to_color_raster.
    set (cs := raster_transfers _ _ _ _).
    set (once := foldl _ out cs).
    destruct (foldl_writes_cases depth_pixels cs once out o) as [Hnone | Hsame];
      [|exact Hsame].
    apply foldl_writes_untouched, Hnone.
  - intros a. rewrite !align_color_to_depth_bytes_raster.
    set (cs := raster_transfers _ _ _ _).
    set (once := foldl _ out_color cs).
    destruct (foldl_stores_cases N (load_bytes N color) cs once out_color a) as [Hnone | Hsame];
      [|exact Hsame].
    apply (foldl_stores_outside N (load_bytes N color)), Hnone.
Qed.

End MorePolicies.

(** ** Rectification *)

Lemma rectify_fold_outside (N : Z) (src : memory) (table : list Z) (p : Z) (rect : memory)
    (a : Z) :
  0 < N → ¬ (N * p ≤ a < N * (p + Z.of_nat (length table))) →
  snd (foldl (λ '(p, rect) entry, (p + 1, store_bytes N rect p (load_bytes N src entry)))
         (p, rect) table) a = rect a.
Proof.
  intros HN. revert p rect. induction table as [|e table IH]; intros p rect Ha;
    cbn [foldl length] in *; [reflexivity|].
  rewrite IH by nia. apply store_bytes_outside. nia.
Qed.

Lemma rectify_fold_pixel (N : Z) (src : memory) (table : list Z) (p : Z) (rect : memory)
    (i : nat) (e k : Z) :
  0 < N → table !! i = Some e → 0 ≤ k < N →
  snd (foldl (λ '(p, rect) entry, (p + 1, store_bytes N rect p (load_bytes N src entry)))
         (p, rect) table) (N * (p + Z.of_nat i) + k) = src (N * e + k).
Proof.
  intros HN Hi Hk. revert p rect i Hi. induction table as [|e' table IH]; intros p rect i Hi;
    [discriminate Hi|].
  cbn [foldl]. destruct i as [|i].
  - injection Hi as ->. rewrite rectify_fold_outside by nia.
    replace (p + Z.of_nat 0) with p by lia. apply store_bytes_inside. exact Hk.
  - cbn in Hi. replace (p + Z.of_nat (S i)) with (p + 1 + Z.of_nat i) by lia.
    apply IH. exact Hi.
Qed.

(** X18. [rectify_image_pixels<N>] gathers: the pixel [i] of the
    destination is in the end the pixel [table[i]] of the source, byte by
    byte, for every entry of the table; the bytes of the destination after
    the [N * table.size()] first hold what they held before. *)
Theorem rectify_image_pixels_gather (N : Z) (rect : memory) (table : list Z)
    (src : memory) :
  0 < N →
  (∀ (i : nat) e k, table !! i = Some e → 0 ≤ k < N →
     rectify_image_pixels N rect table src (N * Z.of_nat i + k) = src (N * e + k))
  ∧ (∀ a, ¬ (0 ≤ a < N * Z.of_nat (length table)) →
       rectify_image_pixels N rect table src a = rect a).
Proof.
  intros HN. unfold rectify_image_pixels. split.
  - intros i e k Hi Hk.
    rewrite <- (rectify_fold_pixel N src table 0 rect i e k HN Hi Hk). do 2 f_equal.
  - intros a Ha. apply rectify_fold_outside; [exact HN | lia].
Qed.

Section MoreRectification.
Context `{FA : float_arith} `{RU : !rsutil}.
Context (rect_intrin : rs_intrinsics) (rect_to_unrect : rs_extrinsics)
        (unrect_intrin : rs_intrinsics).

Local Abbreviation W := (width rect_intrin).
Local Abbreviation lands_at :=
  (lands rect_intrin rect_to_unrect unrect_intrin (λ _, float_one)).
Local Abbreviation table :=
  (compute_rectification_table rect_intrin rect_to_unrect unrect_intrin).

Lemma rectification_table_entry x y :
  0 ≤ x < W → 0 ≤ y < height rect_intrin → W * height rect_intrin < 2 ^ 64 →
  table !! Z.to_nat (y * W + x) = Some (default 0 (lands_at x y)).
Proof.
  intros Hx Hy Hsize. rewrite compute_rectification_table_raster.
  destruct (raster_split rect_intrin rect_to_unrect unrect_intrin (λ _, float_one)
              x y Hx Hy) as (before & after & -> & Hbefore & Hafter).
  assert (∀ c, c ∈ before ∨ c ∈ after → Z.to_nat c.1 ≠ Z.to_nat (y * W + x)) as Hneq.
  { intros c [Hc | Hc]; [apply Hbefore in Hc | apply Hafter in Hc];
      destruct Hc as (x' & y' & Hx' & Hy' & Hlt & Hc);
      apply elem_of_pixel_transfers in Hc as [-> _];
      (assert (y' * W + x' ≠ y * W + x) by (apply raster_lt_index_ne; auto));
      nia. }
  rewrite !foldl_app, foldl_inserts_untouched by auto.
  assert (Z.to_nat (y * W + x) < Z.to_nat (size_t (W * height rect_intrin)))%nat as Hi.
  { unfold size_t, to_unsigned. rewrite Z.mod_small by nia. nia. }
  unfold pixel_transfers. destruct lands_at as [o|]; cbn [foldl fst snd default].
  - apply list_lookup_insert_eq. rewrite foldl_inserts_length, length_replicate. exact Hi.
  - rewrite foldl_inserts_untouched by auto. apply lookup_replicate_2. exact Hi.
Qed.

(** X19. Rectification with the table that [compute_rectification_table]
    builds, for rectified intrinsics of a non-negative size of at most
    [INT_MAX] pixels and an unrectified image of at most [INT_MAX] pixels
    (so that the [int] product passed to [resize] and the [int] index of
    the kernel are the numbers in [Z]): the rectified pixel [(x, y)] is in
    the end the unrectified pixel it lands on and, when it lands on none,
    the unrectified pixel of index 0 (the table entry that [resize] left
    at zero); the pixel read is inside the unrectified image when that is
    not empty; no byte beyond the rectified image is written. *)
Theorem rectify_with_computed_table (N : Z) (rect unrect : memory) :
  0 < N → 0 ≤ W * height rect_intrin ≤ INT_MAX →
  width unrect_intrin * height unrect_intrin ≤ INT_MAX →
  (∀ x y k, 0 ≤ x < W → 0 ≤ y < height rect_intrin → 0 ≤ k < N →
     rectify_image_pixels N rect table unrect (N * (y * W + x) + k)
     = unrect (N * default 0 (lands_at x y) + k)
     ∧ 0 ≤ default 0 (lands_at x y) ≤ INT_MAX
     ∧ (0 < width unrect_intrin * height unrect_intrin →
        default 0 (lands_at x y) < width unrect_intrin * height unrect_intrin))
  ∧ (∀ a, ¬ (0 ≤ a < N * (W * height rect_intrin)) →
       rectify_image_pixels N rect table unrect a = rect a).
Proof.
  intros HN Hsize Hunrect. unfold INT_MAX in Hsize. unfold rectify_image_pixels. split.
  - intros x y k Hx Hy Hk.
    assert (W * height rect_intrin < 2 ^ 64) as Hfit by lia.
    rewrite <- (rectify_fold_pixel N unrect table 0 rect (Z.to_nat (y * W + x))
                  (default 0 (lands_at x y)) k HN
                  (rectification_table_entry x y Hx Hy Hfit) Hk).
    split; [do 3 f_equal; nia|].
    destruct (lands_at x y) as [o|] eqn:Hland; cbv [default from_option id].
    + apply lands_in_bounds in Hland. split; lia.
    + unfold INT_MAX. split; lia.
  - intros a Ha. apply rectify_fold_outside; [exact HN|].
    rewrite compute_rectification_table_length. unfold size_t, to_unsigned.
    rewrite Z.mod_small by lia. lia.
Qed.

End MoreRectification.

(** ** More on the size oracle *)

(** X20. The size of an image is its height times the size of one row,
    which is what [unpack_subrect] takes as stride: for a FourCC of the
    table, a non-negative width that is a multiple of the macropixel width
    and a non-negative height, the [int] product
    [(w / macropixel_width) * h] being at most [INT_MAX],
    [get_image_size(w, h, fourcc)] is [h] times
    [get_image_size(w, 1, fourcc)]; an image of no row or of no column has
    size 0. *)
Theorem image_size_is_rows_of_stride (w h : Z) (f : format) :
  f ∈ formats → (macropixel_width f | w) → 0 ≤ w ≤ INT_MAX → 0 ≤ h ≤ INT_MAX →
  w `div` macropixel_width f * h ≤ INT_MAX →
  ∃ stride, get_image_size_fourcc w 1 (fourcc f) = Returns stride
    ∧ get_image_size_fourcc w h (fourcc f) = Returns (h * stride)
    ∧ 0 ≤ stride ≤ 4 * w
    ∧ h * stride ≤ 4 * INT_MAX
    ∧ (w = 0 ∨ h = 0 → get_image_size_fourcc w h (fourcc f) = Returns 0).
Proof.
  intros Hf Hmul Hw Hh Hfit. destruct (formats_width_pos f Hf) as [Hmw Hms].
  exists (w `div` macropixel_width f * 1 * macropixel_size f).
  rewrite !(get_image_size_fourcc_known w _ f Hf Hmul) by (unfold INT_MAX in *; lia).
  assert (0 ≤ w `div` macropixel_width f ≤ w) as Hq.
  { split; [apply Z.div_pos; lia|]. apply Z.div_le_upper_bound; nia. }
  split; [reflexivity|]. split; [f_equal; lia|]. split; [nia|]. split; [nia|].
  intros [-> | ->]; f_equal; nia.
Qed.

Lemma image_size_is_rows_of_stride_witness :
  ∃ stride, get_image_size_fourcc 640 1 (multichar "Y" "1" "2" "I") = Returns stride
    ∧ get_image_size_fourcc 640 480 (multichar "Y" "1" "2" "I") = Returns (480 * stride).
Proof.
  destruct (image_size_is_rows_of_stride 640 480
              {| fourcc := multichar "Y" "1" "2" "I"; macropixel_width := 1;
                 macropixel_size := sizeof_y12i_pixel |})
    as (stride & H1 & Hh & _);
    [unfold formats; rewrite !elem_of_cons; tauto | apply Z.divide_1_l
    | unfold INT_MAX; lia | unfold INT_MAX; lia | vm_compute; discriminate |].
  exists stride. split; [exact H1 | exact Hh].
Defined.

(** X21. [get_image_size(int, int, rs_format)] does not reject a negative
    size: the [int] product is converted to [size_t], so that a negative
    byte count [c] is returned as [2^64 + c], a size of at least [2^63]
    bytes. *)
Theorem get_image_size_negative_wraps (w h : Z) (fmt : rs_format) (N : Z) :
  pixel_width fmt = Some N → - INT_MAX - 1 ≤ w * h * N < 0 →
  get_image_size w h fmt = Returns (2 ^ 64 + w * h * N)
  ∧ 2 ^ 63 ≤ 2 ^ 64 + w * h * N.
Proof.
  intros Hfmt Hneg. unfold INT_MAX in Hneg. split; [|lia].
  assert (∀ c, - 2 ^ 31 ≤ c < 0 → size_t c = 2 ^ 64 + c) as Hwrap.
  { intros c Hc. unfold size_t, to_unsigned. symmetry.
    apply (Z.mod_unique c (2 ^ 64) (-1)); lia. }
  destruct fmt; cbn in Hfmt; (injection Hfmt as <- || discriminate Hfmt); cbn;
    rewrite ?Z.mul_1_r in *; rewrite Hwrap by lia; reflexivity.
Qed.

Lemma get_image_size_negative_wraps_witness :
  get_image_size (-2) 1 RS_FORMAT_Z16 = Returns (2 ^ 64 + -2 * 1 * 2).
Proof.
  apply (get_image_size_negative_wraps (-2) 1 RS_FORMAT_Z16 2);
    [reflexivity | unfold INT_MAX; lia].
Defined.

(** ** The colour conversion *)

Lemma clamp_byte_mono x x' : x ≤ x' → clamp_byte x ≤ clamp_byte x'.
Proof. intros Hx. rewrite !clamp_byte_clamp. unfold clamp. lia. Qed.

Lemma shiftr_8_mono x x' : x ≤ x' → Z.shiftr x 8 ≤ Z.shiftr x' 8.
Proof. intros Hx. rewrite !Z.shiftr_div_pow2 by lia. apply Z.div_le_mono; lia. Qed.

(** X24. The conversion from YUV, on the offset arguments that
    [unpack_from_yuy2] passes ([y - 16], [u - 128], [v - 128]): every
    channel is monotone in the luma; with neutral chroma the three
    channels are equal (a gray), which is 0 from the luma of black down
    and 255 from the luma of white (219 above black) up. *)
Theorem yuv_luma_monotone_gray (y y' u v : Z) :
  y ≤ y' →
  yuv_to_r y u v ≤ yuv_to_r y' u v
  ∧ yuv_to_g y u v ≤ yuv_to_g y' u v
  ∧ yuv_to_b y u v ≤ yuv_to_b y' u v
  ∧ yuv_to_r y 0 0 = yuv_to_g y 0 0 ∧ yuv_to_g y 0 0 = yuv_to_b y 0 0
  ∧ (y ≤ 0 → yuv_to_r y 0 0 = 0)
  ∧ (219 ≤ y' → yuv_to_r y' 0 0 = 255).
Proof.
  intros Hy. unfold yuv_to_r, yuv_to_g, yuv_to_b.
  split; [apply clamp_byte_mono, shiftr_8_mono; lia|].
  split; [apply clamp_byte_mono, shiftr_8_mono; lia|].
  split; [apply clamp_byte_mono, shiftr_8_mono; lia|].
  split; [do 2 f_equal; lia|]. split; [do 2 f_equal; lia|].
  rewrite !clamp_byte_clamp. unfold clamp. rewrite !Z.shiftr_div_pow2 by lia.
  change (2 ^ 8) with 256.
  split; intros Hend; Z.div_mod_to_equations; lia.
Qed.

Lemma yuv_luma_monotone_gray_witness :
  yuv_to_r (16 - 16) 0 0 = 0 ∧ yuv_to_r (235 - 16) 0 0 = 255
  ∧ yuv_to_g (16 - 16) 7 9 ≤ yuv_to_g (235 - 16) 7 9.
Proof.
  destruct (yuv_luma_monotone_gray (16 - 16) (235 - 16) 7 9) as (_ & Hg & _ & _ & _ & H0 & H1);
    [lia|].
  split; [apply H0; lia|]. split; [apply H1; lia | exact Hg].
Defined.

(** ** The invocations of the kernel *)

Lemma seqZ_sorted m n : StronglySorted Z.lt (seqZ m n).
Proof.
  destruct (decide (0 ≤ n)) as [Hn | Hn]; [|rewrite seqZ_nil by lia; constructor].
  rewrite <- (Z2Nat.id n Hn). induction (Z.to_nat n) as [|k IH]; [constructor|].
  rewrite seqZ_S. apply StronglySorted_app_2; [|exact IH|repeat constructor].
  intros a b Ha Hb. apply elem_of_seqZ in Ha. apply list_elem_of_singleton in Hb. lia.
Qed.

Lemma sorted_bind (f : Z → list Z) (xs : list Z) :
  StronglySorted Z.lt xs →
  (∀ x, x ∈ xs → StronglySorted Z.lt (f x)) →
  (∀ x x' a b, x ∈ xs → x' ∈ xs → x < x' → a ∈ f x → b ∈ f x' → a < b) →
  StronglySorted Z.lt (xs ≫= f).
Proof.
  induction xs as [|x xs IH]; intros Hxs Hf Hlt; [constructor|].
  apply StronglySorted_cons in Hxs as [Hx Hxs]. rewrite bind_cons.
  apply StronglySorted_app_2.
  - intros a b Ha Hb. apply list_elem_of_bind in Hb as (x' & Hb & Hx').
    apply (Hlt x x' a b); [left | right; exact Hx' | | exact Ha | exact Hb].
    rewrite list.Forall_forall in Hx. apply Hx, Hx'.
  - apply Hf. left.
  - apply IH; [exact Hxs | intros x' Hx'; apply Hf; right; exact Hx'|].
    intros x1 x2 a b H1 H2. apply Hlt; right; assumption.
Qed.

(** X25. The invocations of [transfer_pixel] that [align_images] makes,
    the two images having at most [INT_MAX] pixels each (so that the [int]
    counter and the [int] index of the kernel are the numbers in [Z]):
    both indices of every invocation are inside their images, the depth
    index in [[0, Wd * Hd)] and the other in [[0, Wo * Ho)], both fit an
    [int], and the depth indices are strictly increasing along the run. *)
Theorem align_images_log_in_bounds_sorted `{FA : float_arith} `{RU : !rsutil}
    (depth_intrin : rs_intrinsics) (depth_to_other : rs_extrinsics)
    (other_intrin : rs_intrinsics) (get_depth : Z → float) :
  width depth_intrin * height depth_intrin ≤ INT_MAX →
  width other_intrin * height other_intrin ≤ INT_MAX →
  let log := transfers depth_intrin depth_to_other other_intrin get_depth in
  Forall (λ c, 0 ≤ c.1 < width depth_intrin * height depth_intrin
               ∧ 0 ≤ c.2 < width other_intrin * height other_intrin) log
  ∧ Forall (λ c, 0 ≤ c.1 ≤ INT_MAX ∧ 0 ≤ c.2 ≤ INT_MAX) log
  ∧ StronglySorted Z.lt (log.*1).
Proof.
  intros Hdepth Hother. cbv zeta. rewrite transfers_raster.
  assert (Forall (λ c, 0 ≤ c.1 < width depth_intrin * height depth_intrin
                       ∧ 0 ≤ c.2 < width other_intrin * height other_intrin)
            (raster_transfers depth_intrin depth_to_other other_intrin get_depth)) as Hin.
  { apply list.Forall_forall. intros c Hc. exact (raster_transfers_inside _ _ _ _ c Hc). }
  split; [exact Hin|]. split.
  - apply list.Forall_forall. intros c Hc.
    pose proof (proj1 (list.Forall_forall _ _) Hin c Hc) as Hb. cbn beta in Hb. lia.
  - unfold raster_transfers. rewrite fmap_bind.
    assert (∀ x y d, d ∈ (pixel_transfers depth_intrin depth_to_other other_intrin get_depth
                            x y).*1 → d = y * width depth_intrin + x) as Hd.
    { intros x y d Hd. apply list_elem_of_fmap in Hd as (c & -> & Hc).
      apply elem_of_pixel_transfers in Hc as [Hc _]. exact Hc. }
    apply sorted_bind; [apply seqZ_sorted | |].
    + intros y _. cbn. rewrite fmap_bind. apply sorted_bind; [apply seqZ_sorted | |].
      * intros x _. cbn. unfold pixel_transfers.
        destruct (lands _ _ _ _ x y); cbn; repeat constructor.
      * intros x x' a b _ _ Hlt Ha Hb. cbn in Ha, Hb.
        apply Hd in Ha. apply Hd in Hb. lia.
    + intros y y' a b _ _ Hlt Ha Hb. cbn in Ha, Hb. rewrite fmap_bind in Ha, Hb.
      apply list_elem_of_bind in Ha as (x & Ha & Hx).
      apply list_elem_of_bind in Hb as (x' & Hb & Hx'). cbn in Ha, Hb.
      apply Hd in Ha. apply Hd in Hb. apply elem_of_seqZ in Hx. apply elem_of_seqZ in Hx'.
      nia.
Qed.

(** ** The alignment and the rectification on concrete images *)

Import Exact.

Lemma align_color_to_depth_bytes_frame_witness :
  align_color_to_depth_bytes 3 (frame [Byte.x09; Byte.x09; Byte.x09; Byte.x07]) (λ _, 5)
    (1 # 1000) (camera 1 1 (1 # 1)) identity (camera 1 1 (1 # 1))
    (frame [Byte.x01; Byte.x02; Byte.x03]) 3
  = frame [Byte.x09; Byte.x09; Byte.x09; Byte.x07] 3.
Proof.
  apply (align_color_to_depth_bytes_frame (FA := Q_float_arith) (λ _, 5) (1 # 1000) (camera 1 1 (1 # 1)) identity
           (camera 1 1 (1 # 1)) 3 (frame [Byte.x09; Byte.x09; Byte.x09; Byte.x07])
           (frame [Byte.x01; Byte.x02; Byte.x03]) 3); cbn; lia.
Defined.

Lemma alignment_reads_inside_images_witness :
  align_color_to_depth_bytes 3 (frame []) (λ _, 5) (1 # 1000) (camera 1 1 (1 # 1)) identity
    (camera 1 1 (1 # 1)) (frame [Byte.x01; Byte.x02; Byte.x03]) 0
  = align_color_to_depth_bytes 3 (frame []) (λ i, if i <? 1 then 5 else 9) (1 # 1000)
      (camera 1 1 (1 # 1)) identity (camera 1 1 (1 # 1))
      (frame [Byte.x01; Byte.x02; Byte.x03; Byte.x04]) 0.
Proof.
  apply (alignment_reads_inside_images (FA := Q_float_arith) (λ _, 5) (1 # 1000) (camera 1 1 (1 # 1)) identity
           (camera 1 1 (1 # 1)) 3 (λ _, 0) (frame []) (λ i, if i <? 1 then 5 else 9)
           (frame [Byte.x01; Byte.x02; Byte.x03])
           (frame [Byte.x01; Byte.x02; Byte.x03; Byte.x04])).
  - lia.
  - intros i Hi. cbn in Hi. assert (i = 0) as -> by lia. reflexivity.
  - intros a Ha. cbn in Ha. assert (a = 0 ∨ a = 1 ∨ a = 2) as [-> | [-> | ->]] by lia;
      reflexivity.
Defined.

Lemma rectify_image_pixels_gather_witness :
  rectify_image_pixels 1 (frame []) [1; 0] (frame [Byte.x0a; Byte.x0b]) (1 * Z.of_nat 0 + 0)
  = frame [Byte.x0a; Byte.x0b] (1 * 1 + 0).
Proof.
  apply (proj1 (rectify_image_pixels_gather 1 (frame []) [1; 0] (frame [Byte.x0a; Byte.x0b])
                  ltac:(lia)) 0%nat 1 0); [reflexivity | lia].
Defined.

Lemma rectify_with_computed_table_witness :
  rectify_image_pixels 1 (frame [])
    (compute_rectification_table (camera 3 1 (1 # 1)) (translate (1 # 1) (0 # 1) (0 # 1))
       (camera 3 1 (1 # 1)))
    (frame [Byte.x0a; Byte.x0b; Byte.x0c]) 1
  = Byte.x0c.
Proof.
  refine (proj1 (proj1 (rectify_with_computed_table (camera 3 1 (1 # 1))
                          (translate (1 # 1) (0 # 1) (0 # 1)) (camera 3 1 (1 # 1)) 1
                          (frame []) (frame [Byte.x0a; Byte.x0b; Byte.x0c]) _ _ _)
                   1 0 0 _ _ _));
    cbn; unfold INT_MAX; lia.
Defined.

Lemma align_images_log_in_bounds_sorted_witness :
  let log := transfers (camera 3 1 (1 # 1)) identity (camera 3 1 (2 # 1)) inject_Z in
  Forall (λ c, 0 ≤ c.1 < 3 * 1 ∧ 0 ≤ c.2 < 3 * 1) log
  ∧ StronglySorted Z.lt (log.*1).
Proof.
  destruct (align_images_log_in_bounds_sorted (camera 3 1 (1 # 1)) identity
              (camera 3 1 (2 # 1)) inject_Z) as (Hin & _ & Hsorted);
    [cbn; unfold INT_MAX; lia | cbn; unfold INT_MAX; lia |].
  split; [exact Hin | exact Hsorted].
Defined.

End ImageMore.

(** * Further properties of l500-thermal-loop.h *)

Module ThermalLoopMore.
Import ThermalLoop ThermalSpec ThermalLoopFacts.

Lemma SFeqb_sym x y : SFeqb x y = true → SFeqb y x = true.
Proof.
  destruct x as [[]|[]| |[] mx ex], y as [[]|[]| |[] my ey]; try rewrite !SFeqb_finite;
    cbn; try discriminate; try reflexivity; intuition congruence.
Qed.

Lemma SFeqb_trans x y z : SFeqb x y = true → SFeqb y z = true → SFeqb x z = true.
Proof.
  destruct x as [[]|[]| |[] mx ex], y as [[]|[]| |[] my ey], z as [[]|[]| |[] mz ez];
    try rewrite !SFeqb_finite; cbn; try discriminate; try reflexivity; intuition congruence.
Qed.

Lemma SFeqb_refl x : SFeqb x x = true ↔ x ≠ S754_nan.
Proof.
  destruct x as [[]|[]| |[] mx ex]; try rewrite SFeqb_finite; cbn;
    intuition (discriminate || congruence).
Qed.

Lemma float_equal_sym a b : float_equal a b → float_equal b a.
Proof.
  unfold float_equal, float_ne. rewrite !negb_false_iff. apply SFeqb_sym.
Qed.

Lemma float_equal_trans a b c : float_equal a b → float_equal b c → float_equal a c.
Proof.
  unfold float_equal, float_ne. rewrite !negb_false_iff. apply SFeqb_trans.
Qed.

Lemma float_equal_refl a : is_float a → float_equal a a ↔ is_nan a = false.
Proof.
  intros Ha. rewrite (float_equal_iff a a Ha Ha). intuition.
Qed.

Lemma Forall2_diagonal {A : Type} (P : A → A → Prop) (xs : list A) :
  Forall2 P xs xs ↔ Forall (λ x, P x x) xs.
Proof.
  induction xs as [|x xs IH].
  - split; constructor.
  - rewrite list.Forall2_cons, list.Forall_cons, IH. reflexivity.
Qed.

(** X22. [operator==] on thermal tables is symmetric and transitive,
    whatever the floats are: the comparison of two floats is, and the loop
    runs over the common size of the two vectors. *)
Theorem operator_eq_partial_equivalence (a b c : thermal_calibration_table) :
  operator_eq a b = operator_eq b a
  ∧ (operator_eq a b = true → operator_eq b c = true → operator_eq a c = true).
Proof.
  assert (∀ s t, operator_eq s t = true → operator_eq t s = true) as Hsym.
  { intros s t. rewrite !operator_eq_fieldwise. intros (Hlen & (H1 & H2 & H3 & H4) & Hvals).
    split; [congruence|]. split; [repeat split; apply float_equal_sym; assumption|].
    clear Hlen. revert Hvals. generalize (vals s) (vals t). intros es es' Hvals.
    induction Hvals as [|e e' es es' (E1 & E2 & E3 & E4) _ IH]; constructor; [|exact IH].
    repeat split; apply float_equal_sym; assumption. }
  split.
  - destruct (operator_eq a b) eqn:Hab, (operator_eq b a) eqn:Hba; try reflexivity.
    + apply Hsym in Hab. congruence.
    + apply Hsym in Hba. congruence.
  - rewrite !operator_eq_fieldwise.
    intros (Hlen & (H1 & H2 & H3 & H4) & Hvals) (Hlen' & (H1' & H2' & H3' & H4') & Hvals').
    split; [congruence|].
    split; [repeat split; eapply float_equal_trans; eassumption|].
    eapply Forall2_trans; [|exact Hvals|exact Hvals'].
    intros e e' e'' (E1 & E2 & E3 & E4) (E1' & E2' & E3' & E4').
    repeat split; eapply float_equal_trans; eassumption.
Qed.

(** X23. A thermal table compares equal to itself exactly when none of
    its floats, of the header and of the entries, is a NaN. *)
Theorem operator_eq_reflexive_iff (t : thermal_calibration_table) :
  Forall is_float (fields t) →
  operator_eq t t = true ↔ Forall (λ b, is_nan b = false) (fields t).
Proof.
  unfold fields. intros Hfl. apply Forall_app in Hfl as [Hh Hv].
  rewrite operator_eq_fieldwise, Forall_app, Forall2_diagonal.
  assert (header_equal (header_ t) (header_ t)
          ↔ Forall (λ b, is_nan b = false) (header_fields (header_ t))) as ->.
  { unfold header_fields, header_equal in *. rewrite !list.Forall_cons in Hh.
    destruct Hh as (F1 & F2 & F3 & F4 & _).
    rewrite !float_equal_refl by assumption. split.
    - intros (N1 & N2 & N3 & N4). repeat constructor; assumption.
    - intros HF. rewrite !list.Forall_cons in HF. tauto. }
  assert (Forall (λ e, temp_data_equal e e) (vals t)
          ↔ Forall (λ b, is_nan b = false) (vals t ≫= entry_fields)) as ->.
  { induction (vals t) as [|e es IH]; [split; constructor|].
    rewrite bind_cons in Hv. apply Forall_app in Hv as [He Hes].
    rewrite bind_cons, Forall_app, list.Forall_cons, (IH Hes).
    unfold entry_fields, temp_data_equal in *. rewrite !list.Forall_cons in He.
    destruct He as (F1 & F2 & F3 & F4 & _).
    rewrite !float_equal_refl by assumption. split.
    - intros ((N1 & N2 & N3 & N4) & Hrest). split; [|exact Hrest].
      repeat constructor; assumption.
    - intros [HF Hrest]. rewrite !list.Forall_cons in HF. tauto. }
  tauto.
Qed.

Lemma operator_eq_reflexive_iff_witness :
  operator_eq (flat_table one one) (flat_table one one) = true
  ∧ operator_eq (flat_table one quiet_nan) (flat_table one quiet_nan) ≠ true.
Proof.
  split.
  - apply (operator_eq_reflexive_iff (flat_table one one));
      apply (bool_decide_unpack _); vm_compute; exact I.
  - intros Heq.
    apply (operator_eq_reflexive_iff (flat_table one quiet_nan)) in Heq;
      [|apply (bool_decide_unpack _); vm_compute; exact I].
    revert Heq. apply (bool_decide_unpack _). vm_compute. exact I.
Defined.

End ThermalLoopMore.
